(** * FetchQueue: a token-aware request queue over the Fetch wrapper

    A shallow embedding of [src/FetchQueue.mjs] and of [src/Fetch.mjs],
    the class it extends.  The JavaScript is asynchronous, so the
    embedding has three layers:

    - the data of the program (stores, config, options objects, queue);
    - a small promise kernel (promise cells, reactions, the microtask
      queue), following the ECMAScript job model: [then], [catch],
      [finally], [await], the resolving functions and the adoption of a
      promise by another one;
    - the methods of [Fetch] and [FetchQueue], written in a state monad
      over the whole world, with the closures of the source
      defunctionalised into the constructors of [handler].

    The network ([fetch]) and the embedder's callbacks ([config.generate],
    [config.renew], [config.refresh], [config.handleErrors]) are external:
    calling one allocates a pending promise that only the environment
    settles, through an [event].  A callback that writes a store does so
    through an event of its own, before the one that settles its promise.

    What is abstracted:
    - numbers are integers ([Z]): timestamps in milliseconds;
    - [Date.now()] is a clock that only the environment moves, so it is
      constant during a macrotask and the microtasks that follow it;
    - strings are strings of bytes;
    - objects live in a heap and are passed by reference; [this.options]
      is such a reference, which the caller may hold as well;
    - the keys of an options object are missing, [null] or given, and a
      payload that is given is an object (truthy); the values of
      [headers], [query] and [form] are kept as the strings the platform
      turns them into;
    - of the platform, [Headers] is modelled after the Fetch standard;
      the URL parser is a parameter of the world ([parser]); what
      [JSON.stringify] makes of a [json] payload is part of the payload
      ([Json]);
    - [fetch(input, init).then(handleResponse).catch(wrap)] of
      [Fetch.send] is one external promise, settled with an
      [HttpResponse] or an [HttpException]; what settles it is modelled
      apart ([transport]);
    - a promise is never resolved twice in this program, so the
      "already resolved" flag of the resolving functions is left out;
    - payloads the program does not look into are opaque strings. *)

From Stdlib Require Import ZArith Lia.
From stdpp Require Import base option list strings gmap pretty.

Set Default Proof Using "Type".
Local Open Scope Z_scope.

(** ** Data model *)

(** [static NONE = 0; static ASYNC = 1; static SYNC = 2] *)
Inductive PendingMode := NONE | ASYNC | SYNC.

Global Instance PendingMode_eq_dec : EqDecision PendingMode.
Proof. solve_decision. Defined.

(** [accessStore] and [refreshStore]: [{ token, delay, exp }]. *)
Record Store := mkStore {
  token : option string;
  delay : Z;
  exp : Z;
}.

(** The value both stores start with and are reset to. *)
Definition emptyStore : Store := {| token := None; delay := 0; exp := 0 |}.

(** The [Config] typedef.  A callback is external code: the record only
    says whether it is set. *)
Record Config := mkConfig {
  connected : bool;
  has_generate : bool;
  has_renew : bool;
  has_refresh : bool;
  has_handleErrors : bool;
}.

(** A key of an object.  [Fetch.send] tells a key that is missing from a
    key that is [null]: the spread [{ ...this.options, ...options }] lets
    a [null] of the call hide the instance default. *)
Inductive field (A : Type) : Type :=
| Absent            (* the key is missing *)
| Null              (* the key holds [null] or [undefined] *)
| Given (a : A).

Arguments Absent {A}.
Arguments Null {A}.
Arguments Given {A} a.

(** A value of the [query] object, as [Fetch.send] tells them apart: an
    array, [null], or anything else.  Values are kept as the strings
    [URLSearchParams.append] turns them into. *)
Inductive QueryValue :=
| QArray (vs : list string)
| QNull
| QScalar (v : string).

(** The [json] payload, by what [JSON.stringify] makes of it. *)
Inductive Json :=
| JsonText (text : string)   (* it serialises to [text] *)
| JsonThrows.                (* [JSON.stringify] throws: a cycle, a [BigInt] *)

(** The [Options] typedef.  An object such as [headers], [query] or
    [form] is the list of its keys and values, in the order in which
    JavaScript enumerates them. *)
Record Options := mkOptions {
  baseUrl : field string;
  method : field string;
  signal : field string;
  credentials : field string;
  headers : field (list (string * string));
  query : field (list (string * QueryValue));
  body : field string;
  form : field (list (string * string));
  json : field Json;
  extra : field string;
}.

(** [{}] *)
Definition noOptions : Options :=
  {| baseUrl := Absent; method := Absent; signal := Absent; credentials := Absent;
     headers := Absent; query := Absent; body := Absent; form := Absent;
     json := Absent; extra := Absent |}.

(** [options.key = value], for the keys the program writes. *)
Definition with_headers (h : field (list (string * string))) (o : Options) : Options :=
  {| baseUrl := baseUrl o; method := method o; signal := signal o;
     credentials := credentials o; headers := h; query := query o;
     body := body o; form := form o; json := json o; extra := extra o |}.

Definition with_method (m : string) (o : Options) : Options :=
  {| baseUrl := baseUrl o; method := Given m; signal := signal o;
     credentials := credentials o; headers := headers o; query := query o;
     body := body o; form := form o; json := json o; extra := extra o |}.

Definition with_query (q : field (list (string * QueryValue))) (o : Options) : Options :=
  {| baseUrl := baseUrl o; method := method o; signal := signal o;
     credentials := credentials o; headers := headers o; query := q;
     body := body o; form := form o; json := json o; extra := extra o |}.

Definition with_json (j : field Json) (o : Options) : Options :=
  {| baseUrl := baseUrl o; method := method o; signal := signal o;
     credentials := credentials o; headers := headers o; query := query o;
     body := body o; form := form o; json := j; extra := extra o |}.

Definition with_form (f : field (list (string * string))) (o : Options) : Options :=
  {| baseUrl := baseUrl o; method := method o; signal := signal o;
     credentials := credentials o; headers := headers o; query := query o;
     body := body o; form := f; json := json o; extra := extra o |}.

(** ** The [Headers] of the platform

    [new Headers(init)], [append], [set] and [get] as the Fetch standard
    defines them.  A [Headers] object is kept as what [get] and its
    iteration show of it: a finite map from the name in lower case to
    the values given under that name, joined by a comma and a space. *)

(** Byte-lowercase. *)
Definition lower_ascii (a : Ascii.ascii) : Ascii.ascii :=
  let n := Ascii.nat_of_ascii a in
  if (65 <=? n)%nat && (n <=? 90)%nat then Ascii.ascii_of_nat (n + 32) else a.

Fixpoint lower (s : string) : string :=
  match s with
  | EmptyString => EmptyString
  | String a s' => String (lower_ascii a) (lower s')
  end.

(** A [tchar] of RFC 9110: a letter, a digit or one of the listed marks. *)
Definition tchar (a : Ascii.ascii) : bool :=
  let n := Ascii.nat_of_ascii a in
  ((48 <=? n)%nat && (n <=? 57)%nat)
  || ((65 <=? n)%nat && (n <=? 90)%nat)
  || ((97 <=? n)%nat && (n <=? 122)%nat)
  || existsb (Ascii.eqb a) (String.list_ascii_of_string "!#$%&'*+-.^_`|~").

(** A header name: a token that is not empty. *)
Definition header_name (name : string) : bool :=
  negb (String.eqb name "") && forallb tchar (String.list_ascii_of_string name).

(** HTTP whitespace: tab, line feed, carriage return, space. *)
Definition http_whitespace (a : Ascii.ascii) : bool :=
  existsb (Nat.eqb (Ascii.nat_of_ascii a)) [9; 10; 13; 32]%nat.

Fixpoint strip (l : list Ascii.ascii) : list Ascii.ascii :=
  match l with
  | [] => []
  | a :: l' => if http_whitespace a then strip l' else l
  end.

(** A value is normalised before it is stored: the whitespace at both
    ends is removed. *)
Definition normalize (value : string) : string :=
  String.string_of_list_ascii (rev (strip (rev (strip (String.list_ascii_of_string value))))).

(** A header value, once normalised: no NUL, no line feed, no carriage
    return. *)
Definition header_value (value : string) : bool :=
  forallb (λ a, negb (existsb (Nat.eqb (Ascii.nat_of_ascii a)) [0; 10; 13]%nat))
    (String.list_ascii_of_string value).

Abbreviation Headers := (gmap string string).

(** [headers.append(name, value)]; [None] is the [TypeError] of a name or
    a value that is not valid. *)
Definition Headers_append (hs : Headers) (name value : string) : option Headers :=
  let v := normalize value in
  if header_name name && header_value v
  then Some (<[lower name := match hs !! lower name with
                             | Some v0 => (v0 +:+ ", " +:+ v)%string
                             | None => v
                             end]> hs)
  else None.

(** [new Headers(init)] for an object: its entries are appended in
    order. *)
Definition new_Headers (init : list (string * string)) : option Headers :=
  foldl (λ acc kv, hs ← acc; Headers_append hs kv.1 kv.2) (Some ∅) init.

(** [headers.set(name, value)].  The program calls it once, with a name
    and a value that are valid. *)
Definition Headers_set (hs : Headers) (name value : string) : Headers :=
  <[lower name := normalize value]> hs.

(** [headers.get(name)] *)
Definition Headers_get (hs : Headers) (name : string) : option string :=
  hs !! lower name.

(** What [fetch(input, init)] is given. *)

(** [init.body] *)
Inductive Payload :=
| PRaw (b : field string)                 (* [config.body], as it is *)
| PJson (text : string)                   (* [JSON.stringify(config.json)] *)
| PForm (f : list (string * string)).     (* a [FormData] *)

Record RequestInit := mkRequestInit {
  init_method : string;
  init_credentials : string;
  init_body : Payload;
  init_signal : option string;
  init_headers : Headers;
}.

(** The arguments of [fetch(input, init)]: the url and its base ([None]
    is [location.origin]), the parameters appended to the url, and
    [init]. *)
Record FetchCall := mkFetchCall {
  call_url : string;
  call_base : option string;
  call_params : list (string * string);
  call_init : RequestInit;
}.

(** What the platform throws while [Fetch.send] builds the request: a
    [TypeError] of [new URL], of [new Headers] or of [JSON.stringify]. *)
Inductive BuildError := BadURL | BadHeaders | BadJson.

(** The three credential operations. *)
Inductive Op := Generate | Renew | Refresh.

Global Instance Op_eq_dec : EqDecision Op.
Proof. solve_decision. Defined.

(** JavaScript values that flow through the promises of this program:
    [undefined], the boolean of [isQueue], an [HttpResponse]
    [{ status, body }], an [HttpException] [{ status, data }], an error
    of the platform, and promises themselves (a promise resolved with a
    promise adopts it). *)
Inductive value :=
| VUndef
| VBool (b : bool)
| VResp (status : Z) (payload : string)
| VErr (status : Z) (data : string)
| VThrown (e : BuildError)
| VProm (p : nat).

(** The closures of the source, defunctionalised.  Each constructor
    carries the variables its closure captures. *)
Inductive handler :=
| HIdentity                       (* missing [onFulfilled] *)
| HThrower                        (* missing [onRejected] *)
| HResolveFn (p : nat)            (* the [resolve] function of promise [p] *)
| HRejectFn (p : nat)             (* the [reject] function of promise [p] *)
| HGenerateCatch                  (* [(e) => { connected = false; throw e }] *)
| HRenewCatch                     (* the [.catch] of [renew] *)
| HRefreshCatch                   (* the [.catch] of [refresh] *)
| HThenFinally (op : Op)          (* [.finally(cb)] on fulfilment *)
| HCatchFinally (op : Op)         (* [.finally(cb)] on rejection *)
| HValueThunk (v : value)         (* [() => v] of [finally] *)
| HThrowThunk (v : value)         (* [() => { throw v }] of [finally] *)
| HSendResume (url : string) (opts sp : nat)   (* [send] after [await] *)
| HSendThrow (sp : nat)
| HFetchCatch (url : string) (opts : nat)      (* [(e) => this.handleErrors(e, {url, options})] *)
| HHookResume (e : value) (hp : nat)           (* [handleErrors] after [await] *)
| HHookThrow (hp : nat)
| HQueueResolve (np : nat)        (* [(response) => { handler.resolve(response) }] *)
| HQueueReject (np : nat).        (* [(error) => { handler.reject(error) }] *)

(** A reaction registered by [then]: the two handlers and the derived
    promise ([None] for an [await], which has no derived promise). *)
Record reaction := mkReaction {
  r_fulfil : handler;
  r_reject : handler;
  r_cap : option nat;
}.

Inductive pstate :=
| Pending (rs : list reaction)
| Fulfilled (v : value)
| Rejected (v : value).

(** Microtasks: [PromiseReactionJob] and [NewPromiseResolveThenableJob]. *)
Inductive job :=
| JReaction (h : handler) (cap : option nat) (arg : value)
| JThenable (p q : nat).

(** An entry of [#queue]: [{ promise: () => this.send(url, options),
    resolve, reject }].  The closure is its captured [url] and [options]
    (a reference to the caller's object); [resolve] and [reject] are the
    resolving functions of the promise [q_promise] created in [send]. *)
Record QueuedCall := mkQueued {
  q_url : string;
  q_options : nat;
  q_promise : nat;
}.

(** Observable actions, recorded in program order.  The trace is ghost
    state: the source does not keep it, the embedding records in it the
    calls that leave [FetchQueue] and the points the specification talks
    about. *)
Inductive obs :=
| ObsStrategy (op : Op) (p : nat)          (* [config.<op>()] was called and returned [p] *)
| ObsFetch (url : string) (opts : nat) (r : FetchCall) (p : nat)
                                           (* [fetch(input, init)] was called *)
| ObsHook (e : value) (p : nat)            (* [config.handleErrors(e, ctx)] was called *)
| ObsSend (url : string) (opts : nat) (p : nat)
                                           (* [send(url, options)] was entered *)
| ObsEnqueue (h : QueuedCall)              (* [#queue.push(...)] *)
| ObsReplay (h : QueuedCall)               (* [runQueue] called [handler.promise()] *)
| ObsSettled (op : Op).                    (* a [finally] callback ran *)

(** [new URL(url, base)]: whether the parser of the platform accepts
    [url] against [base]; the base [None] is [location.origin]. *)
Definition Parser := string → option string → bool.

(** The world: the fields of the [FetchQueue] instance, then the runtime. *)
Record World := mkWorld {
  (* class FetchQueue extends Fetch *)
  options : nat;                (* [this.options]: a reference to the defaults *)
  config : Config;
  queue : list QueuedCall;      (* [#queue] *)
  pending : PendingMode;
  accessStore : Store;
  refreshStore : Store;
  (* runtime *)
  parser : Parser;              (* the [URL] of the platform *)
  objects : list Options;       (* heap of the options objects *)
  promises : list pstate;       (* heap of promises *)
  microtasks : list job;
  clock : Z;                    (* what [Date.now()] returns *)
  trace : list obs;
}.

Definition set_config (c : Config) (w : World) : World :=
  mkWorld (options w) c (queue w) (pending w) (accessStore w) (refreshStore w)
          (parser w) (objects w) (promises w) (microtasks w) (clock w) (trace w).
Definition set_queue (q : list QueuedCall) (w : World) : World :=
  mkWorld (options w) (config w) q (pending w) (accessStore w) (refreshStore w)
          (parser w) (objects w) (promises w) (microtasks w) (clock w) (trace w).
Definition set_pending (m : PendingMode) (w : World) : World :=
  mkWorld (options w) (config w) (queue w) m (accessStore w) (refreshStore w)
          (parser w) (objects w) (promises w) (microtasks w) (clock w) (trace w).
Definition set_accessStore (s : Store) (w : World) : World :=
  mkWorld (options w) (config w) (queue w) (pending w) s (refreshStore w)
          (parser w) (objects w) (promises w) (microtasks w) (clock w) (trace w).
Definition set_refreshStore (s : Store) (w : World) : World :=
  mkWorld (options w) (config w) (queue w) (pending w) (accessStore w) s
          (parser w) (objects w) (promises w) (microtasks w) (clock w) (trace w).
Definition set_objects (o : list Options) (w : World) : World :=
  mkWorld (options w) (config w) (queue w) (pending w) (accessStore w) (refreshStore w)
          (parser w) o (promises w) (microtasks w) (clock w) (trace w).
Definition set_promises (p : list pstate) (w : World) : World :=
  mkWorld (options w) (config w) (queue w) (pending w) (accessStore w) (refreshStore w)
          (parser w) (objects w) p (microtasks w) (clock w) (trace w).
Definition set_microtasks (j : list job) (w : World) : World :=
  mkWorld (options w) (config w) (queue w) (pending w) (accessStore w) (refreshStore w)
          (parser w) (objects w) (promises w) j (clock w) (trace w).
Definition set_clock (t : Z) (w : World) : World :=
  mkWorld (options w) (config w) (queue w) (pending w) (accessStore w) (refreshStore w)
          (parser w) (objects w) (promises w) (microtasks w) t (trace w).
Definition set_trace (t : list obs) (w : World) : World :=
  mkWorld (options w) (config w) (queue w) (pending w) (accessStore w) (refreshStore w)
          (parser w) (objects w) (promises w) (microtasks w) (clock w) t.

(** ** The monad: state over the world, with failure

    [None] is reserved for what the JavaScript cannot do: following a
    dangling reference, or running out of the fuel that bounds the
    recursion of [runQueue] and the microtask loop. *)

Definition M (A : Type) : Type := World → option (A * World).

Global Instance M_ret : MRet M := λ A a w, Some (a, w).
Global Instance M_bind : MBind M := λ A B f m w,
  match m w with
  | Some (a, w') => f a w'
  | None => None
  end.

Definition fail {A} : M A := λ _, None.
Definition gets {A} (f : World → A) : M A := λ w, Some (f w, w).
Definition modify (f : World → World) : M unit := λ w, Some (tt, f w).
Definition when (b : bool) (m : M unit) : M unit := if b then m else mret tt.
Definition ignore {A} (m : M A) : M unit := _ ← m; mret tt.

Definition observe (o : obs) : M unit :=
  modify (λ w, set_trace (trace w ++ [o]) w).

(** ** The promise kernel *)

Definition new_promise (s : pstate) : M nat :=
  λ w, Some (length (promises w), set_promises (promises w ++ [s]) w).

Definition get_promise (p : nat) : M pstate :=
  λ w, match promises w !! p with Some s => Some (s, w) | None => None end.

Definition put_promise (p : nat) (s : pstate) : M unit :=
  modify (λ w, set_promises (<[p := s]> (promises w)) w).

Definition enqueue (j : job) : M unit :=
  modify (λ w, set_microtasks (microtasks w ++ [j]) w).

(** [FulfillPromise] and [RejectPromise]: settle a pending promise and
    queue one job per registered reaction.  A settled promise stays as
    it is. *)
Definition fulfil (p : nat) (v : value) : M unit :=
  s ← get_promise p;
  match s with
  | Pending rs =>
      put_promise p (Fulfilled v) ;;
      modify (λ w, set_microtasks
        (microtasks w ++ map (λ r, JReaction (r_fulfil r) (r_cap r) v) rs) w)
  | _ => mret tt
  end.

Definition reject (p : nat) (v : value) : M unit :=
  s ← get_promise p;
  match s with
  | Pending rs =>
      put_promise p (Rejected v) ;;
      modify (λ w, set_microtasks
        (microtasks w ++ map (λ r, JReaction (r_reject r) (r_cap r) v) rs) w)
  | _ => mret tt
  end.

(** The promise resolve function: a promise as resolution is adopted
    through a [NewPromiseResolveThenableJob]; any other value fulfils. *)
Definition resolve (p : nat) (v : value) : M unit :=
  match v with
  | VProm q => enqueue (JThenable p q)
  | _ => fulfil p v
  end.

(** [PerformPromiseThen]. *)
Definition perform_then (p : nat) (r : reaction) : M unit :=
  s ← get_promise p;
  match s with
  | Pending rs => put_promise p (Pending (rs ++ [r]))
  | Fulfilled v => enqueue (JReaction (r_fulfil r) (r_cap r) v)
  | Rejected v => enqueue (JReaction (r_reject r) (r_cap r) v)
  end.

(** [p.then(onFulfilled, onRejected)] *)
Definition then_ (p : nat) (hf hr : handler) : M nat :=
  d ← new_promise (Pending []);
  perform_then p (mkReaction hf hr (Some d)) ;;
  mret d.

(** [p.catch(onRejected)] *)
Definition catch_ (p : nat) (hr : handler) : M nat := then_ p HIdentity hr.

(** [p.finally(cb)]: [cb] is the same in the three operations, so the
    two closures that [finally] builds only carry the operation. *)
Definition finally_ (p : nat) (op : Op) : M nat :=
  then_ p (HThenFinally op) (HCatchFinally op).

(** [await p] inside an async function whose continuation is [k]. *)
Definition await (p : nat) (k kthrow : handler) : M unit :=
  perform_then p (mkReaction k kthrow None).

(** Calling external asynchronous code: the returned promise is pending
    until the environment settles it. *)
Definition external (mk : nat → obs) : M nat :=
  p ← new_promise (Pending []);
  observe (mk p) ;;
  mret p.

(** ** Fetch.mjs: the request that [Fetch.send] builds *)

(** [{ ...a, ...b }] for one key. *)
Definition spread_field {A} (dflt call : field A) : field A :=
  match call with
  | Absent => dflt
  | _ => call
  end.

(** [x ?? d] *)
Definition nullish {A} (x : field A) (d : A) : A :=
  match x with
  | Given a => a
  | _ => d
  end.

(** [const config = { ...this.options, ...options }] *)
Definition Fetch_config (dflt call : Options) : Options :=
  {| baseUrl := spread_field (baseUrl dflt) (baseUrl call);
     method := spread_field (method dflt) (method call);
     signal := spread_field (signal dflt) (signal call);
     credentials := spread_field (credentials dflt) (credentials call);
     headers := spread_field (headers dflt) (headers call);
     query := spread_field (query dflt) (query call);
     body := spread_field (body dflt) (body call);
     form := spread_field (form dflt) (form call);
     json := spread_field (json dflt) (json call);
     extra := spread_field (extra dflt) (extra call) |}.

(** The body of the loop over [config.query]: an array gives one
    parameter [key[index]] per element, [null] gives none, any other
    value gives one. *)
Definition query_entry (kv : string * QueryValue) : list (string * string) :=
  match kv.2 with
  | QArray vs => imap (λ index value, (kv.1 +:+ "[" +:+ pretty index +:+ "]", value)) vs
  | QNull => []
  | QScalar data => [(kv.1, data)]
  end.

(** What lines 57-68 append to [input.searchParams]. *)
Definition searchParams (q : field (list (string * QueryValue))) : list (string * string) :=
  match q with
  | Given kvs => mjoin (query_entry <$> kvs)
  | _ => []
  end.

(** Lines 72-89: [init].  [new Headers] throws on a name or a value that
    is not valid, [JSON.stringify] on a payload it cannot serialise. *)
Definition Fetch_init (cfg : Options) : BuildError + RequestInit :=
  match new_Headers (nullish (headers cfg) []) with
  | None => inl BadHeaders
  | Some hs =>
      let init b h :=
        {| init_method := nullish (method cfg) "GET"%string;
           init_credentials := nullish (credentials cfg) "omit"%string;
           init_body := b;
           init_signal := match signal cfg with Given s => Some s | _ => None end;
           init_headers := h |} in
      match json cfg, form cfg with
      | Given JsonThrows, _ => inl BadJson
      | Given (JsonText text), _ =>
          inr (init (PJson text) (Headers_set hs "Content-Type" "application/json"))
      | _, Given f => inr (init (PForm f) hs)
      | _, _ => inr (init (PRaw (body cfg)) hs)
      end
  end.

(** Lines 51-89 of [Fetch.send]: [input] and [init], or what is thrown
    on the way.  [new URL] comes first. *)
Definition Fetch_request (pf : Parser) (dflt : Options) (url : string) (call : Options)
    : BuildError + FetchCall :=
  let cfg := Fetch_config dflt call in
  let base := match baseUrl cfg with Given b => Some b | _ => None end in
  if pf url base then
    match Fetch_init cfg with
    | inl e => inl e
    | inr i =>
        inr {| call_url := url;
               call_base := base;
               call_params := searchParams (query cfg);
               call_init := i |}
    end
  else inl BadURL.

(** ** FetchQueue.mjs: validity predicates and resets *)

(** [!!this.config.generate && this.config.connected] *)
Definition generateValid (w : World) : bool :=
  has_generate (config w) && connected (config w).

(** [createdAt = exp - delay; !!config.renew && createdAt < timestamp - 1000 * 60 * 15] *)
Definition renewValid (timestamp : Z) (w : World) : bool :=
  let createdAt := exp (accessStore w) - delay (accessStore w) in
  has_renew (config w) && (createdAt <? timestamp - 1000 * 60 * 15).

(** [!!config.refresh && refreshStore.exp > timestamp] *)
Definition refreshValid (timestamp : Z) (w : World) : bool :=
  has_refresh (config w) && (exp (refreshStore w) >? timestamp).

Definition resetAccess : M unit := modify (set_accessStore emptyStore).
Definition resetRefresh : M unit := modify (set_refreshStore emptyStore).

(** [if (this.accessStore.token)]: JavaScript truthiness of a string or
    [null]; the empty string is falsy. *)
Definition truthy (t : option string) : bool :=
  match t with
  | Some s => negb (String.eqb s "")
  | None => false
  end.

(** [{ ...obj, [k]: v }] for a key [k] that is not a number: the value of
    [k] is replaced where it stands, or the key is added at the end. *)
Definition set_key (k v : string) (obj : list (string * string)) : list (string * string) :=
  if existsb (λ kv, String.eqb kv.1 k) obj
  then (λ kv, if String.eqb kv.1 k then (k, v) else kv) <$> obj
  else obj ++ [(k, v)].

(** [obj[k]] *)
Fixpoint get_key (k : string) (obj : list (string * string)) : option string :=
  match obj with
  | [] => None
  | kv :: obj' => if String.eqb kv.1 k then Some kv.2 else get_key k obj'
  end.

(** ** The credential operations

    Each returns the promise the method returns.  [extra] is only handed
    on to the callback and is left out. *)

Definition generate : M nat :=
  c ← gets config;
  if negb (has_generate c) then new_promise (Fulfilled VUndef)
  else
    modify (set_pending SYNC) ;;
    p ← external (ObsStrategy Generate);
    c1 ← catch_ p HGenerateCatch;
    finally_ c1 Generate.

Definition renew : M nat :=
  c ← gets config;
  if negb (has_renew c) then new_promise (Fulfilled VUndef)
  else
    modify (set_pending ASYNC) ;;
    p ← external (ObsStrategy Renew);
    c1 ← catch_ p HRenewCatch;
    finally_ c1 Renew.

Definition refresh : M nat :=
  c ← gets config;
  if negb (has_refresh c) then new_promise (Fulfilled VUndef)
  else
    modify (set_pending SYNC) ;;
    p ← external (ObsStrategy Refresh);
    c1 ← catch_ p HRefreshCatch;
    finally_ c1 Refresh.

(** ** Admission, dispatch and the queue *)

Section WithRunQueue.
(** [isQueue] calls [runQueue], which calls [send], which calls
    [isQueue]: the knot is tied below, by fuel. *)
Variable runQueue : M unit.

(** The body of [async isQueue()]. *)
Definition isQueue_body : M bool :=
  pm ← gets pending;
  if bool_decide (pm = SYNC) then mret true else
  timestamp ← gets clock;
  a ← gets accessStore;
  if exp a >? timestamp then
    rv ← gets (renewValid timestamp);
    pm ← gets pending;
    when (rv && bool_decide (pm = NONE)) (ignore renew) ;;
    mret false
  else
  resetAccess ;;
  rf ← gets (refreshValid timestamp);
  if (rf : bool) then
    pm ← gets pending;
    when (bool_decide (pm = NONE)) (ignore refresh) ;;
    modify (set_pending SYNC) ;;
    mret true
  else
  resetRefresh ;;
  gv ← gets generateValid;
  if (gv : bool) then
    pm ← gets pending;
    when (bool_decide (pm = NONE)) (ignore generate) ;;
    modify (set_pending SYNC) ;;
    mret true
  else
  runQueue ;;
  mret false.

(** [isQueue] is an async function without [await]: its promise is
    fulfilled when it returns. *)
Definition isQueue_with : M nat :=
  iq ← new_promise (Pending []);
  b ← isQueue_body;
  resolve iq (VBool b) ;;
  mret iq.

(** [async send(url, options)] up to its [await]. *)
Definition send_with (url : string) (opts : nat) : M nat :=
  sp ← new_promise (Pending []);
  observe (ObsSend url opts sp) ;;
  iq ← isQueue_with;
  await iq (HSendResume url opts sp) (HSendThrow sp) ;;
  mret sp.
End WithRunQueue.

(** [runQueue]: [shift] the head, call its [promise()], chain [resolve]
    and [reject] on the result, and go on while the queue is not empty. *)
Fixpoint runQueue_fuel (fuel : nat) : M unit :=
  match fuel with
  | O => fail
  | S n =>
      q ← gets queue;
      match q with
      | [] => mret tt
      | h :: q' =>
          modify (set_queue q') ;;
          observe (ObsReplay h) ;;
          sp ← send_with (runQueue_fuel n) (q_url h) (q_options h);
          t ← then_ sp (HQueueResolve (q_promise h)) HThrower;
          _ ← catch_ t (HQueueReject (q_promise h));
          mret tt
      end ;;
      q ← gets queue;
      match q with
      | [] => mret tt
      | _ :: _ => runQueue_fuel n
      end
  end.

(** Every call removes an entry before it recurses, so one unit of fuel
    per entry, and one for the last call, is enough
    ([runQueue_fuel_drains] below). *)
Definition runQueue : M unit :=
  λ w, runQueue_fuel (S (length (queue w))) w.

Definition isQueue : M nat := isQueue_with runQueue.
Definition send : string → nat → M nat := send_with runQueue.

(** The object behind [this.options]; a reference to nothing is the
    [null] that the spread reads as [{}]. *)
Definition defaults (w : World) : Options :=
  default noOptions (objects w !! options w).

(** [Fetch.send], reached through [super.send(url, options)].  It is an
    async function: when building the request throws, the promise it
    returns is rejected with what was thrown and nothing else happens.
    Otherwise the promise [tp] stands for
    [fetch(input, init).then(handleResponse).catch(wrap)]: the
    environment settles it with an [HttpResponse] or an [HttpException]. *)
Definition Fetch_send (url : string) (opts : nat) : M nat :=
  fp ← new_promise (Pending []);
  os ← gets objects;
  match os !! opts with
  | None => fail
  | Some o =>
      pf ← gets parser;
      dflt ← gets defaults;
      match Fetch_request pf dflt url o with
      | inl e =>
          reject fp (VThrown e) ;;
          mret fp
      | inr r =>
          tp ← external (ObsFetch url opts r);
          cp ← catch_ tp (HFetchCatch url opts);
          resolve fp (VProm cp) ;;
          mret fp
      end
  end.

(** [send] after its [await]. *)
Definition send_resume (url : string) (opts sp : nat) (queued : bool) : M unit :=
  if queued then
    (* return new Promise((resolve, reject) => { this.#queue.push(...) }) *)
    np ← new_promise (Pending []);
    let h := mkQueued url opts np in
    modify (λ w, set_queue (queue w ++ [h]) w) ;;
    observe (ObsEnqueue h) ;;
    resolve sp (VProm np)
  else
    a ← gets accessStore;
    (if truthy (token a) then
       os ← gets objects;
       match os !! opts with
       | None => fail
       | Some o =>
           let hs := set_key "Authorization" ("Bearer " +:+ default ""%string (token a))
                       (nullish (headers o) []) in
           modify (set_objects (<[opts := with_headers (Given hs) o]> os))
       end
     else mret tt) ;;
    fp ← Fetch_send url opts;
    resolve sp (VProm fp).

(** [e.status === 401] *)
Definition is401 (e : value) : bool :=
  match e with
  | VErr s _ => s =? 401
  | _ => false
  end.

(** [async handleErrors(e, ctx)] of [FetchQueue]. *)
Definition handleErrors (e : value) (url : string) (opts : nat) : M nat :=
  hp ← new_promise (Pending []);
  retried ←
    (if is401 e then
       resetAccess ;;
       now ← gets clock;
       rf ← gets (refreshValid now);
       gv ← gets generateValid;
       if (rf : bool) || gv then
         sp ← send url opts;
         resolve hp (VProm sp) ;;
         mret true
       else mret false
     else mret false);
  if (retried : bool) then mret hp
  else
    c ← gets config;
    if has_handleErrors c then
      xp ← external (ObsHook e);
      await xp (HHookResume e hp) (HHookThrow hp) ;;
      mret hp
    else
      reject hp e ;;
      mret hp.

(** ** Running the closures *)

Inductive completion :=
| Normal (v : value)
| Abrupt (v : value).

(** [() => { this.pending = FetchQueue.NONE; this.runQueue(); }] *)
Definition finally_callback (op : Op) : M unit :=
  observe (ObsSettled op) ;;
  modify (set_pending NONE) ;;
  runQueue.

Definition run_handler (h : handler) (arg : value) : M completion :=
  match h with
  | HIdentity => mret (Normal arg)
  | HThrower => mret (Abrupt arg)
  | HResolveFn p => resolve p arg ;; mret (Normal VUndef)
  | HRejectFn p => reject p arg ;; mret (Normal VUndef)
  | HGenerateCatch =>
      modify (λ w, set_config
        (mkConfig false (has_generate (config w)) (has_renew (config w))
                  (has_refresh (config w)) (has_handleErrors (config w))) w) ;;
      mret (Abrupt arg)
  | HRenewCatch =>
      resetAccess ;;
      now ← gets clock;
      rf ← gets (refreshValid now);
      if (rf : bool) then p ← refresh; mret (Normal (VProm p))
      else
        resetRefresh ;;
        gv ← gets generateValid;
        if (gv : bool) then p ← generate; mret (Normal (VProm p))
        else mret (Abrupt arg)
  | HRefreshCatch =>
      resetRefresh ;;
      gv ← gets generateValid;
      if (gv : bool) then p ← generate; mret (Normal (VProm p))
      else mret (Abrupt arg)
  | HThenFinally op =>
      finally_callback op ;;
      r ← new_promise (Fulfilled VUndef);
      t ← then_ r (HValueThunk arg) HThrower;
      mret (Normal (VProm t))
  | HCatchFinally op =>
      finally_callback op ;;
      r ← new_promise (Fulfilled VUndef);
      t ← then_ r (HThrowThunk arg) HThrower;
      mret (Normal (VProm t))
  | HValueThunk v => mret (Normal v)
  | HThrowThunk v => mret (Abrupt v)
  | HSendResume url opts sp =>
      match arg with
      | VBool b => send_resume url opts sp b ;; mret (Normal VUndef)
      | _ => fail
      end
  | HSendThrow sp => reject sp arg ;; mret (Normal VUndef)
  | HFetchCatch url opts =>
      hp ← handleErrors arg url opts;
      mret (Normal (VProm hp))
  | HHookResume e hp => reject hp e ;; mret (Normal VUndef)
  | HHookThrow hp => reject hp arg ;; mret (Normal VUndef)
  | HQueueResolve np => resolve np arg ;; mret (Normal VUndef)
  | HQueueReject np => reject np arg ;; mret (Normal VUndef)
  end.

(** One microtask. *)
Definition run_job (j : job) : M unit :=
  match j with
  | JReaction h cap arg =>
      c ← run_handler h arg;
      match cap, c with
      | None, _ => mret tt
      | Some d, Normal v => resolve d v
      | Some d, Abrupt v => reject d v
      end
  | JThenable p q =>
      (* q.then(resolve_p, reject_p) *)
      _ ← then_ q (HResolveFn p) (HRejectFn p);
      mret tt
  end.

(** The microtask checkpoint: run jobs, oldest first, until none is left. *)
Fixpoint drain (fuel : nat) : M unit :=
  match fuel with
  | O => λ w, match microtasks w with [] => Some (tt, w) | _ => None end
  | S n =>
      js ← gets microtasks;
      match js with
      | [] => mret tt
      | j :: js' =>
          modify (set_microtasks js') ;;
          run_job j ;;
          drain n
      end
  end.

(** ** The environment *)

Inductive event :=
| EClock (t : Z)                       (* time passes *)
| ENewOptions (o : Options)            (* the caller builds an options object *)
| ESend (url : string) (opts : nat)    (* the caller calls [send(url, options)] *)
| ECall (op : Op)                      (* the embedder calls [generate()], [renew()] or [refresh()] *)
| ESetAccess (s : Store)               (* a strategy writes [accessStore] *)
| ESetRefresh (s : Store)              (* a strategy writes [refreshStore] *)
| ESetConnected (b : bool)             (* the embedder writes [config.connected] *)
| EResolve (p : nat) (v : value)       (* external promise [p] is fulfilled *)
| EReject (p : nat) (v : value).       (* external promise [p] is rejected *)

Definition is_external (p : nat) (w : World) : bool :=
  existsb (λ o, match o with
                | ObsStrategy _ q | ObsFetch _ _ _ q | ObsHook _ q => Nat.eqb p q
                | _ => false
                end) (trace w).

Definition is_pending (p : nat) (w : World) : bool :=
  match promises w !! p with
  | Some (Pending _) => true
  | _ => false
  end.

(** A macrotask. *)
Definition step (e : event) : M unit :=
  match e with
  | EClock t => modify (set_clock t)
  | ENewOptions o => modify (λ w, set_objects (objects w ++ [o]) w)
  | ESend url opts => _ ← send url opts; mret tt
  | ECall Generate => _ ← generate; mret tt
  | ECall Renew => _ ← renew; mret tt
  | ECall Refresh => _ ← refresh; mret tt
  | ESetAccess s => modify (set_accessStore s)
  | ESetRefresh s => modify (set_refreshStore s)
  | ESetConnected b =>
      modify (λ w, set_config
        (mkConfig b (has_generate (config w)) (has_renew (config w))
                  (has_refresh (config w)) (has_handleErrors (config w))) w)
  | EResolve p v =>
      ext ← gets (is_external p);
      pen ← gets (is_pending p);
      if ext && pen then fulfil p v else fail
  | EReject p v =>
      ext ← gets (is_external p);
      pen ← gets (is_pending p);
      if ext && pen then reject p v else fail
  end.

(** A run: each macrotask is followed by a microtask checkpoint. *)
Fixpoint run (fuel : nat) (es : list event) : M unit :=
  match es with
  | [] => mret tt
  | e :: es' => step e ;; drain fuel ;; run fuel es'
  end.

(** A fresh instance: [new FetchQueue(options, config)] on a platform
    whose URL parser is [pf].  The object [o] given as [options] is the
    first of the heap: [this.options] refers to it, and so may the
    caller. *)
Definition init (pf : Parser) (o : Options) (c : Config) : World :=
  {| options := 0; config := c; queue := []; pending := NONE;
     accessStore := emptyStore; refreshStore := emptyStore;
     parser := pf; objects := [o]; promises := []; microtasks := [];
     clock := 0; trace := [] |}.

Definition exec (fuel : nat) (es : list event) (w : World) : option World :=
  snd <$> run fuel es w.

(** ** Vocabulary of the statements *)

(** The world after a configured operation has been started: the mode is
    set, the callback has been called (it returned promise [n]) and the
    chain [.catch(h).finally(cb)] hangs off it. *)
Definition started (op : Op) (mode : PendingMode) (h : handler) (w : World) : World :=
  let n := length (promises w) in
  set_trace (trace w ++ [ObsStrategy op n])
    (set_promises
       (promises w ++
          [Pending [mkReaction HIdentity h (Some (S n))];
           Pending [mkReaction (HThenFinally op) (HCatchFinally op) (Some (S (S n)))];
           Pending []])
       (set_pending mode w)).

(** The promises that the calls of [config.<op>] returned, in order. *)
Definition strategy_calls (op : Op) (t : list obs) : list nat :=
  omap (λ o, match o with
             | ObsStrategy op' p => if bool_decide (op' = op) then Some p else None
             | _ => None
             end) t.

(** How many times [config.<op>] has been called. *)
Definition calls (op : Op) (w : World) : nat :=
  length (strategy_calls op (trace w)).

(** The operations in flight: the promises returned by the strategy
    callbacks that the environment has not settled yet. *)
Definition in_flight (w : World) : list (Op * nat) :=
  omap (λ o, match o with
             | ObsStrategy op p => if is_pending p w then Some (op, p) else None
             | _ => None
             end) (trace w).

(** The queued calls in the order [runQueue] replayed them. *)
Definition replays (t : list obs) : list QueuedCall :=
  omap (λ o, match o with ObsReplay h => Some h | _ => None end) t.

(** The requests in the order they reached [fetch]. *)
Definition fetches (t : list obs) : list (string * nat * FetchCall) :=
  omap (λ o, match o with ObsFetch u r q _ => Some (u, r, q) | _ => None end) t.

(** The headers of a request that reached [fetch]. *)
Definition sent_headers (x : string * nat * FetchCall) : Headers :=
  init_headers (call_init x.2).

(** How many times a [finally] callback reset [pending] and drained. *)
Definition settlements (t : list obs) : list Op :=
  omap (λ o, match o with ObsSettled op => Some op | _ => None end) t.

Definition no_strategy (c : Config) : Prop :=
  has_generate c = false ∧ has_renew c = false ∧ has_refresh c = false.

(** Worlds an instance can be in: between two macrotasks of some run. *)
Definition reachable (pf : Parser) (o : Options) (c : Config) (w : World) : Prop :=
  ∃ fuel es, exec fuel es (init pf o c) = Some w.

(** [runQueue] chained [resolve] and [reject] of the entry [h] on the
    promise [sp] that its replay returned. *)
Definition attached (h : QueuedCall) (w : World) : Prop :=
  ∃ sp t d t1 t2,
    trace w = t1 ++ ObsReplay h :: ObsSend (q_url h) (q_options h) sp :: t2
    ∧ promises w !! sp =
        Some (Pending [mkReaction (HQueueResolve (q_promise h)) HThrower (Some t)])
    ∧ promises w !! t =
        Some (Pending [mkReaction HIdentity (HQueueReject (q_promise h)) (Some d)]).

(** What the synchronous part of the program may do to the world: it
    allocates promises but leaves the existing ones as they are, adds
    microtasks and observations at the end, changes a store only to
    reset it, and takes entries off the
    front of the queue, replaying them in that order and chaining the
    callers' continuations on the replays. *)
Record sync (w w' : World) : Prop := mkSync {
  sync_options : options w' = options w;
  sync_config : config w' = config w;
  sync_parser : parser w' = parser w;
  sync_objects : objects w' = objects w;
  sync_clock : clock w' = clock w;
  sync_access : accessStore w' = accessStore w ∨ accessStore w' = emptyStore;
  sync_refresh : refreshStore w' = refreshStore w ∨ refreshStore w' = emptyStore;
  sync_promises : promises w `prefix_of` promises w';
  sync_microtasks : microtasks w `prefix_of` microtasks w';
  sync_trace : trace w `prefix_of` trace w';
  sync_queue : ∃ done, queue w = done ++ queue w'
                 ∧ replays (trace w') = replays (trace w) ++ done
                 ∧ Forall (λ h, attached h w') done;
}.

(** [rq] drains every queue shorter than [n]. *)
Definition drains (rq : M unit) (n : nat) : Prop :=
  ∀ w, (length (queue w) < n)%nat →
    ∃ w', rq w = Some (tt, w') ∧ sync w w' ∧ queue w' = [].

(** The world when [send] has created its promise and that of [isQueue],
    before the body of [isQueue] runs. *)
Definition entered (url : string) (opts : nat) (w : World) : World :=
  set_promises (promises w ++ [Pending []; Pending []])
    (set_trace (trace w ++ [ObsSend url opts (length (promises w))]) w).

(** The world when [send] reaches its [await]: the promise of [isQueue]
    is fulfilled with [b] and the continuation of [send] is a microtask. *)
Definition resumed (url : string) (opts sp : nat) (b : bool) (w : World) : World :=
  set_microtasks (microtasks w ++ [JReaction (HSendResume url opts sp) None (VBool b)])
    (set_promises (<[S sp := Fulfilled (VBool b)]> (promises w)) w).

(** The world after [.then(resolve).catch(reject)] was chained on [sp]. *)
Definition chained (h : QueuedCall) (sp : nat) (w : World) : World :=
  let n := length (promises w) in
  set_promises
    (<[sp := Pending [mkReaction (HQueueResolve (q_promise h)) HThrower (Some n)]]>
       (promises w)
     ++ [Pending [mkReaction HIdentity (HQueueReject (q_promise h)) (Some (S n))];
         Pending []]) w.

(** The options object that [send] hands to [super.send]: the caller's
    object, with the bearer header when there is a token. *)
Definition authorised (a : Store) (o : Options) : Options :=
  if truthy (token a)
  then with_headers
         (Given (set_key "Authorization" ("Bearer " +:+ default ""%string (token a))
                   (nullish (headers o) []))) o
  else o.

(** The world in which [opts] refers to [o]. *)
Definition written (opts : nat) (o : Options) (w : World) : World :=
  set_objects (<[opts := o]> (objects w)) w.

(** What [Fetch.send(url, options)] builds, or throws, when [options]
    refers to [o]: the defaults are read from the heap that holds [o],
    so they are [o] itself when the call was given [this.options]. *)
Definition built (url : string) (opts : nat) (o : Options) (w : World)
    : BuildError + FetchCall :=
  Fetch_request (parser w) (defaults (written opts o w)) url o.

(** The world after [Fetch.send(url, options)] called [fetch] with the
    request [r] and returned. *)
Definition fetched (url : string) (opts : nat) (r : FetchCall) (w : World) : World :=
  let n := length (promises w) in
  set_microtasks (microtasks w ++ [JThenable n (S (S n))])
    (set_promises
       (promises w ++
          [Pending [];
           Pending [mkReaction HIdentity (HFetchCatch url opts) (Some (S (S n)))];
           Pending []])
       (set_trace (trace w ++ [ObsFetch url opts r (S n)]) w)).

(** The world after [Fetch.send(url, options)] threw [e] while it built
    the request: the promise it returns is rejected with [e]. *)
Definition thrown (e : BuildError) (w : World) : World :=
  set_promises (promises w ++ [Rejected (VThrown e)]) w.

(** The world after a call was let through. *)
Definition dispatched (url : string) (opts sp : nat) (o : Options) (w : World) : World :=
  let o' := authorised (accessStore w) o in
  let w0 := written opts o' w in
  let w1 := match built url opts o' w with
            | inr r => fetched url opts r w0
            | inl e => thrown e w0
            end in
  set_microtasks (microtasks w1 ++ [JThenable sp (length (promises w))]) w1.

(** The requests that a call let through adds to those that reached
    [fetch]: one, or none when the request cannot be built. *)
Definition request_of (x : BuildError + FetchCall) (url : string) (opts : nat)
    : list (string * nat * FetchCall) :=
  match x with
  | inr r => [(url, opts, r)]
  | inl _ => []
  end.

(** The world after a call was put in the queue. *)
Definition enqueued (url : string) (opts sp : nat) (w : World) : World :=
  let h := mkQueued url opts (length (promises w)) in
  set_microtasks (microtasks w ++ [JThenable sp (length (promises w))])
    (set_trace (trace w ++ [ObsEnqueue h])
       (set_queue (queue w ++ [h])
          (set_promises (promises w ++ [Pending []]) w))).

(** No strategy is configured and no operation owns admission. *)
Definition idle (w : World) : Prop :=
  no_strategy (config w) ∧ pending w = NONE.

(** [m] keeps the world idle, whenever it returns. *)
Definition keeps {A} (m : M A) : Prop :=
  ∀ w a w', idle w → m w = Some (a, w') → idle w'.

(** The world after [config.connected = false]. *)
Definition disconnected (w : World) : World :=
  set_config (mkConfig false (has_generate (config w)) (has_renew (config w))
                (has_refresh (config w)) (has_handleErrors (config w))) w.

(** The world in which [handleErrors] decides: its promise exists, and
    the access store was reset if the status is 401. *)
Definition caught (e : value) (w : World) : World :=
  let w0 := set_promises (promises w ++ [Pending []]) w in
  if is401 e then set_accessStore emptyStore w0 else w0.

(** [handleErrors] retries: its promise adopts the one of the new [send]. *)
Definition retried (url : string) (opts : nat) (b : bool) (hp : nat) (w2 : World) : World :=
  let w3 := resumed url opts (S hp) b w2 in
  set_microtasks (microtasks w3 ++ [JThenable hp (S hp)]) w3.

(** [handleErrors] gives up: the hook, if any, is called and awaited;
    without a hook the promise is rejected with [e] at once. *)
Definition surfaced (e : value) (hp : nat) (w1 : World) : World :=
  if has_handleErrors (config w1)
  then set_promises
         (<[hp := Pending []]> (promises w1)
            ++ [Pending [mkReaction (HHookResume e hp) (HHookThrow hp) None]])
         (set_trace (trace w1 ++ [ObsHook e (S hp)]) w1)
  else set_promises (<[hp := Rejected e]> (promises w1)) w1.

(** What a promise holds. *)
Definition outcome (p : nat) (w : World) : option pstate := promises w !! p.

(** The world once a call that has to wait is parked: its continuation
    ran, the entry is in the queue and the caller's promise follows the
    promise of the entry. *)
Definition parked (url : string) (opts : nat) (w2 : World) (sp : nat) : World :=
  let np := length (promises w2) in
  let h := mkQueued url opts np in
  set_microtasks []
    (set_trace (trace w2 ++ [ObsEnqueue h])
       (set_queue (queue w2 ++ [h])
          (set_promises
             (<[S sp := Fulfilled (VBool true)]> (promises w2)
                ++ [Pending [mkReaction (HResolveFn sp) (HRejectFn sp) (Some (S np))];
                    Pending []]) w2))).

(** An instance on which a blocking operation is running and that has no
    microtask left. *)
Definition blocked (w : World) : Prop :=
  pending w = SYNC ∧ microtasks w = [].

(** The calls waiting in the queue, as the callers made them. *)
Definition waiting (w : World) : list (string * nat) :=
  (λ h, (q_url h, q_options h)) <$> queue w.

Definition send_all (cs : list (string * nat)) : list event :=
  (λ c, ESend c.1 c.2) <$> cs.

(** What the reactions that [runQueue] chains on the replay of an entry
    do when their jobs run, in any world.  [np] is the promise of the
    entry, whose [resolve] and [reject] the entry holds; [t] and [d] are
    the promises that [.then] and [.catch] derived.  When the replay is
    fulfilled with [v], the job of [(response) => handler.resolve(response)]
    fulfils [np] with [v].  When it is rejected with [e], the job of the
    missing [onRejected] passes [e] on to [t] and schedules
    [(error) => handler.reject(error)], whose job rejects [np] with [e]. *)
Definition settles_caller (np t d : nat) : Prop :=
  (∀ v x rs rt, (∀ p, v ≠ VProm p) → np ≠ t →
     promises x !! np = Some (Pending rs) → promises x !! t = Some (Pending rt) →
     ∃ x', run_job (JReaction (HQueueResolve np) (Some t) v) x = Some (tt, x')
       ∧ outcome np x' = Some (Fulfilled v)
       ∧ microtasks x' =
           microtasks x ++ map (λ r, JReaction (r_fulfil r) (r_cap r) v) rs
             ++ map (λ r, JReaction (r_fulfil r) (r_cap r) VUndef) rt)
  ∧ (∀ e x,
       promises x !! t = Some (Pending [mkReaction HIdentity (HQueueReject np) (Some d)]) →
       ∃ x', run_job (JReaction HThrower (Some t) e) x = Some (tt, x')
         ∧ outcome t x' = Some (Rejected e)
         ∧ microtasks x' = microtasks x ++ [JReaction (HQueueReject np) (Some d) e])
  ∧ (∀ e x rs rd, np ≠ d →
       promises x !! np = Some (Pending rs) → promises x !! d = Some (Pending rd) →
       ∃ x', run_job (JReaction (HQueueReject np) (Some d) e) x = Some (tt, x')
         ∧ outcome np x' = Some (Rejected e)
         ∧ microtasks x' =
             microtasks x ++ map (λ r, JReaction (r_reject r) (r_cap r) e) rs
               ++ map (λ r, JReaction (r_fulfil r) (r_cap r) VUndef) rd).

(** A value that is not a promise: what a promise can be fulfilled with. *)
Definition plain_value (v : value) : Prop := ∀ p, v ≠ VProm p.

(** The entries of the object [obj] whose key is [name] in some case, and
    what [Headers] makes of them: their values, normalised and joined in
    the order of the keys. *)
Definition same_name (name : string) (obj : list (string * string)) : list string :=
  (λ kv, normalize kv.2) <$> filter (λ kv, lower kv.1 = lower name) obj.

Definition joined (vs : list string) : option string :=
  match vs with
  | [] => None
  | v :: vs' => Some (foldl (λ acc v', acc +:+ ", " +:+ v')%string v vs')
  end.

(** What a fold of [append] makes of the values it adds to [v0]. *)
Definition appended (v0 : option string) (vs : list string) : option string :=
  match v0 with
  | Some v => Some (foldl (λ acc v', acc +:+ ", " +:+ v')%string v vs)
  | None => joined vs
  end.

(** Every entry of the object is a valid header. *)
Definition valid_headers (obj : list (string * string)) : bool :=
  forallb (λ kv, header_name kv.1 && header_value (normalize kv.2)) obj.

(** ** Scenarios

    Runs of a fresh instance.  A callback or a [fetch] is named by the
    promise it returned, which the trace of the run shows.  The defaults
    are the first object of the heap, so the first object that a caller
    builds is object 1. *)

(** The platform of the scenarios: a page of a browser.  Of its parser
    the scenarios only need that a path made of a slash and of letters
    or digits parses against the origin of the page; it refuses
    everything else. *)
Definition page : Parser := λ url base,
  match base, url with
  | None, String slash path =>
      Ascii.eqb slash (Ascii.Ascii true true true true false true false false)
      && forallb (λ a, existsb (Ascii.eqb a)
                         (String.list_ascii_of_string
                            "0123456789ABCDEFGHIJKLMNOPQRSTUVWXYZabcdefghijklmnopqrstuvwxyz"))
           (String.list_ascii_of_string path)
  | _, _ => false
  end.

Definition cfg_all := mkConfig true true true true false.   (* generate, renew, refresh *)
Definition cfg_rr := mkConfig false false true true false.  (* renew, refresh *)
Definition cfg_ref := mkConfig false false false true false. (* refresh *)
Definition cfg_gen := mkConfig true true false false false. (* generate, connected *)
Definition cfg_none := mkConfig false false false false false.

(** The object [{ headers: { Authorization: "Bearer <t>" } }]. *)
Definition bearer (t : string) : Options :=
  with_headers (Given [("Authorization"%string, ("Bearer " +:+ t)%string)]) noOptions.

(** What a caller of [patch(url, data, options)] may pass:
    [{ method: "PATCH", json: data, headers: { "Content-Type": ... } }]. *)
Definition patch_options : Options :=
  {| baseUrl := Absent; method := Given "PATCH"%string; signal := Absent;
     credentials := Absent;
     headers := Given [("Content-Type"%string, "application/merge-patch+json"%string)];
     query := Absent; body := Absent; form := Absent;
     json := Given (JsonText "{}"); extra := Absent |}.

(** [{ headers: { authorization: "Basic abc" } }]: the name of the header
    in lower case. *)
Definition basic_options : Options :=
  with_headers (Given [("authorization"%string, "Basic abc"%string)]) noOptions.

(** [{ headers: { "content-type": "text/csv" }, json: {} }] *)
Definition csv_options : Options :=
  with_json (Given (JsonText "{}"))
    (with_headers (Given [("content-type"%string, "text/csv"%string)]) noOptions).

(** [{ baseUrl: "nope" }]: a base that is not a URL. *)
Definition nope_options : Options :=
  {| baseUrl := Given "nope"%string; method := Absent; signal := Absent;
     credentials := Absent; headers := Absent; query := Absent; body := Absent;
     form := Absent; json := Absent; extra := Absent |}.

(** Renew and refresh are configured; the access token is valid but was
    issued more than 15 minutes ago; a first call starts the background
    renew. *)
Definition renewing_events : list event :=
  [ ENewOptions noOptions;
    ESetAccess (mkStore (Some "tok") 3600000 5000000);
    ESetRefresh (mkStore (Some "ref") 0 9000000);
    EClock 4000000;
    ESend "/a" 1%nat ].

Definition renewing : World :=
  Eval vm_compute in
    default (init page noOptions cfg_rr) (exec 50 renewing_events (init page noOptions cfg_rr)).

(** The same instance before the first call. *)
Definition renewable : World :=
  Eval vm_compute in
    default (init page noOptions cfg_rr)
      (exec 50 (take 4 renewing_events) (init page noOptions cfg_rr)).

(** No strategy; the embedder stored a token that is still valid. *)
Definition bare_events : list event :=
  [ ENewOptions noOptions;
    ESetAccess (mkStore (Some "tok") 3600000 5000000);
    EClock 4000000 ].

Definition bare : World :=
  Eval vm_compute in
    default (init page noOptions cfg_none) (exec 50 bare_events (init page noOptions cfg_none)).

(** The embedder calls [renew()]; the refresh token is valid and
    [generate] is connected; the three callbacks fail in turn. *)
Definition all_fail (e1 e2 e3 : value) : list event :=
  [ ESetRefresh (mkStore (Some "ref") 0 9000000);
    EClock 4000000;
    ECall Renew;
    EReject 0%nat e1;
    EReject 3%nat e2;
    EReject 7%nat e3 ].

(** Refresh is the only strategy; the server answers 401 whatever the token. *)
Definition always_401 : list event :=
  [ ENewOptions noOptions;
    ESetAccess (mkStore (Some "t1") 3600000 5000000);
    ESetRefresh (mkStore (Some "r") 0 9000000);
    EClock 4000000;
    ESend "/a" 1%nat;
    EReject 3%nat (VErr 401 "no");
    ESetAccess (mkStore (Some "t2") 3600000 5000000);
    EResolve 10%nat VUndef;
    EReject 24%nat (VErr 401 "no");
    ESetAccess (mkStore (Some "t3") 3600000 5000000);
    EResolve 32%nat VUndef ].

Definition after_second_401 : World :=
  Eval vm_compute in
    default (init page noOptions cfg_ref) (exec 50 (take 9 always_401) (init page noOptions cfg_ref)).

(** [generate] is the only strategy; three calls arrive while it runs. *)
Definition burst_events : list event :=
  [ ENewOptions noOptions;
    EClock 4000000;
    ESend "/a" 1%nat;
    ESend "/b" 1%nat;
    ESend "/c" 1%nat ].

(** One call; the refresh fails and [generate], tried next, resolves
    without having stored a token. *)
Definition overlapping_events : list event :=
  [ ENewOptions noOptions;
    EClock 1000;
    ESetRefresh (mkStore (Some "ref") 0 5000);
    ESend "/a" 1%nat;
    EReject 2%nat (VErr 500 "down");
    EResolve 7%nat VUndef ].

(** One call starts the background renew; the renew fails, the refresh
    that follows succeeds and stores a fresh token. *)
Definition renew_refresh_events : list event :=
  [ ENewOptions noOptions;
    ESetAccess (mkStore (Some "tok") 3600000 5000000);
    ESetRefresh (mkStore (Some "ref") 0 9000000);
    EClock 4000000;
    ESend "/a" 1%nat;
    EReject 2%nat (VErr 500 "down");
    ESetAccess (mkStore (Some "new") 3600000 7600000);
    EResolve 10%nat VUndef ].

(** [generate] is the only strategy.  The call is answered 401 and
    retried; the generate it waits for fails. *)
Definition stale_events : list event :=
  [ ENewOptions noOptions;
    ESetAccess (mkStore (Some "tok") 3600000 5000000);
    EClock 4000000;
    ESend "/a" 1%nat;
    EReject 3%nat (VErr 401 "no");
    EReject 10%nat (VErr 500 "down") ].

Definition stale : World :=
  Eval vm_compute in
    default (init page noOptions cfg_gen) (exec 50 stale_events (init page noOptions cfg_gen)).

(** Three calls wait for [generate]; it stores a token and resolves, and
    the three requests are answered in the reverse order, the first of
    them with an error. *)
Definition answered_events : list event :=
  burst_events
    ++ [ ESetAccess (mkStore (Some "tok") 3600000 7600000);
         EResolve 2%nat VUndef;
         EResolve 36%nat (VResp 200 "c");
         EResolve 33%nat (VResp 200 "b");
         EReject 30%nat (VErr 404 "a") ].

(** ** Fetch.mjs: the helpers and the inherited [handleErrors] *)

(** [options.key = value]: a write into the caller's object. *)
Definition assign (opts : nat) (f : Options → Options) : M unit :=
  os ← gets objects;
  match os !! opts with
  | None => fail
  | Some o => modify (set_objects (<[opts := f o]> os))
  end.

(** [data = null] is the default of the parameter of a helper. *)
Definition nullable {A} (data : option A) : field A :=
  match data with
  | Some a => Given a
  | None => Null
  end.

(** The helpers on a [FetchQueue]: two assignments, then [this.send],
    which is the [send] of [FetchQueue]. *)
Definition Fetch_get (url : string) (data : option (list (string * QueryValue)))
    (opts : nat) : M nat :=
  assign opts (with_method "GET") ;;
  assign opts (with_query (nullable data)) ;;
  send url opts.

Definition Fetch_delete (url : string) (data : option (list (string * QueryValue)))
    (opts : nat) : M nat :=
  assign opts (with_method "DELETE") ;;
  assign opts (with_query (nullable data)) ;;
  send url opts.

Definition Fetch_post (url : string) (data : option Json) (opts : nat) : M nat :=
  assign opts (with_method "POST") ;;
  assign opts (with_json (nullable data)) ;;
  send url opts.

Definition Fetch_put (url : string) (data : option Json) (opts : nat) : M nat :=
  assign opts (with_method "PUT") ;;
  assign opts (with_json (nullable data)) ;;
  send url opts.

Definition Fetch_patch (url : string) (data : option Json) (opts : nat) : M nat :=
  assign opts (with_method "PATCH") ;;
  assign opts (with_json (nullable data)) ;;
  send url opts.

Definition Fetch_form (url : string) (data : option (list (string * string)))
    (opts : nat) : M nat :=
  assign opts (with_method "POST") ;;
  assign opts (with_form (nullable data)) ;;
  send url opts.

(** [async handleErrors(e, ctx)] of [Fetch], which [FetchQueue]
    overrides: the hook, if any, is awaited, then [e] is thrown. *)
Definition Fetch_handleErrors (e : value) : M nat :=
  hp ← new_promise (Pending []);
  c ← gets config;
  if has_handleErrors c then
    xp ← external (ObsHook e);
    await xp (HHookResume e hp) (HHookThrow hp) ;;
    mret hp
  else
    reject hp e ;;
    mret hp.

(** The calls of [config.handleErrors]. *)
Definition hook_calls (t : list obs) : list (value * nat) :=
  omap (λ o, match o with ObsHook e p => Some (e, p) | _ => None end) t.

(** ** Invariants *)

(** [m] preserves the invariant [P], whenever it returns. *)
Definition preserves (P : World → Prop) {A} (m : M A) : Prop :=
  ∀ w a w', P w → m w = Some (a, w') → P w'.

(** The calls in the order they were put in the queue. *)
Definition enqueues (t : list obs) : list QueuedCall :=
  omap (λ o, match o with ObsEnqueue h => Some h | _ => None end) t.

(** Every call that was ever queued has been replayed, once and in
    order, or is still waiting. *)
Definition conserved (w : World) : Prop :=
  enqueues (trace w) = replays (trace w) ++ queue w.

(** Observations that are neither a queue operation nor a call of
    [config.generate]. *)
Definition plain (o : obs) : bool :=
  match o with
  | ObsEnqueue _ | ObsReplay _ | ObsStrategy Generate _ => false
  | _ => true
  end.

(** What the environment may do in a run: whether the embedder may call
    [generate()] itself, and whether it may set [config.connected] to
    true. *)
Definition permitted (call_generate connect : bool) (e : event) : bool :=
  match e with
  | ECall Generate => call_generate
  | ESetConnected b => connect || negb b
  | _ => true
  end.

(** Nothing is left to try: both stores are empty and [generate] is not
    possible.  [m] is the mode and [t] the calls of the strategies. *)
Definition spent (m : PendingMode) (t : Op → list nat) (w : World) : Prop :=
  accessStore w = emptyStore ∧ refreshStore w = emptyStore
  ∧ generateValid w = false ∧ pending w = m
  ∧ ∀ op, strategy_calls op (trace w) = t op.

(** What [send] has not done when it returns: the requests sent, the
    calls of the hook and the options objects are [f], [h] and [os]. *)
Definition untouched (f : list (string * nat * FetchCall)) (h : list (value * nat))
    (os : list Options) (w : World) : Prop :=
  fetches (trace w) = f ∧ hook_calls (trace w) = h ∧ objects w = os.

(** ** Fetch.mjs: the helpers on a plain [Fetch]

    Each helper writes two keys of the options object it was given and
    calls [send]. *)

(** A call of a helper. *)
Inductive Helper :=
| CallGet (data : option (list (string * QueryValue)))
| CallDelete (data : option (list (string * QueryValue)))
| CallPost (data : option Json)
| CallPut (data : option Json)
| CallPatch (data : option Json)
| CallForm (data : option (list (string * string))).

Definition helper_method (h : Helper) : string :=
  match h with
  | CallGet _ => "GET"
  | CallDelete _ => "DELETE"
  | CallPost _ => "POST"
  | CallPut _ => "PUT"
  | CallPatch _ => "PATCH"
  | CallForm _ => "POST"
  end.

(** [options.method = "GET"; options.query = data;] and so on. *)
Definition helper_assigns (h : Helper) (o : Options) : Options :=
  match h with
  | CallGet data => with_query (nullable data) (with_method "GET" o)
  | CallDelete data => with_query (nullable data) (with_method "DELETE" o)
  | CallPost data => with_json (nullable data) (with_method "POST" o)
  | CallPut data => with_json (nullable data) (with_method "PUT" o)
  | CallPatch data => with_json (nullable data) (with_method "PATCH" o)
  | CallForm data => with_form (nullable data) (with_method "POST" o)
  end.

(** The request a helper makes on a plain [Fetch] instance. *)
Definition helper_request (pf : Parser) (dflt : Options) (url : string) (h : Helper)
    (o : Options) : BuildError + FetchCall :=
  Fetch_request pf dflt url (helper_assigns h o).

(** How many parameters a key of [query] gives. *)
Definition query_arity (v : QueryValue) : nat :=
  match v with
  | QArray vs => length vs
  | QNull => 0
  | QScalar _ => 1
  end.

(** ** Fetch.mjs: from the response to the outcome of the call *)

(** The three readers of a [Response] that [parseBody] uses. *)
Inductive Reader := ReadJson | ReadBlob | ReadText.

(** A [Response], as far as [Fetch] looks into it.  [resp_read k] is what
    the reader [k] resolves with, [None] when its promise is rejected
    (a body that is not JSON, a stream that fails). *)
Record Response := mkResponse {
  resp_ok : bool;
  resp_status : Z;
  resp_body : bool;                       (* [response.body] is not [null] *)
  resp_type : option string;              (* [response.headers.get("Content-Type")] *)
  resp_read : Reader → option string;
}.

(** [s] begins with [p]. *)
Fixpoint starts_with (p s : string) : bool :=
  match p, s with
  | EmptyString, _ => true
  | String a p', String b s' => Ascii.eqb a b && starts_with p' s'
  | String _ _, EmptyString => false
  end.

(** [type.match(/.*lit.*/g)] is not [null]: the literal [lit] occurs
    somewhere in [type]. *)
Fixpoint matches (lit s : string) : bool :=
  starts_with lit s
  || match s with
     | EmptyString => false
     | String _ s' => matches lit s'
     end.

(** The reader that [parseBody] picks from the content type. *)
Definition reader_of (type : option string) : Reader :=
  if truthy type then
    let t := default ""%string type in
    if matches "application/json" t then ReadJson
    else if matches "application/pdf" t then ReadBlob
    else if matches "image/" t then ReadBlob
    else ReadText
  else ReadText.

(** A parsed body: [null], or what a reader gave. *)
Inductive ParsedBody :=
| NoBody
| Parsed (k : Reader) (payload : string).

(** [static async parseBody(response)]; [None] when the promise is rejected. *)
Definition parseBody (r : Response) : option ParsedBody :=
  if negb (resp_body r) then Some NoBody
  else
    let k := reader_of (resp_type r) in
    Parsed k <$> resp_read r k.

(** What is thrown on the way: an [HttpException], or an error of the
    platform ([TypeError], [SyntaxError], [AbortError]). *)
Inductive ErrorData :=
| DataBody (b : ParsedBody)                (* [data: body] *)
| DataTransport (status : Z) (error : string).   (* [data: { status, error }] *)

Inductive Thrown :=
| HttpException (status : Z) (data : ErrorData)
| PlatformError.

Inductive FetchResult :=
| Returned (status : Z) (b : ParsedBody)   (* the [HttpResponse] *)
| Threw (t : Thrown).

(** [static async handleResponse(response)] *)
Definition handleResponse (r : Response) : FetchResult :=
  match parseBody r with
  | None => Threw PlatformError
  | Some b =>
      if resp_ok r then Returned (resp_status r) b
      else Threw (HttpException (resp_status r) (DataBody b))
  end.

(** The first [.catch] of [Fetch.send].  [onLine] is [navigator?.onLine],
    in an environment that declares [navigator]. *)
Definition wrap (onLine : bool) (t : Thrown) : Thrown :=
  match t with
  | HttpException _ _ => t
  | PlatformError =>
      HttpException 500 (DataTransport 500 (if onLine then "fetch" else "offline"))
  end.

(** [fetch(input, init).then(handleResponse).catch(wrap)]: [arrived] is
    the response, [None] when [fetch] itself was rejected. *)
Definition transport (onLine : bool) (arrived : option Response) : FetchResult :=
  match arrived with
  | None => Threw (wrap onLine PlatformError)
  | Some r =>
      match handleResponse r with
      | Returned s b => Returned s b
      | Threw t => Threw (wrap onLine t)
      end
  end.

(** [lit] occurs in [s]. *)
Definition occurs (lit s : string) : Prop :=
  ∃ pre suf, s = (pre +:+ lit +:+ suf)%string.

(** ** More scenarios *)

(** [generate] is the only strategy and three calls wait for it. *)
Definition crowded : World :=
  Eval vm_compute in
    default (init page noOptions cfg_gen) (exec 50 burst_events (init page noOptions cfg_gen)).

(** The three strategies are configured and [connected] is false. *)
Definition cfg_off := mkConfig false true true true false.

(** One call; the refresh it starts fails. *)
Definition offline_events : list event :=
  [ ENewOptions noOptions;
    ESetRefresh (mkStore (Some "ref") 0 9000000);
    EClock 4000000;
    ESend "/a" 1%nat;
    EReject 2%nat (VErr 500 "down") ].

(** No strategy, a hook, and a token stored by the embedder. *)
Definition cfg_hook := mkConfig false false false false true.

Definition hooked : World :=
  Eval vm_compute in
    default (init page noOptions cfg_hook) (exec 50 bare_events (init page noOptions cfg_hook)).

(** [generate] is the only strategy and no token is stored. *)
Definition unsigned : World :=
  Eval vm_compute in
    default (init page noOptions cfg_gen)
      (exec 50 [ENewOptions noOptions; EClock 4000000] (init page noOptions cfg_gen)).

(** Refresh is the only strategy; the refresh token is valid, the access
    token is missing. *)
Definition expired : World :=
  Eval vm_compute in
    default (init page noOptions cfg_ref)
      (exec 50 [ENewOptions noOptions; ESetRefresh (mkStore (Some "ref") 0 9000000);
                EClock 4000000] (init page noOptions cfg_ref)).

(** The same with a valid access token. *)
Definition signed : World :=
  Eval vm_compute in
    default (init page noOptions cfg_ref) (exec 50 (take 4 always_401) (init page noOptions cfg_ref)).

(** The three strategies are configured, [generate] is connected and
    the refresh token is valid. *)
Definition equipped : World :=
  Eval vm_compute in
    default (init page noOptions cfg_all)
      (exec 50 [ESetRefresh (mkStore (Some "ref") 0 9000000); EClock 4000000]
         (init page noOptions cfg_all)).

(** A token that a callback stores. *)
Definition fresh_token : Store := mkStore (Some "new") 3600000 7600000.

(** * Properties *)

(** ** Lists used as heaps *)

Section heap.
Context {A : Type}.
Implicit Types l t : list A.

Lemma lookup_at0 l x t : (l ++ x :: t) !! length l = Some x.
Proof. by rewrite list_lookup_middle. Qed.

Lemma lookup_at1 l x y t : (l ++ x :: y :: t) !! S (length l) = Some y.
Proof.
  rewrite lookup_app_r; [|lia].
  by replace (S (length l) - length l)%nat with 1%nat by lia.
Qed.

Lemma insert_at0 l x z t : <[length l := z]> (l ++ x :: t) = l ++ z :: t.
Proof. rewrite insert_app_r_alt; [|lia]. by rewrite Nat.sub_diag. Qed.

Lemma insert_at1 l x y z t :
  <[S (length l) := z]> (l ++ x :: y :: t) = l ++ x :: z :: t.
Proof.
  rewrite insert_app_r_alt; [|lia].
  by replace (S (length l) - length l)%nat with 1%nat by lia.
Qed.

Lemma snoc_snoc l x t : (l ++ [x]) ++ t = l ++ x :: t.
Proof. by rewrite <- app_assoc. Qed.

Lemma snoc2_snoc l x y t : (l ++ [x; y]) ++ t = l ++ x :: y :: t.
Proof. by rewrite <- app_assoc. Qed.

Lemma length_snoc l x : length (l ++ [x]) = S (length l).
Proof. rewrite length_app. simpl. lia. Qed.

Lemma length_snoc2 l x y : length (l ++ [x; y]) = S (S (length l)).
Proof. rewrite length_app. simpl. lia. Qed.
End heap.

Create HintDb kernel.
#[local] Hint Unfold mbind M_bind mret M_ret gets modify when ignore observe
  external finally_ catch_ then_ await perform_then resolve fulfil reject
  enqueue get_promise put_promise new_promise resetAccess resetRefresh : kernel.

Ltac munfold := repeat (progress autounfold with kernel in *).

Create HintDb monad.
#[local] Hint Unfold mbind M_bind mret M_ret gets modify when ignore observe : monad.

Ltac mstep := repeat (progress autounfold with monad in *).

#[local] Arguments replays : simpl never.

Ltac heap_simpl :=
  repeat (cbn -[lookup insert app length Z.gtb Z.ltb Z.eqb Z.sub Z.mul];
          repeat first
            [ rewrite snoc_snoc | rewrite snoc2_snoc
            | rewrite length_snoc | rewrite length_snoc2
            | rewrite lookup_at0 | rewrite lookup_at1
            | rewrite insert_at0 | rewrite insert_at1 ]).

(** ** Starting an operation *)

Lemma generate_started w :
  has_generate (config w) = true →
  generate w = Some (S (S (length (promises w))), started Generate SYNC HGenerateCatch w).
Proof. intros H. unfold generate. munfold. rewrite H. heap_simpl. reflexivity. Qed.

Lemma renew_started w :
  has_renew (config w) = true →
  renew w = Some (S (S (length (promises w))), started Renew ASYNC HRenewCatch w).
Proof. intros H. unfold renew. munfold. rewrite H. heap_simpl. reflexivity. Qed.

Lemma refresh_started w :
  has_refresh (config w) = true →
  refresh w = Some (S (S (length (promises w))), started Refresh SYNC HRefreshCatch w).
Proof. intros H. unfold refresh. munfold. rewrite H. heap_simpl. reflexivity. Qed.

Lemma generateValid_has w : generateValid w = true → has_generate (config w) = true.
Proof. unfold generateValid. by intros [-> _]%andb_prop. Qed.

Lemma renewValid_has t w : renewValid t w = true → has_renew (config w) = true.
Proof. unfold renewValid. by intros [-> _]%andb_prop. Qed.

Lemma refreshValid_has t w : refreshValid t w = true → has_refresh (config w) = true.
Proof. unfold refreshValid. by intros [-> _]%andb_prop. Qed.

(** ** The synchronous part only extends the world *)

Lemma prefix_insert_ge {A} (l k : list A) i x :
  l `prefix_of` k → (length l ≤ i)%nat → l `prefix_of` <[i := x]> k.
Proof.
  intros [k' ->] Hi. rewrite insert_app_r_alt by done. by apply prefix_app_r.
Qed.

Lemma replays_app t1 t2 : replays (t1 ++ t2) = replays t1 ++ replays t2.
Proof. unfold replays. apply omap_app. Qed.

Lemma attached_mono h w w' :
  promises w `prefix_of` promises w' → trace w `prefix_of` trace w' →
  attached h w → attached h w'.
Proof.
  intros Hp [t' Ht] (sp & t & d & t1 & t2 & Htr & Hsp & Hcp).
  exists sp, t, d, t1, (t2 ++ t'). split_and!.
  - rewrite Ht, Htr. by rewrite <- app_assoc.
  - eauto using prefix_lookup_Some.
  - eauto using prefix_lookup_Some.
Qed.

(** Changing a promise that holds no reaction cannot detach anything. *)
Lemma attached_touch h w w' i s :
  promises w !! i = Some (Pending []) →
  <[i := s]> (promises w) `prefix_of` promises w' →
  trace w `prefix_of` trace w' →
  attached h w → attached h w'.
Proof.
  intros Hi Hp [tr Ht] (sp & t & d & t1 & t2 & Htr & Hsp & Hcp).
  exists sp, t, d, t1, (t2 ++ tr). split_and!.
  - rewrite Ht, Htr. by rewrite <- app_assoc.
  - eapply prefix_lookup_Some; [|exact Hp].
    rewrite list_lookup_insert_ne; [done|]. intros ->. congruence.
  - eapply prefix_lookup_Some; [|exact Hp].
    rewrite list_lookup_insert_ne; [done|]. intros ->. congruence.
Qed.

Lemma sync_refl w : sync w w.
Proof. split; try done; try by left. exists []. by rewrite app_nil_r. Qed.

Lemma sync_trans w1 w2 w3 : sync w1 w2 → sync w2 w3 → sync w1 w3.
Proof.
  intros [? ? ? ? ? Ha Hr ? ? ? (d1 & Hq1 & Hr1 & Ha1)]
         [? ? ? ? ? Ha' Hr' ? ? ? (d2 & Hq2 & Hr2 & Ha2)].
  split; try congruence; try (etrans; eassumption).
  { destruct Ha, Ha'; (by right) || (left; congruence) || (right; congruence). }
  { destruct Hr, Hr'; (by right) || (left; congruence) || (right; congruence). }
  exists (d1 ++ d2). rewrite Hq1, Hq2, Hr2, Hr1. split_and!.
  - by rewrite !app_assoc.
  - by rewrite !app_assoc.
  - apply Forall_app. split; [|done].
    eapply Forall_impl; [exact Ha1|]. eauto using attached_mono.
Qed.

(** A step that only extends the heaps and leaves the queue alone. *)
Lemma sync_extend w w' :
  options w' = options w → config w' = config w → parser w' = parser w →
  objects w' = objects w →
  clock w' = clock w → queue w' = queue w →
  accessStore w' = accessStore w ∨ accessStore w' = emptyStore →
  refreshStore w' = refreshStore w ∨ refreshStore w' = emptyStore →
  promises w `prefix_of` promises w' →
  microtasks w `prefix_of` microtasks w' →
  (∃ t, trace w' = trace w ++ t ∧ replays t = []) →
  sync w w'.
Proof.
  intros ? ? ? ? ? Hq ? ? ? ? (t & Ht & Hr). split; try done.
  - rewrite Ht. by apply prefix_app_r.
  - exists []. rewrite Hq, Ht, replays_app, Hr. by rewrite app_nil_r.
Qed.

Lemma sync_started op mode h w : sync w (started op mode h w).
Proof.
  apply sync_extend; cbn; try done; try (by left); try by apply prefix_app_r.
  by eexists.
Qed.

(** ** The admission decision, branch by branch *)

Section admission.
Variable rq : M unit.

(** Step 1: another operation owns admission. *)
Lemma isQueue_body_SYNC w :
  pending w = SYNC → isQueue_body rq w = Some (true, w).
Proof. intros H. unfold isQueue_body. munfold. by rewrite H. Qed.

(** Step 2: the access token is still valid. *)
Lemma isQueue_body_valid w :
  pending w ≠ SYNC →
  (exp (accessStore w) >? clock w) = true →
  isQueue_body rq w =
    Some (false,
          if renewValid (clock w) w && bool_decide (pending w = NONE)
          then started Renew ASYNC HRenewCatch w else w).
Proof.
  intros Hp He. unfold isQueue_body. munfold.
  rewrite bool_decide_eq_false_2 by done. rewrite He.
  destruct (renewValid (clock w) w) eqn:Hrv; cbn [andb]; [|done].
  destruct (bool_decide (pending w = NONE)); [|reflexivity].
  rewrite renew_started by eauto using renewValid_has. reflexivity.
Qed.

(** Step 3: the access token is invalid and a refresh is possible. *)
Lemma isQueue_body_refresh w :
  pending w ≠ SYNC →
  (exp (accessStore w) >? clock w) = false →
  refreshValid (clock w) w = true →
  isQueue_body rq w =
    Some (true,
          set_pending SYNC
            (if bool_decide (pending w = NONE)
             then started Refresh SYNC HRefreshCatch (set_accessStore emptyStore w)
             else set_accessStore emptyStore w)).
Proof.
  intros Hp He Hr. unfold isQueue_body. munfold.
  rewrite bool_decide_eq_false_2 by done. rewrite He. cbn.
  change (refreshValid (clock w) (set_accessStore emptyStore w))
    with (refreshValid (clock w) w). rewrite Hr.
  change (pending (set_accessStore emptyStore w)) with (pending w).
  destruct (bool_decide (pending w = NONE)); [|reflexivity].
  rewrite refresh_started by (cbn; eauto using refreshValid_has). reflexivity.
Qed.

(** Step 4: neither token is valid and a generate is possible. *)
Lemma isQueue_body_generate w :
  pending w ≠ SYNC →
  (exp (accessStore w) >? clock w) = false →
  refreshValid (clock w) w = false →
  generateValid w = true →
  isQueue_body rq w =
    Some (true,
          set_pending SYNC
            (if bool_decide (pending w = NONE)
             then started Generate SYNC HGenerateCatch
                    (set_refreshStore emptyStore (set_accessStore emptyStore w))
             else set_refreshStore emptyStore (set_accessStore emptyStore w))).
Proof.
  intros Hp He Hr Hg. unfold isQueue_body. munfold.
  rewrite bool_decide_eq_false_2 by done. rewrite He. cbn.
  change (refreshValid (clock w) (set_accessStore emptyStore w))
    with (refreshValid (clock w) w). rewrite Hr.
  change (generateValid (set_refreshStore emptyStore (set_accessStore emptyStore w)))
    with (generateValid w). rewrite Hg.
  change (pending (set_refreshStore emptyStore (set_accessStore emptyStore w)))
    with (pending w).
  destruct (bool_decide (pending w = NONE)); [|reflexivity].
  rewrite generate_started by (cbn; eauto using generateValid_has). reflexivity.
Qed.

(** Step 5: no way to recover. *)
Lemma isQueue_body_degraded w :
  pending w ≠ SYNC →
  (exp (accessStore w) >? clock w) = false →
  refreshValid (clock w) w = false →
  generateValid w = false →
  isQueue_body rq w =
    match rq (set_refreshStore emptyStore (set_accessStore emptyStore w)) with
    | Some (_, w') => Some (false, w')
    | None => None
    end.
Proof.
  intros Hp He Hr Hg. unfold isQueue_body. munfold.
  rewrite bool_decide_eq_false_2 by done. rewrite He. cbn.
  change (refreshValid (clock w) (set_accessStore emptyStore w))
    with (refreshValid (clock w) w). rewrite Hr.
  change (generateValid (set_refreshStore emptyStore (set_accessStore emptyStore w)))
    with (generateValid w). by rewrite Hg.
Qed.
End admission.

(** ** [send] and [runQueue] always return *)

Lemma sync_stores w a r m :
  a = accessStore w ∨ a = emptyStore →
  r = refreshStore w ∨ r = emptyStore →
  sync w (set_pending m (set_refreshStore r (set_accessStore a w))).
Proof. intros. apply sync_extend; cbn; try done. exists []. by rewrite app_nil_r. Qed.

Lemma isQueue_body_sync rq n w :
  drains rq n → (length (queue w) < n)%nat →
  ∃ b w', isQueue_body rq w = Some (b, w') ∧ sync w w'.
Proof.
  intros Hrq Hn.
  destruct (decide (pending w = SYNC)) as [Hp|Hp].
  { rewrite isQueue_body_SYNC by done. exists true, w. split; [done|apply sync_refl]. }
  destruct (exp (accessStore w) >? clock w) eqn:He.
  { rewrite isQueue_body_valid by done. do 2 eexists. split; [reflexivity|].
    destruct (_ && _); [apply sync_started|apply sync_refl]. }
  destruct (refreshValid (clock w) w) eqn:Hr.
  { rewrite isQueue_body_refresh by done. do 2 eexists. split; [reflexivity|].
    destruct (bool_decide _).
    - eapply sync_trans; [|eapply sync_trans; [apply (sync_started Refresh SYNC HRefreshCatch)|]].
      + apply (sync_stores w emptyStore (refreshStore w) (pending w)); auto.
      + apply sync_extend; cbn; try done; try by left. exists []. by rewrite app_nil_r.
    - apply (sync_stores w emptyStore (refreshStore w) SYNC); auto. }
  destruct (generateValid w) eqn:Hg.
  { rewrite isQueue_body_generate by done. do 2 eexists. split; [reflexivity|].
    destruct (bool_decide _).
    - eapply sync_trans; [|eapply sync_trans; [apply (sync_started Generate SYNC HGenerateCatch)|]].
      + apply (sync_stores w emptyStore emptyStore (pending w)); auto.
      + apply sync_extend; cbn; try done; try by left. exists []. by rewrite app_nil_r.
    - apply (sync_stores w emptyStore emptyStore SYNC); auto. }
  rewrite isQueue_body_degraded by done.
  destruct (Hrq (set_refreshStore emptyStore (set_accessStore emptyStore w)))
    as (w' & -> & Hs & _); [done|].
  do 2 eexists. split; [reflexivity|].
  eapply sync_trans; [|exact Hs].
  apply (sync_stores w emptyStore emptyStore (pending w)); auto.
Qed.


Lemma send_with_eq rq url opts w b w2 :
  isQueue_body rq (entered url opts w) = Some (b, w2) →
  promises w2 !! S (length (promises w)) = Some (Pending []) →
  send_with rq url opts w =
    Some (length (promises w), resumed url opts (length (promises w)) b w2).
Proof.
  intros Hb Hiq. unfold send_with, isQueue_with. munfold. cbn.
  rewrite length_snoc.
  replace (set_promises _ _) with (entered url opts w)
    by (unfold entered; cbn; by rewrite snoc_snoc).
  rewrite Hb. cbn. rewrite Hiq. cbn.
  rewrite list_lookup_insert_eq by eauto using lookup_lt_Some. cbn.
  by rewrite app_nil_r.
Qed.

Lemma sync_touch w w2 w3 i s :
  sync w w2 →
  (length (promises w) ≤ i)%nat →
  promises w2 !! i = Some (Pending []) →
  options w3 = options w2 → config w3 = config w2 → parser w3 = parser w2 →
  objects w3 = objects w2 →
  clock w3 = clock w2 → queue w3 = queue w2 → trace w3 = trace w2 →
  accessStore w3 = accessStore w2 → refreshStore w3 = refreshStore w2 →
  <[i := s]> (promises w2) `prefix_of` promises w3 →
  microtasks w2 `prefix_of` microtasks w3 →
  sync w w3.
Proof.
  intros [? ? ? ? ? Hac Hrc ? ? ? (dn & Hq & Hr & Ha)] Hi Hc ? ? ? ? ? Hq3 Ht3 Ha3 Hr3 Hp3 Hm3.
  split; try congruence.
  - etrans; [|exact Hp3]. by apply prefix_insert_ge.
  - by etrans.
  - exists dn. rewrite Hq3, Ht3. split_and!; try done.
    eapply Forall_impl; [exact Ha|]. intros h Hh.
    eapply attached_touch; eauto. by rewrite Ht3.
Qed.

Lemma sync_entered url opts w : sync w (entered url opts w).
Proof.
  apply sync_extend; cbn; try done; try (by left); try by apply prefix_app_r.
  by eexists.
Qed.

Lemma send_with_sync rq n url opts w :
  drains rq n → (length (queue w) < n)%nat →
  ∃ b w2,
    isQueue_body rq (entered url opts w) = Some (b, w2)
    ∧ send_with rq url opts w =
        Some (length (promises w), resumed url opts (length (promises w)) b w2)
    ∧ sync (entered url opts w) w2
    ∧ sync w (resumed url opts (length (promises w)) b w2)
    ∧ promises (resumed url opts (length (promises w)) b w2) !! length (promises w)
        = Some (Pending [])
    ∧ ∃ t, trace w2 = trace w ++ ObsSend url opts (length (promises w)) :: t.
Proof.
  intros Hrq Hn.
  destruct (isQueue_body_sync rq n (entered url opts w) Hrq) as (b & w2 & Hb & Hs);
    [done|].
  assert (promises w2 !! S (length (promises w)) = Some (Pending [])) as Hiq.
  { eapply prefix_lookup_Some; [|apply Hs]. cbn. apply lookup_at1. }
  exists b, w2. split_and!; try done.
  - by apply send_with_eq.
  - eapply sync_touch with (w2 := w2) (i := S (length (promises w))); cbn; try done.
    + eapply sync_trans; [apply sync_entered|done].
    + lia.
    + by apply prefix_app_r.
  - cbn. rewrite list_lookup_insert_ne by lia.
    eapply prefix_lookup_Some; [|apply Hs]. cbn.
    change [Pending []; Pending []] with ([Pending []] ++ [Pending []]).
    rewrite app_assoc. rewrite lookup_app_l by (rewrite length_snoc; lia).
    apply lookup_at0.
  - destruct Hs as [_ _ _ _ _ _ _ _ _ [t Ht] _]. exists t. rewrite Ht. cbn.
    by rewrite <- app_assoc.
Qed.

Lemma then_pending p hf hr w rs :
  promises w !! p = Some (Pending rs) →
  then_ p hf hr w =
    Some (length (promises w),
          set_promises
            (<[p := Pending (rs ++ [mkReaction hf hr (Some (length (promises w)))])]>
               (promises w) ++ [Pending []]) w).
Proof.
  intros Hp. munfold. cbn.
  rewrite lookup_app_l by eauto using lookup_lt_Some. rewrite Hp. cbn.
  by rewrite insert_app_l by eauto using lookup_lt_Some.
Qed.


Lemma chain_pending h sp w :
  promises w !! sp = Some (Pending []) →
  (t ← then_ sp (HQueueResolve (q_promise h)) HThrower;
   _ ← catch_ t (HQueueReject (q_promise h));
   mret tt) w = Some (tt, chained h sp w).
Proof.
  intros Hsp. unfold catch_, chained. mstep.
  rewrite (then_pending _ _ _ _ _ Hsp). cbn.
  remember (<[sp := _]> (promises w)) as X eqn:HX.
  assert (length (promises w) = length X) as HL by (subst X; by rewrite length_insert).
  rewrite HL.
  rewrite (then_pending (length X) _ _ _ []) by (cbn; apply lookup_at0).
  cbn. by rewrite insert_at0, length_snoc, snoc_snoc.
Qed.

Lemma sync_replayed w h q' w3 t :
  queue w = h :: q' →
  sync (set_trace (trace w ++ [ObsReplay h]) (set_queue q' w)) w3 →
  promises w3 !! length (promises w) = Some (Pending []) →
  trace w3 = (trace w ++ [ObsReplay h])
               ++ ObsSend (q_url h) (q_options h) (length (promises w)) :: t →
  sync w (chained h (length (promises w)) w3).
Proof.
  intros Hq [? ? ? ? ? ? ? ? ? Htr (dn & Hdn & Hr & Ha)] Hsp Ht. cbn in *.
  split; cbn; try congruence.
  - apply prefix_app_r. by apply prefix_insert_ge.
  - etrans; [|exact Htr]. by apply prefix_app_r.
  - exists (h :: dn). rewrite Hq, Hdn, Hr, replays_app. cbn.
    split_and!; [done|by rewrite <- app_assoc|].
    apply Forall_cons. split.
    + exists (length (promises w)), (length (promises w3)), (S (length (promises w3))),
        (trace w), t. cbn. split_and!.
      * rewrite Ht. by rewrite <- app_assoc.
      * rewrite lookup_app_l by (rewrite length_insert; eauto using lookup_lt_Some).
        by rewrite list_lookup_insert_eq by eauto using lookup_lt_Some.
      * remember (<[length (promises w) := _]> (promises w3)) as X eqn:HX.
        assert (length (promises w3) = length X) as -> by (subst X; by rewrite length_insert).
        apply lookup_at0.
    + eapply Forall_impl; [exact Ha|]. intros h' Hh'.
      eapply attached_touch; [exact Hsp| |done|exact Hh'].
      cbn. by apply prefix_app_r.
Qed.

Lemma runQueue_fuel_drains n : drains (runQueue_fuel n) n.
Proof.
  induction n as [|n IH]; intros w Hn; [lia|].
  cbn [runQueue_fuel]. mstep.
  destruct (queue w) as [|h q'] eqn:Hq.
  { rewrite Hq. exists w. eauto using sync_refl. }
  cbn. set (w1 := set_trace _ _).
  destruct (send_with_sync (runQueue_fuel n) n (q_url h) (q_options h) w1 IH)
    as (b & w2 & Hb & -> & Hs12 & Hs & Hsp & t & Ht).
  { cbn in Hn |- *. lia. }
  set (w3 := resumed _ _ _ _ _) in *.
  change (length (promises w1)) with (length (promises w)) in *.
  pose proof (chain_pending h _ _ Hsp) as Hc. unfold catch_ in *. mstep.
  rewrite Hc. clear Hc.
  set (w4 := chained _ _ _).
  assert (sync w w4) as Hs4 by (eapply sync_replayed; eauto).
  destruct (queue w4) as [|h2 q2] eqn:Hq4.
  { exists w4. done. }
  destruct (IH w4) as (w5 & Hw5 & Hs5 & Hq5).
  { destruct Hs as [_ _ _ _ _ _ _ _ _ _ (dn & Hdn & _)]. cbn in Hdn.
    change (queue w3) with (queue w4) in Hdn.
    apply (f_equal length) in Hdn.
    rewrite length_app in Hdn. cbn in Hn.
    change (queue w4) with (queue w2). lia. }
  exists w5. eauto using sync_trans.
Qed.

(** [runQueue] always returns, with the queue empty. *)
Lemma runQueue_sync w : ∃ w', runQueue w = Some (tt, w') ∧ sync w w' ∧ queue w' = [].
Proof. apply (runQueue_fuel_drains (S (length (queue w)))). lia. Qed.

Lemma runQueue_drains n : drains runQueue n.
Proof. intros w _. apply runQueue_sync. Qed.

(** ** The continuation of [send] *)

Lemma Fetch_send_built url opts o w :
  objects w !! opts = Some o →
  Fetch_send url opts w =
    Some (length (promises w),
          match Fetch_request (parser w) (defaults w) url o with
          | inr r => fetched url opts r w
          | inl e => thrown e w
          end).
Proof.
  intros Ho. unfold Fetch_send. munfold. cbn. rewrite Ho. cbn.
  change (defaults (set_promises _ w)) with (defaults w).
  destruct (Fetch_request (parser w) (defaults w) url o) as [e|r]; heap_simpl.
  - rewrite app_nil_r. by destruct w.
  - reflexivity.
Qed.

Lemma send_resume_false url opts sp o w :
  objects w !! opts = Some o →
  send_resume url opts sp false w = Some (tt, dispatched url opts sp o w).
Proof.
  intros Ho. unfold send_resume, dispatched, built, written, authorised. mstep. cbn.
  destruct (truthy (token (accessStore w))) eqn:Ht; cbn.
  - rewrite Ho. cbn.
    erewrite Fetch_send_built; cycle 1.
    { cbn. apply list_lookup_insert_eq. eauto using lookup_lt_Some. }
    cbn. by destruct (Fetch_request _ _ _ _).
  - rewrite list_insert_id by done.
    erewrite Fetch_send_built by done. unfold resolve, enqueue. mstep. cbn.
    replace (set_objects (objects w) w) with w by (by destruct w).
    by destruct (Fetch_request _ _ _ _).
Qed.

Lemma send_resume_true url opts sp w :
  send_resume url opts sp true w = Some (tt, enqueued url opts sp w).
Proof. reflexivity. Qed.


Lemma calls_started op op' mode h w :
  calls op (started op' mode h w) =
    (if bool_decide (op' = op) then S (calls op w) else calls op w).
Proof.
  unfold calls, started, strategy_calls. cbn. rewrite omap_app, length_app. cbn.
  destruct (bool_decide (op' = op)); cbn; lia.
Qed.

(** ** Without a strategy, [pending] stays [NONE] *)

Section keeps.
Context {A B : Type}.

Lemma keeps_ret (a : A) : keeps (mret a).
Proof. intros w a' w' Hw [= <- <-]. done. Qed.

Lemma keeps_fail : keeps (@fail A).
Proof. intros w a w' _ [=]. Qed.

Lemma keeps_gets (f : World → A) : keeps (gets f).
Proof. intros w a w' Hw [= <- <-]. done. Qed.

Lemma keeps_bind (m : M A) (f : A → M B) :
  keeps m → (∀ a, keeps (f a)) → keeps (m ≫= f).
Proof.
  intros Hm Hf w b w' Hw. unfold mbind, M_bind.
  destruct (m w) as [[a w1]|] eqn:E; [|done]. intros Hb.
  eapply Hf; [|exact Hb]. eapply Hm; [|exact E]. done.
Qed.

Lemma keeps_modify (f : World → World) :
  (∀ w, idle w → idle (f w)) → keeps (modify f).
Proof. intros Hf w a w' Hw [= <- <-]. auto. Qed.
End keeps.

Create HintDb keeps.
Ltac keeps_one :=
  first
    [ assumption
    | apply keeps_ret | apply keeps_fail | apply keeps_gets
    | apply keeps_modify; intros ? ?; assumption
    | apply keeps_bind; [|intros ?]
    | match goal with
      | |- keeps (match ?x with _ => _ end) => destruct x
      | |- keeps (if ?x then _ else _) => destruct x
      | |- keeps (let _ := _ in _) => cbv zeta
      end ].
Ltac keeps_tac := repeat keeps_one.

Lemma keeps_new_promise s : keeps (new_promise s).
Proof. intros w a w' Hw [= <- <-]. done. Qed.
Lemma keeps_get_promise p : keeps (get_promise p).
Proof. intros w a w' Hw. unfold get_promise. case_match; intros [= <- <-]; done. Qed.
Lemma keeps_put_promise p s : keeps (put_promise p s).
Proof. unfold put_promise. keeps_tac. Qed.
Lemma keeps_observe o : keeps (observe o).
Proof. unfold observe. keeps_tac. Qed.
Lemma keeps_enqueue j : keeps (enqueue j).
Proof. unfold enqueue. keeps_tac. Qed.
#[local] Hint Resolve keeps_new_promise keeps_get_promise keeps_put_promise
  keeps_observe keeps_enqueue : keeps.
Ltac keeps_auto := repeat first [ solve [eauto with keeps] | keeps_one ].

Lemma keeps_fulfil p v : keeps (fulfil p v).
Proof. unfold fulfil. keeps_auto. Qed.
Lemma keeps_reject p v : keeps (reject p v).
Proof. unfold reject. keeps_auto. Qed.
#[local] Hint Resolve keeps_fulfil keeps_reject : keeps.
Lemma keeps_resolve p v : keeps (resolve p v).
Proof. unfold resolve. keeps_auto. Qed.
Lemma keeps_perform_then p r : keeps (perform_then p r).
Proof. unfold perform_then. keeps_auto. Qed.
#[local] Hint Resolve keeps_resolve keeps_perform_then : keeps.
Lemma keeps_then p hf hr : keeps (then_ p hf hr).
Proof. unfold then_. keeps_auto. Qed.
Lemma keeps_await p k kt : keeps (await p k kt).
Proof. unfold await. keeps_auto. Qed.
Lemma keeps_external mk : keeps (external mk).
Proof. unfold external. keeps_auto. Qed.
#[local] Hint Resolve keeps_then keeps_await keeps_external : keeps.
Lemma keeps_catch p hr : keeps (catch_ p hr).
Proof. unfold catch_. keeps_auto. Qed.
Lemma keeps_finally p op : keeps (finally_ p op).
Proof. unfold finally_. keeps_auto. Qed.
#[local] Hint Resolve keeps_catch keeps_finally : keeps.

(** Without a strategy the three operations return a fulfilled promise
    and leave [pending] alone. *)
Lemma keeps_generate : keeps generate.
Proof.
  intros w a w' Hw. pose proof Hw as [(Hg & _ & _) _]. unfold generate. mstep.
  rewrite Hg. cbn. intros [= <- <-]. done.
Qed.
Lemma keeps_renew : keeps renew.
Proof.
  intros w a w' Hw. pose proof Hw as [(_ & Hg & _) _]. unfold renew. mstep.
  rewrite Hg. cbn. intros [= <- <-]. done.
Qed.
Lemma keeps_refresh : keeps refresh.
Proof.
  intros w a w' Hw. pose proof Hw as [(_ & _ & Hg) _]. unfold refresh. mstep.
  rewrite Hg. cbn. intros [= <- <-]. done.
Qed.
#[local] Hint Resolve keeps_generate keeps_renew keeps_refresh : keeps.

Lemma idle_refreshValid t w : idle w → refreshValid t w = false.
Proof. intros [(_ & _ & H) _]. unfold refreshValid. by rewrite H. Qed.
Lemma idle_generateValid w : idle w → generateValid w = false.
Proof. intros [(H & _ & _) _]. unfold generateValid. by rewrite H. Qed.
Lemma idle_renewValid t w : idle w → renewValid t w = false.
Proof. intros [(_ & H & _) _]. unfold renewValid. by rewrite H. Qed.

(** An idle instance lets every call through. *)
Lemma isQueue_body_idle rq w :
  idle w →
  isQueue_body rq w =
    if exp (accessStore w) >? clock w then Some (false, w)
    else match rq (set_refreshStore emptyStore (set_accessStore emptyStore w)) with
         | Some (_, w') => Some (false, w')
         | None => None
         end.
Proof.
  intros Hw. pose proof Hw as [_ Hp].
  destruct (exp (accessStore w) >? clock w) eqn:He.
  - rewrite isQueue_body_valid by (done || congruence).
    by rewrite idle_renewValid.
  - apply isQueue_body_degraded;
      auto using idle_refreshValid, idle_generateValid. congruence.
Qed.

Lemma keeps_isQueue_body rq : keeps rq → keeps (isQueue_body rq).
Proof.
  intros Hrq w b w' Hw. rewrite isQueue_body_idle by done.
  destruct (_ >? _).
  - by intros [= <- <-].
  - destruct (rq _) as [[[] w1]|] eqn:E; [|done]. intros [= <- <-].
    eapply Hrq; [|exact E]. done.
Qed.

Lemma keeps_send_with rq url opts : keeps rq → keeps (send_with rq url opts).
Proof.
  intros Hrq. pose proof (keeps_isQueue_body rq Hrq).
  unfold send_with, isQueue_with. keeps_auto.
Qed.

Lemma keeps_runQueue_fuel n : keeps (runQueue_fuel n).
Proof.
  induction n as [|n IH]; cbn [runQueue_fuel]; [apply keeps_fail|].
  pose proof (keeps_send_with (runQueue_fuel n)).
  keeps_auto.
Qed.

Lemma keeps_runQueue : keeps runQueue.
Proof. intros w a w' Hw. by apply keeps_runQueue_fuel. Qed.
#[local] Hint Resolve keeps_runQueue : keeps.

Lemma keeps_send url opts : keeps (send url opts).
Proof. apply keeps_send_with, keeps_runQueue. Qed.
#[local] Hint Resolve keeps_send : keeps.

Lemma keeps_Fetch_send url opts : keeps (Fetch_send url opts).
Proof. unfold Fetch_send. keeps_auto. Qed.
#[local] Hint Resolve keeps_Fetch_send : keeps.

Lemma keeps_send_resume url opts sp b : keeps (send_resume url opts sp b).
Proof. unfold send_resume. keeps_auto. Qed.

Lemma keeps_handleErrors e url opts : keeps (handleErrors e url opts).
Proof. unfold handleErrors, resetAccess. keeps_auto. Qed.
#[local] Hint Resolve keeps_send_resume keeps_handleErrors : keeps.

Lemma keeps_finally_callback op : keeps (finally_callback op).
Proof.
  unfold finally_callback. keeps_auto.
  apply keeps_modify. by intros w [? _].
Qed.
#[local] Hint Resolve keeps_finally_callback : keeps.

Lemma keeps_run_handler h arg : keeps (run_handler h arg).
Proof.
  destruct h; cbn [run_handler]; unfold resetAccess, resetRefresh; keeps_auto.
Qed.
#[local] Hint Resolve keeps_run_handler : keeps.

Lemma keeps_run_job j : keeps (run_job j).
Proof. destruct j; cbn [run_job]; keeps_auto. Qed.
#[local] Hint Resolve keeps_run_job : keeps.

Lemma keeps_drain n : keeps (drain n).
Proof.
  induction n as [|n IH]; cbn [drain].
  - intros w a w' Hw. destruct (microtasks w); [|done]. by intros [= <- <-].
  - keeps_auto.
Qed.
#[local] Hint Resolve keeps_drain : keeps.

Lemma keeps_step e : keeps (step e).
Proof. destruct e; cbn [step]; keeps_auto. Qed.
#[local] Hint Resolve keeps_step : keeps.

Lemma keeps_run fuel es : keeps (run fuel es).
Proof. induction es as [|e es IH]; cbn [run]; keeps_auto. Qed.

Lemma reachable_idle pf o c w : no_strategy c → reachable pf o c w → idle w.
Proof.
  intros Hc (fuel & es & He). unfold exec in He.
  destruct (run fuel es (init pf o c)) as [[[] w1]|] eqn:E; [|done].
  injection He as <-. eapply keeps_run; [|exact E]. done.
Qed.

(** ** The fallback handlers *)

Lemma generate_catch e w :
  run_handler HGenerateCatch e w = Some (Abrupt e, disconnected w).
Proof. reflexivity. Qed.

Lemma renew_catch e w :
  run_handler HRenewCatch e w =
    let w1 := set_accessStore emptyStore w in
    let w2 := set_refreshStore emptyStore w1 in
    let p := S (S (length (promises w))) in
    if refreshValid (clock w) w
    then Some (Normal (VProm p), started Refresh SYNC HRefreshCatch w1)
    else if generateValid w
         then Some (Normal (VProm p), started Generate SYNC HGenerateCatch w2)
         else Some (Abrupt e, w2).
Proof.
  cbn [run_handler]. unfold resetAccess, resetRefresh. mstep. cbn.
  change (refreshValid (clock w) (set_accessStore emptyStore w))
    with (refreshValid (clock w) w).
  destruct (refreshValid (clock w) w) eqn:Hr.
  { rewrite refresh_started by (cbn; eauto using refreshValid_has). reflexivity. }
  cbn.
  change (generateValid (set_refreshStore emptyStore (set_accessStore emptyStore w)))
    with (generateValid w).
  destruct (generateValid w) eqn:Hg; [|reflexivity].
  rewrite generate_started by (cbn; eauto using generateValid_has). reflexivity.
Qed.

Lemma refresh_catch e w :
  run_handler HRefreshCatch e w =
    let w1 := set_refreshStore emptyStore w in
    let p := S (S (length (promises w))) in
    if generateValid w
    then Some (Normal (VProm p), started Generate SYNC HGenerateCatch w1)
    else Some (Abrupt e, w1).
Proof.
  cbn [run_handler]. unfold resetRefresh. mstep. cbn.
  change (generateValid (set_refreshStore emptyStore w)) with (generateValid w).
  destruct (generateValid w) eqn:Hg; [|reflexivity].
  rewrite generate_started by (cbn; eauto using generateValid_has). reflexivity.
Qed.


(** ** Handling a failed call *)

Lemma handleErrors_retry e url opts w :
  is401 e = true →
  refreshValid (clock w) w || generateValid w = true →
  ∃ b w2,
    isQueue_body runQueue (entered url opts (caught e w)) = Some (b, w2)
    ∧ sync (entered url opts (caught e w)) w2
    ∧ handleErrors e url opts w =
        Some (length (promises w), retried url opts b (length (promises w)) w2).
Proof.
  intros H4 Hv.
  destruct (send_with_sync runQueue (S (length (queue (caught e w)))) url opts
              (caught e w) (runQueue_drains _)) as (b & w2 & Hb & Hsend & Hs & _); [lia|].
  exists b, w2. split_and!; try done.
  unfold handleErrors, resetAccess. mstep. cbn. rewrite H4. cbn.
  change (refreshValid (clock w) _) with (refreshValid (clock w) w).
  change (generateValid _) with (generateValid w). rewrite Hv.
  unfold send. unfold caught in Hsend. rewrite H4 in Hsend. rewrite Hsend. cbn.
  unfold retried. cbn. by rewrite length_snoc.
Qed.

Lemma handleErrors_surface e url opts w :
  is401 e && (refreshValid (clock w) w || generateValid w) = false →
  handleErrors e url opts w =
    Some (length (promises w), surfaced e (length (promises w)) (caught e w)).
Proof.
  intros Hc. unfold handleErrors, resetAccess, surfaced, caught. mstep.
  destruct (is401 e); cbn in Hc |- *.
  - change (refreshValid (clock w) _) with (refreshValid (clock w) w).
    change (generateValid _) with (generateValid w). rewrite Hc. cbn.
    destruct (has_handleErrors (config w)); munfold; heap_simpl.
    + reflexivity.
    + rewrite ?app_nil_r. by destruct w.
  - destruct (has_handleErrors (config w)); munfold; heap_simpl.
    + reflexivity.
    + rewrite ?app_nil_r. by destruct w.
Qed.

(** ** The dispatch of a call *)

Lemma fetches_app t1 t2 : fetches (t1 ++ t2) = fetches t1 ++ fetches t2.
Proof. unfold fetches. apply omap_app. Qed.

Lemma fetches_dispatched url opts sp o w :
  fetches (trace (dispatched url opts sp o w)) =
    fetches (trace w)
      ++ request_of (built url opts (authorised (accessStore w) o) w) url opts.
Proof.
  unfold dispatched. destruct (built _ _ _ _); cbn.
  - by rewrite app_nil_r.
  - by rewrite fetches_app.
Qed.

(** [send] on a world where admission lets the call through at once. *)
Lemma send_let_through url opts w :
  isQueue_body runQueue (entered url opts w) = Some (false, entered url opts w) →
  send url opts w =
    Some (length (promises w),
          resumed url opts (length (promises w)) false (entered url opts w)).
Proof.
  intros H. apply send_with_eq; [done|]. cbn. apply lookup_at1.
Qed.


Lemma isQueue_body_ASYNC_valid rq w :
  pending w = ASYNC → exp (accessStore w) > clock w →
  isQueue_body rq w = Some (false, w).
Proof.
  intros Hp He. rewrite isQueue_body_valid by (congruence || lia).
  rewrite Hp. by rewrite andb_false_r.
Qed.

Lemma authorised_other_keys a o : with_headers (headers o) (authorised a o) = o.
Proof. unfold authorised. destruct (truthy (token a)); by destruct o. Qed.

Lemma bare_reachable : reachable page noOptions cfg_none bare.
Proof. exists 50%nat, bare_events. reflexivity. Defined.

(** ** Calls that arrive while an operation blocks admission *)

Lemma drain_empty fuel w : microtasks w = [] → drain fuel w = Some (tt, w).
Proof. intros H. destruct fuel; cbn; mstep; by rewrite H. Qed.

Lemma drain_parked fuel url opts sp w2 :
  microtasks w2 = [] →
  (sp < length (promises w2))%nat →
  drain (S (S fuel)) (resumed url opts sp true w2) = Some (tt, parked url opts w2 sp).
Proof.
  intros Hm Hsp. cbn [drain]. mstep. cbn. rewrite Hm. cbn.
  unfold parked, enqueue, new_promise. mstep. cbn.
  remember (<[S sp := Fulfilled (VBool true)]> (promises w2)) as X eqn:HX.
  assert (length (promises w2) = length X) as -> by (subst X; by rewrite length_insert).
  mstep. erewrite then_pending by (cbn; apply lookup_at0). cbn.
  rewrite drain_empty by done.
  rewrite insert_at0, length_snoc, snoc_snoc. reflexivity.
Qed.

(** A call that arrives on a blocked instance is parked. *)
Lemma send_blocked fuel url opts w :
  blocked w →
  (step (ESend url opts) ;; drain (S (S fuel))) w =
    Some (tt, parked url opts (entered url opts w) (length (promises w))).
Proof.
  intros [Hp Hm]. cbn [step]. mstep.
  unfold send. erewrite send_with_eq; cycle 1.
  { by apply isQueue_body_SYNC. }
  { cbn. apply lookup_at1. }
  cbn -[drain]. apply drain_parked; [done|].
  change (promises (entered url opts w)) with (promises w ++ [Pending []; Pending []]).
  rewrite length_app. cbn. lia.
Qed.

(** The first call on an idle instance whose tokens are both invalid and
    that can generate: [generate] starts, the call is parked. *)
Lemma send_starts_generate fuel url opts w :
  pending w = NONE → microtasks w = [] →
  exp (accessStore w) ≤ clock w →
  refreshValid (clock w) w = false →
  generateValid w = true →
  (step (ESend url opts) ;; drain (S (S fuel))) w =
    Some (tt,
          parked url opts
            (set_pending SYNC
               (started Generate SYNC HGenerateCatch
                  (set_refreshStore emptyStore
                     (set_accessStore emptyStore (entered url opts w)))))
            (length (promises w))).
Proof.
  intros Hp Hm He Hr Hg. cbn [step]. mstep.
  unfold send.
  rewrite (send_with_eq runQueue url opts w true
             (set_pending SYNC
               (started Generate SYNC HGenerateCatch
                  (set_refreshStore emptyStore
                     (set_accessStore emptyStore (entered url opts w)))))); cycle 1.
  { rewrite isQueue_body_generate; try done.
    - change (pending (entered url opts w)) with (pending w). by rewrite Hp.
    - change (pending (entered url opts w)) with (pending w). congruence.
    - cbn. lia. }
  { cbn. rewrite <- app_assoc. apply lookup_at1. }
  cbn -[drain]. apply drain_parked; [done|].
  cbn [promises set_pending started set_trace set_promises set_refreshStore
       set_accessStore entered].
  rewrite !length_app. cbn. lia.
Qed.

Lemma run_cons fuel e es w w1 :
  (step e ;; drain fuel) w = Some (tt, w1) →
  run fuel (e :: es) w = run fuel es w1.
Proof.
  cbn [run]. mstep. intros H.
  destruct (step e w) as [[[] w0]|]; [|done].
  destruct (drain fuel w0) as [[[] w0']|]; [|done]. by injection H as ->.
Qed.

Lemma calls_parked op url opts w2 sp :
  calls op (parked url opts w2 sp) = calls op w2.
Proof.
  unfold calls, strategy_calls. cbn. rewrite omap_app. cbn. by rewrite app_nil_r.
Qed.

Lemma calls_entered op url opts w : calls op (entered url opts w) = calls op w.
Proof.
  unfold calls, strategy_calls. cbn. rewrite omap_app. cbn. by rewrite app_nil_r.
Qed.

Lemma sends_blocked fuel cs : ∀ w,
  blocked w →
  ∃ w', exec (S (S fuel)) (send_all cs) w = Some w'
    ∧ blocked w'
    ∧ (∀ op, calls op w' = calls op w)
    ∧ waiting w' = waiting w ++ cs
    ∧ fetches (trace w') = fetches (trace w).
Proof.
  induction cs as [|[url opts] cs IH]; intros w Hw.
  { exists w. split_and!; try done. unfold waiting. by rewrite app_nil_r. }
  pose proof (send_blocked fuel url opts w Hw) as Hs.
  set (w1 := parked _ _ _ _) in Hs.
  destruct (IH w1) as (w' & He & Hb & Hc & Hq & Hf).
  { destruct Hw. by split. }
  exists w'. split_and!; try done.
  - unfold exec in *. cbn [send_all fmap list_fmap]. cbn [fst snd].
    by rewrite (run_cons _ _ _ _ _ Hs).
  - intros op. rewrite Hc. unfold w1. by rewrite calls_parked, calls_entered.
  - rewrite Hq. unfold w1, waiting. cbn. rewrite fmap_app. cbn.
    by rewrite <- app_assoc.
  - rewrite Hf. unfold w1. cbn. rewrite !fetches_app. cbn. by rewrite !app_nil_r.
Qed.



(** ** Objects and [Headers] *)

Lemma get_key_set_key k v obj : get_key k (set_key k v obj) = Some v.
Proof.
  unfold set_key. destruct (existsb _ obj) eqn:E.
  - induction obj as [|[k' v'] obj IH]; [done|]. cbn in *.
    destruct (String.eqb_spec k' k) as [->|Hne]; cbn.
    + by rewrite String.eqb_refl.
    + destruct (String.eqb_spec k' k); [done|]. auto.
  - induction obj as [|[k' v'] obj IH]; cbn in *.
    + by rewrite String.eqb_refl.
    + apply orb_false_elim in E as [-> E]. auto.
Qed.

Lemma get_key_set_key_ne k k' v obj :
  k' ≠ k → get_key k' (set_key k v obj) = get_key k' obj.
Proof.
  intros Hne. unfold set_key. destruct (existsb _ obj).
  - induction obj as [|[k0 v0] obj IH]; [done|]. cbn.
    destruct (String.eqb_spec k0 k) as [->|Hk]; cbn.
    + destruct (String.eqb_spec k k'); [congruence|]. done.
    + destruct (String.eqb_spec k0 k'); [done|]. done.
  - induction obj as [|[k0 v0] obj IH]; cbn.
    + destruct (String.eqb_spec k k'); [congruence|]. done.
    + destruct (String.eqb_spec k0 k'); [done|]. done.
Qed.

(** [set_key] keeps the other entries where they are. *)
Lemma set_key_others k v obj :
  filter (λ kv, kv.1 ≠ k) (set_key k v obj) = filter (λ kv, kv.1 ≠ k) obj.
Proof.
  unfold set_key. destruct (existsb _ obj).
  - induction obj as [|[k0 v0] obj IH]; [done|]. cbn -[filter].
    destruct (String.eqb_spec k0 k) as [->|Hk].
    + rewrite !filter_cons_False by (cbn; tauto). done.
    + rewrite !filter_cons_True by done. by rewrite IH.
  - rewrite filter_app. rewrite (filter_cons_False _ (k, v)) by (cbn; tauto).
    rewrite filter_nil. apply app_nil_r.
Qed.

Lemma fill_None (obj : list (string * string)) :
  foldl (λ acc kv, hs ← acc; Headers_append hs kv.1 kv.2) None obj = None.
Proof. induction obj as [|kv obj IH]; [done|]. exact IH. Qed.

Lemma fill_cons k v (obj : list (string * string)) hs0 :
  foldl (λ acc kv, hs ← acc; Headers_append hs kv.1 kv.2) (Some hs0) ((k, v) :: obj) =
    if header_name k && header_value (normalize v)
    then foldl (λ acc kv, hs ← acc; Headers_append hs kv.1 kv.2)
           (Some (<[lower k := match hs0 !! lower k with
                               | Some v0 => (v0 +:+ ", " +:+ normalize v)%string
                               | None => normalize v
                               end]> hs0)) obj
    else None.
Proof.
  change (foldl ?f (Some hs0) ((k, v) :: obj))
    with (foldl f (Headers_append hs0 k v) obj).
  unfold Headers_append. destruct (header_name k && header_value (normalize v)); [done|].
  apply fill_None.
Qed.

Lemma new_Headers_fold obj : ∀ hs0 hs name,
  foldl (λ acc kv, hs ← acc; Headers_append hs kv.1 kv.2) (Some hs0) obj = Some hs →
  hs !! lower name = appended (hs0 !! lower name) (same_name name obj).
Proof.
  induction obj as [|[k v] obj IH]; intros hs0 hs name H.
  - injection H as <-. unfold same_name. rewrite filter_nil. cbn.
    by destruct (hs0 !! lower name).
  - rewrite fill_cons in H.
    destruct (header_name k && header_value (normalize v)); [|done].
    rewrite (IH _ _ name H). unfold same_name.
    destruct (decide (lower k = lower name)) as [E|E].
    + rewrite filter_cons_True by done. rewrite E, lookup_insert_eq.
      rewrite fmap_cons. cbn [snd]. by destruct (hs0 !! lower name).
    + rewrite filter_cons_False by done. by rewrite lookup_insert_ne.
Qed.

(** [new Headers(obj).get(name)]: the values that [obj] holds under
    [name] in any case, normalised and joined in the order of the keys. *)
Lemma new_Headers_get obj hs name :
  new_Headers obj = Some hs → Headers_get hs name = joined (same_name name obj).
Proof.
  intros H. unfold Headers_get. rewrite (new_Headers_fold obj ∅ hs name H).
  by rewrite lookup_empty.
Qed.

(** [new Headers(obj)] throws exactly when an entry is not valid. *)
Lemma new_Headers_valid obj : is_Some (new_Headers obj) ↔ valid_headers obj = true.
Proof.
  unfold new_Headers, valid_headers. generalize (∅ : Headers).
  induction obj as [|[k v] obj IH]; intros hs0.
  - split; [done|eauto].
  - rewrite fill_cons. cbn [forallb fst snd].
    destruct (header_name k && header_value (normalize v)); cbn [andb].
    + apply IH.
    + split; [by intros [? ?]|done].
Qed.

Lemma Headers_get_set hs name value name' :
  Headers_get (Headers_set hs name value) name' =
    if decide (lower name' = lower name) then Some (normalize value)
    else Headers_get hs name'.
Proof.
  unfold Headers_get, Headers_set. destruct (decide _) as [->|Hne].
  - by rewrite lookup_insert_eq.
  - by rewrite lookup_insert_ne.
Qed.

Lemma existsb_key name (obj : list (string * string)) :
  existsb (λ kv, String.eqb kv.1 name) obj = true ↔ name ∈ obj.*1.
Proof.
  induction obj as [|[k0 v0] obj IH]; cbn.
  - split; [done|]. by intros ?%elem_of_nil.
  - rewrite orb_true_iff, IH, elem_of_cons.
    destruct (String.eqb_spec k0 name) as [->|Hne]; [tauto|].
    split; [intros [|]; [done|tauto]|intros [|]; [congruence|tauto]].
Qed.

Lemma same_name_none name (f : string * string → string * string) obj :
  (∀ kv, kv.1 ≠ name → f kv = kv) →
  name ∉ obj.*1 →
  (∀ k, k ∈ obj.*1 → lower k = lower name → k = name) →
  same_name name (f <$> obj) = [].
Proof.
  intros Hf. induction obj as [|[k0 v0] obj IH]; intros Hnin Hk; [done|].
  cbn [fmap list_fmap fst] in Hnin, Hk. apply not_elem_of_cons in Hnin as [Hne Hnin].
  unfold same_name in *. rewrite fmap_cons, Hf by (cbn; congruence).
  rewrite filter_cons_False; cycle 1.
  { cbn. intros Hl. apply Hne. symmetry. apply Hk; [by left|done]. }
  apply IH; [done|]. intros k Hin. apply Hk. by right.
Qed.

(** An object whose only key that reads [name] in some case is [name]
    itself gives the header its value. *)
Lemma same_name_set_key name v obj :
  NoDup obj.*1 →
  (∀ k, k ∈ obj.*1 → lower k = lower name → k = name) →
  same_name name (set_key name v obj) = [normalize v].
Proof.
  intros Hnd Hk. unfold set_key.
  set (f := λ kv : string * string, if String.eqb kv.1 name then (name, v) else kv).
  assert (∀ kv, kv.1 ≠ name → f kv = kv) as Hf.
  { intros [k0 v0] Hne. unfold f. cbn in *. by destruct (String.eqb_spec k0 name). }
  destruct (existsb _ obj) eqn:E.
  - apply existsb_key in E.
    induction obj as [|[k0 v0] obj IH]; [by apply elem_of_nil in E|].
    cbn [fmap list_fmap fst] in Hnd, Hk, E. apply NoDup_cons in Hnd as [Hnin Hnd].
    rewrite fmap_cons. destruct (decide (k0 = name)) as [->|Hne].
    + unfold same_name. unfold f at 1. cbn [fst]. rewrite String.eqb_refl.
      rewrite filter_cons_True by done. rewrite fmap_cons. cbn [snd]. f_equal.
      apply (same_name_none name f obj Hf Hnin). intros k Hin. apply Hk. by right.
    + rewrite Hf by done. unfold same_name. rewrite filter_cons_False; cycle 1.
      { cbn. intros Hl. apply Hne. apply Hk; [by left|done]. }
      apply IH; [done| |].
      * intros k Hin. apply Hk. by right.
      * apply elem_of_cons in E as [E|E]; [congruence|done].
  - assert (name ∉ obj.*1) as Hnin.
    { intros Hin%existsb_key. congruence. }
    unfold same_name. rewrite filter_app, fmap_app.
    rewrite (filter_cons_True _ (name, v)) by done. rewrite filter_nil.
    pose proof (same_name_none name id obj (λ _ _, eq_refl) Hnin Hk) as H0.
    rewrite list_fmap_id in H0. unfold same_name in H0. by rewrite H0.
Qed.

(** The parts of a request that was built. *)
Lemma Fetch_request_inr pf dflt url o r :
  Fetch_request pf dflt url o = inr r →
  let cfg := Fetch_config dflt o in
  pf url (match baseUrl cfg with Given b => Some b | _ => None end) = true
  ∧ json cfg ≠ Given JsonThrows
  ∧ call_url r = url
  ∧ call_base r = match baseUrl cfg with Given b => Some b | _ => None end
  ∧ call_params r = searchParams (query cfg)
  ∧ init_method (call_init r) = nullish (method cfg) "GET"%string
  ∧ init_credentials (call_init r) = nullish (credentials cfg) "omit"%string
  ∧ init_signal (call_init r) = match signal cfg with Given s => Some s | _ => None end
  ∧ init_body (call_init r) =
      match json cfg, form cfg with
      | Given (JsonText text), _ => PJson text
      | Given JsonThrows, _ => PRaw (body cfg)
      | _, Given f => PForm f
      | _, _ => PRaw (body cfg)
      end
  ∧ ∃ hs, new_Headers (nullish (headers cfg) []) = Some hs
      ∧ init_headers (call_init r) =
          match json cfg with
          | Given _ => Headers_set hs "Content-Type" "application/json"
          | _ => hs
          end.
Proof.
  intros H cfg. unfold Fetch_request, Fetch_init in H. fold cfg in H.
  destruct (pf url _); [|done].
  destruct (new_Headers _) as [hs|]; [|done].
  destruct (json cfg) as [| |[text|]] eqn:Ej; try done;
    destruct (form cfg) as [| |f] eqn:Ef; injection H as <-; cbn;
    split_and!; try done; eauto.
Qed.

(** A request is built exactly when the url parses, the headers are
    valid and the [json] payload can be serialised. *)
Lemma Fetch_request_builds pf dflt url o :
  let cfg := Fetch_config dflt o in
  (∃ r, Fetch_request pf dflt url o = inr r) ↔
    pf url (match baseUrl cfg with Given b => Some b | _ => None end) = true
    ∧ valid_headers (nullish (headers cfg) []) = true
    ∧ json cfg ≠ Given JsonThrows.
Proof.
  intros cfg. subst cfg. split.
  - intros [r Hr]. pose proof (Fetch_request_inr _ _ _ _ _ Hr) as X. cbv zeta in X.
    destruct X as (H1 & H2 & _ & _ & _ & _ & _ & _ & _ & hs & Hhs & _).
    split_and!; try done. apply new_Headers_valid. by rewrite Hhs.
  - intros (H1 & H2 & H3). unfold Fetch_request, Fetch_init. cbv zeta. rewrite H1.
    apply new_Headers_valid in H2 as [hs Hhs]. rewrite Hhs.
    destruct (json (Fetch_config dflt o)) as [| |[text|]]; try done;
      destruct (form (Fetch_config dflt o)); eauto.
Qed.

(** The headers of a request that was built, read by name. *)
Lemma Fetch_request_get pf dflt url o r name :
  Fetch_request pf dflt url o = inr r →
  let cfg := Fetch_config dflt o in
  Headers_get (init_headers (call_init r)) name =
    match json cfg with
    | Given _ =>
        if decide (lower name = "content-type"%string)
        then Some "application/json"%string
        else joined (same_name name (nullish (headers cfg) []))
    | _ => joined (same_name name (nullish (headers cfg) []))
    end.
Proof.
  intros H cfg. subst cfg.
  pose proof (Fetch_request_inr _ _ _ _ _ H) as X. cbv zeta in X.
  destruct X as (_ & _ & _ & _ & _ & _ & _ & _ & _ & hs & Hhs & ->).
  destruct (json (Fetch_config dflt o)); try by apply new_Headers_get.
  rewrite Headers_get_set. change (lower "Content-Type") with "content-type"%string.
  destruct (decide _); [done|]. by apply new_Headers_get.
Qed.

(** * The claims of the specification *)

(** ** Mutual exclusion *)

(** X24.  Mutual exclusion at admission: while both tokens are invalid and
    [generate] is connected, any number of calls arriving before the
    operation settles start [config.generate] once, and all of them wait
    in arrival order. *)
Lemma concurrent_sends_generate_once fuel cs w :
  cs ≠ [] →
  pending w = NONE → microtasks w = [] →
  exp (accessStore w) ≤ clock w →
  refreshValid (clock w) w = false →
  generateValid w = true →
  ∃ w', exec (S (S fuel)) (send_all cs) w = Some w'
    ∧ calls Generate w' = S (calls Generate w)
    ∧ calls Renew w' = calls Renew w
    ∧ calls Refresh w' = calls Refresh w
    ∧ waiting w' = waiting w ++ cs
    ∧ fetches (trace w') = fetches (trace w)
    ∧ pending w' = SYNC.
Proof.
  intros Hcs Hp Hm He Hr Hg. destruct cs as [|[url opts] cs]; [done|].
  pose proof (send_starts_generate fuel url opts w Hp Hm He Hr Hg) as Hs.
  set (w1 := parked _ _ _ _) in Hs.
  destruct (sends_blocked fuel cs w1) as (w' & Hx & [Hb _] & Hc & Hq & Hf).
  { by split. }
  assert (∀ op, calls op w1 = if bool_decide (Generate = op) then S (calls op w) else calls op w)
    as Hc1.
  { intros op. unfold w1, calls, parked, started, entered.
    cbn [trace set_trace set_promises set_microtasks set_queue set_pending
         set_accessStore set_refreshStore].
    unfold strategy_calls. rewrite !omap_app, !length_app. cbn [omap list_omap length].
    destruct (bool_decide (Generate = op)); cbn; lia. }
  exists w'. split_and!; try done.
  - unfold exec in *. cbn [send_all fmap list_fmap]. cbn [fst snd].
    by rewrite (run_cons _ _ _ _ _ Hs).
  - by rewrite Hc, Hc1.
  - by rewrite Hc, Hc1.
  - by rewrite Hc, Hc1.
  - rewrite Hq. unfold w1, waiting. cbn. rewrite fmap_app. cbn.
    by rewrite <- app_assoc.
  - rewrite Hf. unfold w1. cbn. rewrite !fetches_app. cbn. by rewrite !app_nil_r.
Qed.

(** C1.  The claim is that at most one of [generate], [renew], [refresh]
    is in flight at any time.  The code breaks it in a fallback chain:
    the [finally] of the chained operation resets [pending] and drains
    the queue while the outer chain has not settled, and the [finally]
    of the outer operation resets [pending] once more.  Here a single
    call is made; the refresh fails and [generate] resolves without a
    valid token.  The replay started by the first reset calls
    [config.generate] again (promise 13), the second reset clears
    [pending] under it, and the replay that follows calls
    [config.generate] a third time (promise 25): two generates are in
    flight together. *)
Theorem overlapping_generates :
  ∃ w,
    exec 100 overlapping_events (init page noOptions cfg_all) = Some w
    ∧ strategy_calls Refresh (trace w) = [2%nat]
    ∧ strategy_calls Generate (trace w) = [7%nat; 13%nat; 25%nat]
    ∧ in_flight w = [(Generate, 13%nat); (Generate, 25%nat)]
    ∧ settlements (trace w) = [Generate; Refresh].
Proof. eexists. split_and!; vm_compute; reflexivity. Qed.

(** ** The fallback chain *)

(** C2 as stated fails: after renew, refresh and generate have failed in
    turn, the caller of [renew()] sees the error of [generate], not the
    error of [renew] that started the chain. *)
Lemma fallback_error_is_last :
  ∃ w,
    exec 50 (all_fail (VErr 500 "renew") (VErr 502 "refresh") (VErr 503 "generate"))
      (init page noOptions cfg_all) = Some w
    ∧ outcome 2 w = Some (Rejected (VErr 503 "generate"))
    ∧ outcome 2 w ≠ Some (Rejected (VErr 500 "renew")).
Proof. eexists. split_and!; [vm_compute; reflexivity..|]. vm_compute. discriminate. Qed.

(** C3.  The claim is that [pending] is reset and the queue drained once
    per admission trigger, after the whole chain has settled.  In the
    code every operation of the chain carries its own [finally]: one call
    starts a renew, the renew fails, the refresh that follows succeeds,
    and the reset-and-drain runs twice, first for the refresh and then
    for the renew. *)
Theorem settles_once_per_operation :
  ∃ w,
    exec 50 renew_refresh_events (init page noOptions cfg_rr) = Some w
    ∧ strategy_calls Renew (trace w) = [2%nat]
    ∧ strategy_calls Refresh (trace w) = [10%nat]
    ∧ in_flight w = []
    ∧ settlements (trace w) = [Refresh; Renew].
Proof. eexists. split_and!; vm_compute; reflexivity. Qed.

(** With three operations in the chain it runs three times. *)
Lemma three_failures_three_settlements :
  ∃ w,
    exec 50 (all_fail (VErr 500 "renew") (VErr 502 "refresh") (VErr 503 "generate"))
      (init page noOptions cfg_all) = Some w
    ∧ settlements (trace w) = [Generate; Refresh; Renew].
Proof. eexists. split_and!; vm_compute; reflexivity. Qed.

(** ** Retry after a 401 *)

(** C4, amended.  On an error of status 401 [handleErrors] resets the
    access store.  If [refreshValid(now)] or [generateValid()] holds at
    that moment it calls [send] again, once, with the same url and the
    same options, and the failed call takes the outcome of that new call;
    this holds in every state, also when the failed call was itself a
    retry.  Otherwise the error goes to the hook, if there is one, and
    the call is rejected with it. *)
Theorem handleErrors_retries_while_recoverable e url opts w :
  is401 e = true →
  let hp := length (promises w) in
  accessStore (caught e w) = emptyStore
  ∧ (refreshValid (clock w) w || generateValid w = true →
       ∃ b w2 t,
         isQueue_body runQueue (entered url opts (caught e w)) = Some (b, w2)
         ∧ handleErrors e url opts w = Some (hp, retried url opts b hp w2)
         ∧ trace (retried url opts b hp w2) = trace w ++ ObsSend url opts (S hp) :: t
         ∧ last (microtasks (retried url opts b hp w2)) = Some (JThenable hp (S hp)))
  ∧ (refreshValid (clock w) w || generateValid w = false →
       handleErrors e url opts w = Some (hp, surfaced e hp (caught e w))
       ∧ (has_handleErrors (config w) = false →
            outcome hp (surfaced e hp (caught e w)) = Some (Rejected e))
       ∧ (has_handleErrors (config w) = true →
            trace (surfaced e hp (caught e w)) = trace w ++ [ObsHook e (S hp)]
            ∧ outcome (S hp) (surfaced e hp (caught e w))
              = Some (Pending [mkReaction (HHookResume e hp) (HHookThrow hp) None])
            ∧ ∀ v w', run_handler (HHookResume e hp) v w' =
                       (reject hp e ;; mret (Normal VUndef)) w')).
Proof.
  intros H4 hp. split_and!.
  - unfold caught. by rewrite H4.
  - intros Hv.
    destruct (handleErrors_retry e url opts w H4 Hv) as (b & w2 & Hb & Hs & Hh).
    destruct Hs as [_ _ _ _ _ _ _ _ _ [t Ht] _].
    exists b, w2, t. split_and!; try done.
    + cbn. rewrite Ht. cbn. unfold caught. rewrite H4. cbn.
      rewrite length_snoc. by rewrite <- app_assoc.
    + cbn. by rewrite last_snoc.
  - intros Hv. split_and!.
    + apply handleErrors_surface. rewrite Hv. apply andb_false_r.
    + intros Hh. unfold surfaced, caught, outcome. rewrite H4. cbn. rewrite Hh. cbn.
      fold hp. apply list_lookup_insert_eq. rewrite length_snoc. lia.
    + intros Hh. unfold surfaced, caught, outcome. rewrite H4. cbn. rewrite Hh. cbn.
      split_and!; try done.
      unfold hp. rewrite insert_at0, snoc_snoc. apply lookup_at1.
Qed.

Lemma handleErrors_retries_while_recoverable_witness :
  is401 (VErr 401 "no") = true
  ∧ accessStore (caught (VErr 401 "no") after_second_401) = emptyStore.
Proof.
  split; [reflexivity|].
  apply (handleErrors_retries_while_recoverable (VErr 401 "no") "/a" 1%nat after_second_401).
  reflexivity.
Defined.

(** C4 as stated fails: with a valid refresh token a second 401 in a row
    is not surfaced.  The caller's promise stays pending, a new refresh
    is started, and when it resolves the call is sent a third time. *)
Lemma second_401_retried_again :
  ∃ w w',
    exec 50 (take 9 always_401) (init page noOptions cfg_ref) = Some w
    ∧ length (fetches (trace w)) = 2%nat
    ∧ outcome 0 w = Some (Pending [])
    ∧ in_flight w = [(Refresh, 32%nat)]
    ∧ queue w = [mkQueued "/a" 1 35]
    ∧ exec 50 always_401 (init page noOptions cfg_ref) = Some w'
    ∧ (sent_headers <$> fetches (trace w')) =
        [ {[ "authorization"%string := "Bearer t1"%string ]};
          {[ "authorization"%string := "Bearer t2"%string ]};
          {[ "authorization"%string := "Bearer t3"%string ]} ]
    ∧ outcome 0 w' = Some (Pending []).
Proof. do 2 eexists. split_and!; vm_compute; reflexivity. Qed.

(** ** The queue *)

Lemma fulfil_pending p v rs w :
  promises w !! p = Some (Pending rs) →
  fulfil p v w =
    Some (tt, set_microtasks
                (microtasks w ++ map (λ r, JReaction (r_fulfil r) (r_cap r) v) rs)
                (set_promises (<[p := Fulfilled v]> (promises w)) w)).
Proof. intros H. unfold fulfil. munfold. by rewrite H. Qed.

Lemma reject_pending p v rs w :
  promises w !! p = Some (Pending rs) →
  reject p v w =
    Some (tt, set_microtasks
                (microtasks w ++ map (λ r, JReaction (r_reject r) (r_cap r) v) rs)
                (set_promises (<[p := Rejected v]> (promises w)) w)).
Proof. intros H. unfold reject. munfold. by rewrite H. Qed.

Lemma resolve_plain p v w : (∀ q, v ≠ VProm q) → resolve p v w = fulfil p v w.
Proof. intros H. destruct v; try done. by destruct (H p0). Qed.

(** The closures that [runQueue] chains on a replay hand its result to
    the [resolve] and the [reject] of the entry. *)
Lemma queue_reactions_settle_caller np t d : settles_caller np t d.
Proof.
  split_and!.
  - intros v x rs rt Hv Hne Hnp Ht. cbn [run_job run_handler]. mstep.
    rewrite (resolve_plain _ _ _ Hv), (fulfil_pending _ _ _ _ Hnp). cbn.
    rewrite (fulfil_pending t VUndef rt); cycle 1.
    { cbn. by rewrite list_lookup_insert_ne. }
    eexists. split; [reflexivity|]. unfold outcome. cbn. split.
    + rewrite list_lookup_insert_ne by done.
      apply list_lookup_insert_eq. eauto using lookup_lt_Some.
    + by rewrite <- app_assoc.
  - intros e x Ht. cbn [run_job run_handler]. mstep.
    rewrite (reject_pending _ _ _ _ Ht). cbn.
    eexists. split; [reflexivity|]. unfold outcome. cbn. split; [|done].
    apply list_lookup_insert_eq. eauto using lookup_lt_Some.
  - intros e x rs rd Hne Hnp Hd. cbn [run_job run_handler]. mstep.
    rewrite (reject_pending _ _ _ _ Hnp). cbn.
    rewrite (fulfil_pending d VUndef rd); cycle 1.
    { cbn. by rewrite list_lookup_insert_ne. }
    eexists. split; [reflexivity|]. unfold outcome. cbn. split.
    + rewrite list_lookup_insert_ne by done.
      apply list_lookup_insert_eq. eauto using lookup_lt_Some.
    + by rewrite <- app_assoc.
Qed.

(** C5.  [runQueue] always returns and leaves the queue empty; it calls
    the replay of every entry, in the order of the queue; the promise of
    each replay is pending and has the [resolve] and [reject] of its
    entry chained on it; no promise that existed before was touched and
    no microtask ran, so no replay was waited for.  The chained closures
    hand the result over: when a replay is fulfilled, the job that its
    fulfilment schedules fulfils the promise of the entry with the same
    value; when it is rejected, the jobs that follow reject the promise
    of the entry with the same error.  A call that has to wait is put at
    the end of the queue, so the order of the queue is the order of
    arrival, and the promise that [send] returned to the caller follows
    the promise of the entry. *)
Theorem runQueue_fifo w :
  ∃ w', runQueue w = Some (tt, w')
    ∧ queue w' = []
    ∧ replays (trace w') = replays (trace w) ++ queue w
    ∧ Forall (λ h, attached h w') (queue w)
    ∧ promises w `prefix_of` promises w'
    ∧ microtasks w `prefix_of` microtasks w'
    ∧ (∀ np sp t v x,
         promises x !! sp =
           Some (Pending [mkReaction (HQueueResolve np) HThrower (Some t)]) →
         fulfil sp v x =
           Some (tt, set_microtasks
                       (microtasks x ++ [JReaction (HQueueResolve np) (Some t) v])
                       (set_promises (<[sp := Fulfilled v]> (promises x)) x))
         ∧ reject sp v x =
             Some (tt, set_microtasks
                         (microtasks x ++ [JReaction HThrower (Some t) v])
                         (set_promises (<[sp := Rejected v]> (promises x)) x)))
    ∧ (∀ np t d, settles_caller np t d)
    ∧ ∀ url opts sp, ∃ w2,
        send_resume url opts sp true w = Some (tt, w2)
        ∧ queue w2 = queue w ++ [mkQueued url opts (length (promises w))]
        ∧ outcome (length (promises w)) w2 = Some (Pending [])
        ∧ last (microtasks w2) = Some (JThenable sp (length (promises w)))
        ∧ ∀ y, run_job (JThenable sp (length (promises w))) y =
                 (_ ← then_ (length (promises w)) (HResolveFn sp) (HRejectFn sp); mret tt) y.
Proof.
  destruct (runQueue_sync w)
    as (w' & Hr & [_ _ _ _ _ _ _ Hp Hm _ (dn & Hdn & Hrp & Ha)] & Hq).
  rewrite Hq, app_nil_r in Hdn. subst dn.
  exists w'. split_and!; try done.
  - intros np sp t v x Hsp. split.
    + by rewrite (fulfil_pending _ _ _ _ Hsp).
    + by rewrite (reject_pending _ _ _ _ Hsp).
  - apply queue_reactions_settle_caller.
  - intros url opts sp. unfold send_resume. munfold. cbn. eexists.
    split; [reflexivity|]. unfold outcome. cbn. split_and!; try done.
    + apply lookup_at0.
    + by rewrite last_snoc.
Qed.

(** The order of C5 is the order in which the replays are started.  It
    is also the order in which the requests reach [fetch] when the
    operation succeeded.  When it failed and nothing else can be tried,
    the admission of each replay drains the rest of the queue before it
    returns, so the continuations are queued innermost first and the
    requests reach [fetch] in the reverse order. *)
Lemma replay_order_and_fetch_order :
  (∃ w,
     exec 50 (burst_events
                ++ [ESetAccess (mkStore (Some "tok") 3600000 7600000);
                    EResolve 2%nat VUndef]) (init page noOptions cfg_gen) = Some w
     ∧ q_url <$> replays (trace w) = ["/a"; "/b"; "/c"]%string
     ∧ fst ∘ fst <$> fetches (trace w) = ["/a"; "/b"; "/c"]%string)
  ∧ (∃ w,
       exec 50 (burst_events ++ [EReject 2%nat (VErr 500 "down")])
         (init page noOptions cfg_gen) = Some w
       ∧ q_url <$> replays (trace w) = ["/a"; "/b"; "/c"]%string
       ∧ fst ∘ fst <$> fetches (trace w) = ["/c"; "/b"; "/a"]%string).
Proof. split; eexists; split_and!; vm_compute; reflexivity. Qed.

(** Every caller gets the result of its own replay, whatever the order
    of the answers: three calls wait, they are replayed in order and
    answered last first, the first with an error.  The promises that
    [send] returned to the callers are 0, 7 and 11. *)
Lemma queued_calls_get_their_answers :
  ∃ w,
    exec 50 answered_events (init page noOptions cfg_gen) = Some w
    ∧ q_url <$> replays (trace w) = ["/a"; "/b"; "/c"]%string
    ∧ outcome 0 w = Some (Rejected (VErr 404 "a"))
    ∧ outcome 7 w = Some (Fulfilled (VResp 200 "b"))
    ∧ outcome 11 w = Some (Fulfilled (VResp 200 "c"))
    ∧ queue w = [] ∧ microtasks w = [].
Proof. eexists. split_and!; vm_compute; reflexivity. Qed.

(** ** Admission *)

(** C6.  When [pending] is not [SYNC] and [accessStore.exp > now],
    [isQueue] answers that the call proceeds.  [config.renew] is called,
    and [pending] becomes [ASYNC], exactly when [renewValid(now)] holds
    and [pending] is [NONE]; otherwise nothing changes.  [renewValid(now)]
    is: renew configured and [exp - delay < now - 900000], that is 15
    minutes in milliseconds. *)
Theorem isQueue_access_valid w :
  pending w ≠ SYNC →
  exp (accessStore w) > clock w →
  ∃ w', isQueue_body runQueue w = Some (false, w')
    ∧ (calls Renew w' = S (calls Renew w)
         ↔ renewValid (clock w) w = true ∧ pending w = NONE)
    ∧ (calls Renew w' = S (calls Renew w) →
         w' = started Renew ASYNC HRenewCatch w ∧ pending w' = ASYNC)
    ∧ (calls Renew w' ≠ S (calls Renew w) → w' = w)
    ∧ queue w' = queue w
    ∧ renewValid (clock w) w =
        has_renew (config w)
        && (exp (accessStore w) - delay (accessStore w) <? clock w - 900000).
Proof.
  intros Hp He. rewrite isQueue_body_valid by (done || lia).
  eexists. split; [reflexivity|].
  assert (renewValid (clock w) w =
          has_renew (config w)
          && (exp (accessStore w) - delay (accessStore w) <? clock w - 900000)) as Hdef
    by reflexivity.
  rewrite <- Hdef. clear Hdef.
  destruct (renewValid (clock w) w) eqn:Hrv; cbn [andb].
  - destruct (decide (pending w = NONE)) as [Hn|Hn].
    + rewrite bool_decide_eq_true_2 by done. rewrite calls_started.
      rewrite bool_decide_eq_true_2 by done. split_and!; try done.
    + rewrite bool_decide_eq_false_2 by done. split_and!; try done.
      * split; [lia|]. by intros [_ ?].
      * lia.
  - split_and!; try done.
    + split; [lia|]. by intros [? _].
    + lia.
Qed.

Lemma isQueue_access_valid_witness :
  pending renewable ≠ SYNC
  ∧ exp (accessStore renewable) > clock renewable
  ∧ ∃ w', isQueue_body runQueue renewable = Some (false, w')
          ∧ (calls Renew w' = S (calls Renew renewable)
             ↔ renewValid (clock renewable) renewable = true ∧ pending renewable = NONE).
Proof.
  split; [discriminate|]. split; [reflexivity|].
  destruct (isQueue_access_valid renewable) as (w' & H1 & H2 & _);
    [discriminate|reflexivity|].
  exists w'. split; [exact H1|exact H2].
Defined.

(** C7, amended.  While [pending] is [ASYNC] and the access token is
    still valid ([accessStore.exp > now]), a new call proceeds at once:
    admission changes nothing, the call is handed to [Fetch.send] with
    the current token and is not queued, and no callback is called.  Its
    request reaches [fetch] unless [Fetch.send] cannot build it. *)
Theorem async_proceeds_while_valid url opts o w :
  pending w = ASYNC →
  exp (accessStore w) > clock w →
  objects w !! opts = Some o →
  let sp := length (promises w) in
  let w1 := resumed url opts sp false (entered url opts w) in
  let w2 := dispatched url opts sp o w1 in
  isQueue_body runQueue w = Some (false, w)
  ∧ send url opts w = Some (sp, w1)
  ∧ send_resume url opts sp false w1 = Some (tt, w2)
  ∧ objects w2 !! opts = Some (authorised (accessStore w) o)
  ∧ fetches (trace w2) =
      fetches (trace w)
        ++ request_of (built url opts (authorised (accessStore w) o) w) url opts
  ∧ queue w2 = queue w
  ∧ pending w2 = ASYNC
  ∧ (∀ op, calls op w2 = calls op w).
Proof.
  intros Hp He Ho sp w1 w2.
  assert (∀ X (f g : _ → X),
            match built url opts (authorised (accessStore w) o) w1 with
            | inr r => f r | inl e => g e end =
            match built url opts (authorised (accessStore w) o) w with
            | inr r => f r | inl e => g e end) as Hb by done.
  split_and!.
  - by apply isQueue_body_ASYNC_valid.
  - apply send_let_through. by apply isQueue_body_ASYNC_valid.
  - by apply send_resume_false.
  - unfold w2, dispatched. cbn. destruct (built _ _ _ _); cbn;
      apply list_lookup_insert_eq; eauto using lookup_lt_Some.
  - unfold w2. rewrite fetches_dispatched. cbn. rewrite fetches_app, app_nil_r.
    done.
  - unfold w2, dispatched. by destruct (built _ _ _ _).
  - unfold w2, dispatched. by destruct (built _ _ _ _).
  - intros op. unfold w2, dispatched, calls, strategy_calls.
    destruct (built _ _ _ _); cbn; rewrite !omap_app; cbn; by rewrite !app_nil_r.
Qed.

Lemma async_proceeds_while_valid_witness :
  pending renewing = ASYNC
  ∧ exp (accessStore renewing) > clock renewing
  ∧ objects renewing !! 1%nat = Some (authorised (mkStore (Some "tok") 3600000 5000000) noOptions)
  ∧ send "/b" 1%nat renewing
      = Some (length (promises renewing),
              resumed "/b" 1 (length (promises renewing)) false (entered "/b" 1 renewing)).
Proof.
  split_and!; [reflexivity|reflexivity|reflexivity|].
  apply (async_proceeds_while_valid "/b" 1%nat
           (authorised (mkStore (Some "tok") 3600000 5000000) noOptions) renewing);
    reflexivity.
Defined.

(** C7 as stated fails: the access token can expire while the renew is
    in flight.  A call that arrives then, with a valid refresh token, is
    queued and nothing is sent, although [pending] was [ASYNC]. *)
Lemma async_call_queued_after_expiry :
  ∃ w w',
    exec 50 renewing_events (init page noOptions cfg_rr) = Some w
    ∧ pending w = ASYNC
    ∧ in_flight w = [(Renew, 2%nat)]
    ∧ exec 50 [EClock 5000001; ESend "/b" 1%nat] w = Some w'
    ∧ queue w' = [mkQueued "/b" 1 12]
    ∧ fetches (trace w') = fetches (trace w)
    ∧ in_flight w' = [(Renew, 2%nat)].
Proof.
  exists renewing. eexists. split_and!; try (vm_compute; reflexivity).
  all: vm_compute; reflexivity.
Qed.

Lemma built_frame url opts o w w' :
  parser w' = parser w → objects w' = objects w → options w' = options w →
  built url opts o w' = built url opts o w.
Proof. intros Hp Ho Hd. unfold built, written, defaults. cbn. by rewrite Hp, Ho, Hd. Qed.

Lemma objects_dispatched url opts sp o w :
  objects (dispatched url opts sp o w) = <[opts := authorised (accessStore w) o]> (objects w).
Proof. unfold dispatched. by destruct (built _ _ _ _). Qed.

Lemma queue_dispatched url opts sp o w : queue (dispatched url opts sp o w) = queue w.
Proof. unfold dispatched. by destruct (built _ _ _ _). Qed.

Lemma authorised_empty o : authorised emptyStore o = o.
Proof. done. Qed.


(** C8, amended.  With no strategy configured every call proceeds, in
    every state an instance can reach.  When the access token is valid
    admission changes nothing, so the call is handed on with the stored
    token; when it is not, admission resets both stores, drains the
    queue and lets the call through without a usable token: [send] adds
    no header and the options object goes out as it is, with whatever an
    earlier call left in it.  A failure is never retried: [handleErrors]
    surfaces it, a 401 included. *)
Theorem no_strategy_proceeds pf o c url opts w :
  no_strategy c →
  reachable pf o c w →
  let sp := length (promises w) in
  ∃ w2,
    isQueue_body runQueue (entered url opts w) = Some (false, w2)
    ∧ send url opts w = Some (sp, resumed url opts sp false w2)
    ∧ pending w2 = NONE
    ∧ (exp (accessStore w) > clock w → w2 = entered url opts w)
    ∧ (exp (accessStore w) ≤ clock w →
         runQueue (set_refreshStore emptyStore
                     (set_accessStore emptyStore (entered url opts w))) = Some (tt, w2)
         ∧ accessStore w2 = emptyStore
         ∧ refreshStore w2 = emptyStore
         ∧ queue w2 = [])
    ∧ (∀ ob, objects w !! opts = Some ob →
         let w3 := resumed url opts sp false w2 in
         let w4 := dispatched url opts sp ob w3 in
         send_resume url opts sp false w3 = Some (tt, w4)
         ∧ queue w4 = queue w2
         ∧ objects w4 !! opts = Some (authorised (accessStore w2) ob)
         ∧ fetches (trace w4) =
             fetches (trace w2)
               ++ request_of (built url opts (authorised (accessStore w2) ob) w) url opts
         ∧ (exp (accessStore w) ≤ clock w →
              authorised (accessStore w2) ob = ob ∧ objects w4 = objects w))
    ∧ (∀ e x, idle x →
         handleErrors e url opts x =
           Some (length (promises x), surfaced e (length (promises x)) (caught e x))).
Proof.
  intros Hc Hr sp.
  assert (idle (entered url opts w)) as Hi by (eapply (reachable_idle pf o c w); done).
  pose proof (isQueue_body_idle runQueue _ Hi) as Hb.
  change (exp (accessStore (entered url opts w))) with (exp (accessStore w)) in Hb.
  change (clock (entered url opts w)) with (clock w) in Hb.
  assert (∀ e x, idle x →
            handleErrors e url opts x =
              Some (length (promises x), surfaced e (length (promises x)) (caught e x)))
    as Hsurf.
  { intros e x Hx. apply handleErrors_surface.
    rewrite idle_refreshValid, idle_generateValid by done. apply andb_false_r. }
  assert (∀ w2 ob, objects w2 = objects w → parser w2 = parser w → options w2 = options w →
            objects w !! opts = Some ob →
            let w3 := resumed url opts sp false w2 in
            let w4 := dispatched url opts sp ob w3 in
            send_resume url opts sp false w3 = Some (tt, w4)
            ∧ queue w4 = queue w2
            ∧ objects w4 !! opts = Some (authorised (accessStore w2) ob)
            ∧ fetches (trace w4) =
                fetches (trace w2)
                  ++ request_of (built url opts (authorised (accessStore w2) ob) w) url opts
            ∧ (accessStore w2 = emptyStore →
                 authorised (accessStore w2) ob = ob ∧ objects w4 = objects w))
    as Hgo.
  { intros w2 ob Ho Hpf Hd Hob w3 w4.
    assert (built url opts (authorised (accessStore w2) ob) w3
            = built url opts (authorised (accessStore w2) ob) w) as Hbl
      by (by apply built_frame).
    split_and!.
    - apply send_resume_false. cbn. by rewrite Ho.
    - unfold w4. by rewrite queue_dispatched.
    - unfold w4. rewrite objects_dispatched.
      change (objects w3) with (objects w2). change (accessStore w3) with (accessStore w2).
      rewrite Ho. apply list_lookup_insert_eq; eauto using lookup_lt_Some.
    - unfold w4. rewrite fetches_dispatched.
      change (accessStore w3) with (accessStore w2). by rewrite Hbl.
    - intros Ha. rewrite Ha. split; [done|]. unfold w4. rewrite objects_dispatched.
      change (objects w3) with (objects w2). change (accessStore w3) with (accessStore w2).
      rewrite Ha, authorised_empty, Ho. by apply list_insert_id. }
  destruct (exp (accessStore w) >? clock w) eqn:He.
  - exists (entered url opts w). split_and!; try done.
    + by apply send_let_through.
    + by destruct Hi.
    + lia.
    + intros ob Hob. destruct (Hgo (entered url opts w) ob) as (H1 & H2 & H3 & H4 & _);
        try done. split_and!; try done. lia.
  - destruct (runQueue_sync (set_refreshStore emptyStore
                (set_accessStore emptyStore (entered url opts w))))
      as (w2 & Hrq & Hs & Hq).
    rewrite Hrq in Hb. exists w2.
    assert (idle w2) as Hi2.
    { eapply keeps_runQueue; [|exact Hrq]. done. }
    assert (accessStore w2 = emptyStore) as Ha by (by destruct (sync_access _ _ Hs)).
    split_and!; try done.
    + apply send_with_eq; [done|].
      eapply prefix_lookup_Some; [|apply Hs]. cbn. apply lookup_at1.
    + by destruct Hi2.
    + lia.
    + intros _. split_and!; try done.
      by destruct (sync_refresh _ _ Hs).
    + intros ob Hob.
      destruct (Hgo w2 ob) as (H1 & H2 & H3 & H4 & H5); try done.
      * by rewrite (sync_objects _ _ Hs).
      * by rewrite (sync_parser _ _ Hs).
      * by rewrite (sync_options _ _ Hs).
      * split_and!; try done. intros _. by apply H5.
Qed.

Lemma no_strategy_proceeds_witness :
  no_strategy cfg_none
  ∧ reachable page noOptions cfg_none bare
  ∧ ∃ w2, send "/a" 1%nat bare = Some (0%nat, resumed "/a" 1 0 false w2).
Proof.
  split_and!; [by repeat split|apply bare_reachable|].
  destruct (no_strategy_proceeds page noOptions cfg_none "/a" 1%nat bare)
    as (w2 & _ & Hs & _); [by repeat split|apply bare_reachable|].
  exists w2. exact Hs.
Defined.

(** C8 as stated fails: with no strategy and a valid token stored by the
    embedder, admission does not reset the store and the call is sent
    with the bearer header. *)
Lemma no_strategy_valid_token_kept :
  no_strategy cfg_none
  ∧ ∃ w,
      exec 50 (bare_events ++ [ESend "/a" 1%nat]) (init page noOptions cfg_none) = Some w
      ∧ accessStore w = mkStore (Some "tok") 3600000 5000000
      ∧ (sent_headers <$> fetches (trace w))
          = [ {[ "authorization"%string := "Bearer tok"%string ]} ].
Proof.
  split; [by repeat split|]. eexists. split_and!; vm_compute; reflexivity.
Qed.

(** ** The options object *)

(** C9, amended.  A call that proceeds hands the caller's options object
    to [Fetch.send].  When [accessStore.token] is truthy (not [null] and
    not the empty string) its [headers] are replaced by a copy in which
    the key [Authorization] holds [Bearer <token>]; every other key of
    the options, and every other key of [headers] (keys are compared
    exactly, so [authorization] in another case is another key), is as
    the caller gave it.  When the token is falsy the object is passed as
    it is.  [Fetch.send] then builds the [Headers] of the request from
    the headers of the merged options, where names are read without
    regard to case: a name carries the values that the object holds
    under it in any case, joined in the order of the keys, and
    [Content-Type] is [application/json] when a [json] body is given,
    whatever the caller gave.  So the request carries [Bearer <token>]
    alone under [Authorization] when the caller gave no header of that
    name in another case.  The request is built, and reaches [fetch],
    exactly when the url parses, every header is valid and the [json]
    payload can be serialised. *)
Theorem send_injects_bearer url opts sp o w :
  objects w !! opts = Some o →
  let o' := authorised (accessStore w) o in
  let w' := dispatched url opts sp o w in
  let cfg := Fetch_config (defaults (written opts o' w)) o' in
  send_resume url opts sp false w = Some (tt, w')
  ∧ objects w' !! opts = Some o'
  ∧ fetches (trace w') = fetches (trace w) ++ request_of (built url opts o' w) url opts
  ∧ with_headers (headers o) o' = o
  ∧ (∀ k, k ≠ "Authorization"%string →
       get_key k (nullish (headers o') []) = get_key k (nullish (headers o) []))
  ∧ filter (λ kv, kv.1 ≠ "Authorization"%string) (nullish (headers o') [])
      = filter (λ kv, kv.1 ≠ "Authorization"%string) (nullish (headers o) [])
  ∧ (∀ t, token (accessStore w) = Some t → t ≠ ""%string →
       get_key "Authorization" (nullish (headers o') []) = Some ("Bearer " +:+ t)%string)
  ∧ (truthy (token (accessStore w)) = false → o' = o)
  ∧ (∀ r name, built url opts o' w = inr r →
       Headers_get (init_headers (call_init r)) name =
         match json cfg with
         | Given _ =>
             if decide (lower name = "content-type"%string)
             then Some "application/json"%string
             else joined (same_name name (nullish (headers cfg) []))
         | _ => joined (same_name name (nullish (headers cfg) []))
         end)
  ∧ (∀ t r, token (accessStore w) = Some t → t ≠ ""%string →
       NoDup (nullish (headers o) []).*1 →
       (∀ k, k ∈ (nullish (headers o) []).*1 →
          lower k = "authorization"%string → k = "Authorization"%string) →
       built url opts o' w = inr r →
       Headers_get (init_headers (call_init r)) "Authorization"
         = Some (normalize ("Bearer " +:+ t)))
  ∧ ((∃ r, built url opts o' w = inr r) ↔
       parser w url (match baseUrl cfg with Given b => Some b | _ => None end) = true
       ∧ valid_headers (nullish (headers cfg) []) = true
       ∧ json cfg ≠ Given JsonThrows).
Proof.
  intros Ho o' w' cfg. split_and!.
  - by apply send_resume_false.
  - unfold w'. rewrite objects_dispatched.
    apply list_lookup_insert_eq; eauto using lookup_lt_Some.
  - apply fetches_dispatched.
  - apply authorised_other_keys.
  - intros k Hk. unfold o', authorised. destruct (truthy _); [|done].
    cbn. by apply get_key_set_key_ne.
  - unfold o', authorised. destruct (truthy _); [|done]. cbn. apply set_key_others.
  - intros t Ht Hne. unfold o', authorised, truthy. rewrite Ht.
    destruct (String.eqb_spec t ""); [done|]. cbn. apply get_key_set_key.
  - intros Ht. unfold o', authorised. by rewrite Ht.
  - intros r name Hr. by apply (Fetch_request_get _ _ _ _ _ name Hr).
  - intros t r Ht Hne Hnd Hk Hr.
    rewrite (Fetch_request_get _ _ _ _ _ "Authorization" Hr). fold cfg.
    assert (headers cfg
            = Given (set_key "Authorization" ("Bearer " +:+ t) (nullish (headers o) []))) as Hh.
    { unfold cfg, Fetch_config, o', authorised, truthy. rewrite Ht.
      destruct (String.eqb_spec t ""); [done|]. done. }
    rewrite Hh. cbn [nullish]. rewrite same_name_set_key by done.
    by destruct (json cfg).
  - apply Fetch_request_builds.
Qed.

Lemma send_injects_bearer_witness :
  objects bare !! 1%nat = Some noOptions
  ∧ send_resume "/a" 1 0 false bare = Some (tt, dispatched "/a" 1 0 noOptions bare)
  ∧ objects (dispatched "/a" 1 0 noOptions bare) !! 1%nat = Some (bearer "tok").
Proof.
  split; [reflexivity|].
  destruct (send_injects_bearer "/a" 1%nat 0%nat noOptions bare) as (H1 & H2 & _);
    [reflexivity|].
  split; [exact H1|]. rewrite H2. vm_compute. reflexivity.
Defined.

(** C9 as stated fails, three times.  A token that is the empty string
    is not [null], and no header is added.  On the way to [fetch] a
    header of the caller other than [Authorization] is overwritten: with
    a [json] body, the caller's [Content-Type] is replaced, in whatever
    case the caller wrote it.  And a header that the caller gave as
    [authorization] is not left as it was: the request carries it joined
    with the bearer. *)
Lemma options_not_passed_as_claimed :
  (∃ w,
     exec 50 [ ENewOptions noOptions;
               ESetAccess (mkStore (Some ""%string) 3600000 5000000);
               EClock 4000000;
               ESend "/a" 1%nat ] (init page noOptions cfg_none) = Some w
     ∧ token (accessStore w) ≠ None
     ∧ (sent_headers <$> fetches (trace w)) = [ ∅ ]
     ∧ objects w = [ noOptions; noOptions ])
  ∧ (∃ w,
       exec 50 [ ENewOptions patch_options;
                 EClock 4000000;
                 ESend "/a" 1%nat ] (init page noOptions cfg_none) = Some w
       ∧ headers patch_options
           = Given [("Content-Type"%string, "application/merge-patch+json"%string)]
       ∧ (sent_headers <$> fetches (trace w))
           = [ {[ "content-type"%string := "application/json"%string ]} ])
  ∧ (∃ w,
       exec 50 [ ENewOptions csv_options;
                 EClock 4000000;
                 ESend "/a" 1%nat ] (init page noOptions cfg_none) = Some w
       ∧ (sent_headers <$> fetches (trace w))
           = [ {[ "content-type"%string := "application/json"%string ]} ])
  ∧ (∃ w,
       exec 50 [ ENewOptions basic_options;
                 ESetAccess (mkStore (Some "tok") 3600000 5000000);
                 EClock 4000000;
                 ESend "/a" 1%nat ] (init page noOptions cfg_none) = Some w
       ∧ headers <$> objects w !! 1%nat
           = Some (Given [("authorization"%string, "Basic abc"%string);
                          ("Authorization"%string, "Bearer tok"%string)])
       ∧ (sent_headers <$> fetches (trace w))
           = [ {[ "authorization"%string := "Basic abc, Bearer tok"%string ]} ]).
Proof.
  split_and!; eexists; (split_and!; [vm_compute; reflexivity|..]);
    first [done | vm_compute; reflexivity].
Qed.



(** The header of a first attempt is sent again by a replay that runs
    without a token: the call was answered 401, the access store was
    reset, the generate it waited for failed, and the replay went out
    with the old bearer header still in the caller's object. *)
Lemma stale_bearer_carried :
  exec 50 stale_events (init page noOptions cfg_gen) = Some stale
  ∧ token (accessStore stale) = None
  ∧ objects stale = [ noOptions; bearer "tok" ]
  ∧ (sent_headers <$> fetches (trace stale)) =
      [ {[ "authorization"%string := "Bearer tok"%string ]};
        {[ "authorization"%string := "Bearer tok"%string ]} ].
Proof. split_and!; vm_compute; reflexivity. Qed.

(** * Further properties of the code *)

(** ** Invariants of the runs *)

Section invariant.
Variable P : World → Prop.

Lemma preserves_ret {A} (a : A) : preserves P (mret a).
Proof. intros w a' w' Hw [= <- <-]. done. Qed.

Lemma preserves_fail {A} : preserves P (@fail A).
Proof. intros w a w' _ [=]. Qed.

Lemma preserves_gets {A} (f : World → A) : preserves P (gets f).
Proof. intros w a w' Hw [= <- <-]. done. Qed.

Lemma preserves_bind {A B} (m : M A) (f : A → M B) :
  preserves P m → (∀ a, preserves P (f a)) → preserves P (m ≫= f).
Proof.
  intros Hm Hf w b w' Hw. unfold mbind, M_bind.
  destruct (m w) as [[a w1]|] eqn:E; [|done]. intros Hb.
  eapply Hf; [|exact Hb]. eapply Hm; [|exact E]. done.
Qed.

Lemma preserves_modify (f : World → World) :
  (∀ w, P w → P (f w)) → preserves P (modify f).
Proof. intros Hf w a w' Hw [= <- <-]. auto. Qed.

(** A computation that starts by reading the state. *)
Lemma preserves_gets_dep {A B} (g : World → A) (f : A → M B) :
  (∀ w b w', P w → f (g w) w = Some (b, w') → P w') → preserves P (gets g ≫= f).
Proof. intros H w b w' Hw. exact (H w b w' Hw). Qed.

Lemma modify_inv {B} (g : World → World) (k : M B) w b w' :
  (modify g ;; k) w = Some (b, w') → k (g w) = Some (b, w').
Proof. done. Qed.

Lemma bind_inv {A B} (m : M A) (f : A → M B) w b w' :
  (m ≫= f) w = Some (b, w') → ∃ a w1, m w = Some (a, w1) ∧ f a w1 = Some (b, w').
Proof.
  unfold mbind, M_bind. destruct (m w) as [[a w1]|]; [|done]. eauto.
Qed.

Ltac pres_core frame :=
  first
    [ assumption | solve [auto 2]
    | apply preserves_ret | apply preserves_fail | apply preserves_gets
    | apply preserves_modify; intros ? ?; frame; assumption
    | apply preserves_bind; [|intros ?]
    | match goal with
      | |- preserves _ (match ?x with _ => _ end) => destruct x
      | |- preserves _ (if ?x then _ else _) => destruct x
      | |- preserves _ (let _ := _ in _) => cbv zeta
      end ].

(** *** The promise kernel *)

Section kernel.
Hypothesis P_promises : ∀ x w, P w → P (set_promises x w).
Hypothesis P_microtasks : ∀ x w, P w → P (set_microtasks x w).
#[local] Set Default Proof Using "All".

Ltac pres_kernel :=
  repeat pres_core ltac:(first [ assumption | apply P_promises | apply P_microtasks ]).

Lemma preserves_new_promise s : preserves P (new_promise s).
Proof. intros w a w' Hw [= <- <-]. by apply P_promises. Qed.

Lemma preserves_get_promise p : preserves P (get_promise p).
Proof. intros w a w' Hw. unfold get_promise. case_match; intros [= <- <-]; done. Qed.

Lemma preserves_put_promise p s : preserves P (put_promise p s).
Proof. unfold put_promise. pres_kernel. Qed.

Lemma preserves_enqueue j : preserves P (enqueue j).
Proof. unfold enqueue. pres_kernel. Qed.

Lemma preserves_fulfil p v : preserves P (fulfil p v).
Proof.
  pose proof preserves_get_promise. pose proof preserves_put_promise.
  unfold fulfil. pres_kernel.
Qed.

Lemma preserves_reject p v : preserves P (reject p v).
Proof.
  pose proof preserves_get_promise. pose proof preserves_put_promise.
  unfold reject. pres_kernel.
Qed.

Lemma preserves_resolve p v : preserves P (resolve p v).
Proof.
  pose proof preserves_fulfil. pose proof preserves_enqueue.
  unfold resolve. pres_kernel.
Qed.

Lemma preserves_perform_then p r : preserves P (perform_then p r).
Proof.
  pose proof preserves_get_promise. pose proof preserves_put_promise.
  pose proof preserves_enqueue.
  unfold perform_then. pres_kernel.
Qed.

Lemma preserves_then p hf hr : preserves P (then_ p hf hr).
Proof.
  pose proof preserves_new_promise. pose proof preserves_perform_then.
  unfold then_. pres_kernel.
Qed.

(** *** The guards of admission *)

Section guards.
Variable call_generate : bool.
Hypothesis P_pending : ∀ x w, P w → P (set_pending x w).
Hypothesis P_resetAccess : ∀ w, P w → P (set_accessStore emptyStore w).
Hypothesis P_resetRefresh : ∀ w, P w → P (set_refreshStore emptyStore w).
Hypothesis P_strategy : ∀ op p w,
  (op = Generate → generateValid w || call_generate = true) →
  P w → P (set_trace (trace w ++ [ObsStrategy op p]) w).

Lemma preserves_started op mode h w :
  (op = Generate → generateValid w || call_generate = true) →
  P w → P (started op mode h w).
Proof.
  intros Hg Hw. unfold started.
  apply (P_strategy _ _ (set_promises _ (set_pending mode w))); [done|].
  by apply P_promises, P_pending.
Qed.

Lemma preserves_renew : preserves P renew.
Proof.
  intros w a w' Hw. destruct (has_renew (config w)) eqn:E.
  - rewrite renew_started by done. intros [= <- <-]. by apply preserves_started.
  - unfold renew. mstep. rewrite E. cbn. intros [= <- <-]. by apply P_promises.
Qed.

Lemma preserves_refresh : preserves P refresh.
Proof.
  intros w a w' Hw. destruct (has_refresh (config w)) eqn:E.
  - rewrite refresh_started by done. intros [= <- <-]. by apply preserves_started.
  - unfold refresh. mstep. rewrite E. cbn. intros [= <- <-]. by apply P_promises.
Qed.

(** [generate] is only safe where the invariant allows it. *)
Lemma preserves_generate w a w' :
  generateValid w || call_generate = true →
  P w → generate w = Some (a, w') → P w'.
Proof.
  intros Hg Hw. destruct (has_generate (config w)) eqn:E.
  - rewrite generate_started by done. intros [= <- <-]. by apply preserves_started.
  - unfold generate. mstep. rewrite E. cbn. intros [= <- <-]. by apply P_promises.
Qed.

Lemma preserves_isQueue_body rq : preserves P rq → preserves P (isQueue_body rq).
Proof.
  intros Hrq w b w' Hw.
  destruct (decide (pending w = SYNC)) as [Hp|Hp].
  { rewrite isQueue_body_SYNC by done. by intros [= <- <-]. }
  destruct (exp (accessStore w) >? clock w) eqn:He.
  { rewrite isQueue_body_valid by done. intros [= <- <-].
    destruct (_ && _); [by apply preserves_started|done]. }
  destruct (refreshValid (clock w) w) eqn:Hr.
  { rewrite isQueue_body_refresh by done. intros [= <- <-].
    apply P_pending. destruct (bool_decide _).
    - apply preserves_started; [done|]. by apply P_resetAccess.
    - by apply P_resetAccess. }
  destruct (generateValid w) eqn:Hg.
  { rewrite isQueue_body_generate by done. intros [= <- <-].
    apply P_pending. destruct (bool_decide _).
    - apply preserves_started.
      + intros _. change (generateValid _) with (generateValid w). by rewrite Hg.
      + by apply P_resetRefresh, P_resetAccess.
    - by apply P_resetRefresh, P_resetAccess. }
  rewrite isQueue_body_degraded by done.
  destruct (rq _) as [[[] w1]|] eqn:E; [|done]. intros [= <- <-].
  eapply Hrq; [|exact E]. by apply P_resetRefresh, P_resetAccess.
Qed.
End guards.

(** *** [send] and [runQueue] *)

Section queue.
Hypothesis P_isQueue : ∀ rq, preserves P rq → preserves P (isQueue_body rq).
Hypothesis P_sent : ∀ url opts sp w, P w → P (set_trace (trace w ++ [ObsSend url opts sp]) w).
Hypothesis P_replay : ∀ h q' w, queue w = h :: q' → P w →
  P (set_trace (trace w ++ [ObsReplay h]) (set_queue q' w)).

Ltac pres_queue :=
  repeat pres_core ltac:(first
    [ assumption | apply P_promises | apply P_microtasks | apply P_sent ]).

Lemma preserves_send_with rq url opts :
  preserves P rq → preserves P (send_with rq url opts).
Proof.
  intros Hrq. pose proof (P_isQueue rq Hrq).
  pose proof preserves_new_promise. pose proof preserves_resolve.
  pose proof preserves_perform_then.
  unfold send_with, isQueue_with, await, observe. pres_queue.
Qed.

Lemma preserves_runQueue_fuel n : preserves P (runQueue_fuel n).
Proof.
  induction n as [|n IH]; cbn [runQueue_fuel]; [apply preserves_fail|].
  pose proof (preserves_send_with (runQueue_fuel n)) as Hsend.
  pose proof preserves_then as Hthen.
  assert (preserves P (q ← gets queue;
                       match q with [] => mret tt | _ :: _ => runQueue_fuel n end))
    as Hrest by pres_queue.
  apply preserves_gets_dep. intros w a w' Hw.
  destruct (queue w) as [|h q'] eqn:Hq.
  { intros (? & w1 & [= <- <-] & Hk)%bind_inv. by apply (Hrest w a w'). }
  intros (? & w1 & Hh & Hk)%bind_inv. apply (Hrest w1 a w'); [|done].
  apply modify_inv in Hh. unfold observe in Hh.
  apply modify_inv in Hh. revert Hh.
  apply (preserves_bind _ _ (Hsend _ _ IH)); [|exact (P_replay h q' w Hq Hw)].
  intros sp. unfold catch_. pres_queue.
Qed.

Lemma preserves_runQueue_if : preserves P runQueue.
Proof. intros w a w' Hw. by apply preserves_runQueue_fuel. Qed.

Lemma preserves_send_if url opts : preserves P (send url opts).
Proof. apply preserves_send_with, preserves_runQueue_if. Qed.
End queue.

(** *** The whole program *)

Section program.
Variables call_generate connect : bool.
Hypothesis P_new : ∀ o w, P w → P (set_objects (objects w ++ [o]) w).
Hypothesis P_write : ∀ opts o hs w, objects w !! opts = Some o → P w →
  P (set_objects (<[opts := with_headers hs o]> (objects w)) w).
Hypothesis P_pending : ∀ x w, P w → P (set_pending x w).
Hypothesis P_access : ∀ x w, P w → P (set_accessStore x w).
Hypothesis P_refresh : ∀ x w, P w → P (set_refreshStore x w).
Hypothesis P_clock : ∀ x w, P w → P (set_clock x w).
Hypothesis P_disconnect : ∀ w, P w → P (disconnected w).
Hypothesis P_connect : connect = true → ∀ w, P w →
  P (set_config (mkConfig true (has_generate (config w)) (has_renew (config w))
                   (has_refresh (config w)) (has_handleErrors (config w))) w).
Hypothesis P_plain : ∀ o w, plain o = true → P w → P (set_trace (trace w ++ [o]) w).
Hypothesis P_generate : ∀ p w, generateValid w || call_generate = true → P w →
  P (set_trace (trace w ++ [ObsStrategy Generate p]) w).
Hypothesis P_enqueue : ∀ h w, P w →
  P (set_trace (trace w ++ [ObsEnqueue h]) (set_queue (queue w ++ [h]) w)).
Hypothesis P_replay : ∀ h q' w, queue w = h :: q' → P w →
  P (set_trace (trace w ++ [ObsReplay h]) (set_queue q' w)).

Ltac pres_tac :=
  repeat pres_core ltac:(first
    [ assumption
    | apply P_promises | apply P_microtasks | apply P_new
    | apply P_pending | apply P_access | apply P_refresh | apply P_clock
    | apply P_plain; [reflexivity|] ]).

Lemma P_strategy op p w :
  (op = Generate → generateValid w || call_generate = true) →
  P w → P (set_trace (trace w ++ [ObsStrategy op p]) w).
Proof.
  intros Hg Hw. destruct op; [|by apply P_plain..].
  apply P_generate; [by apply Hg|done].
Qed.

Lemma P_started op mode h w :
  (op = Generate → generateValid w || call_generate = true) →
  P w → P (started op mode h w).
Proof.
  apply (preserves_started call_generate); auto using P_strategy.
Qed.

Lemma preserves_isQueue rq : preserves P rq → preserves P (isQueue_body rq).
Proof.
  apply (preserves_isQueue_body call_generate); auto using P_strategy.
Qed.

Lemma preserves_runQueue : preserves P runQueue.
Proof.
  apply preserves_runQueue_if; [apply preserves_isQueue| |done].
  intros. by apply P_plain.
Qed.

Lemma preserves_send url opts : preserves P (send url opts).
Proof.
  apply preserves_send_if; [apply preserves_isQueue| |done].
  intros. by apply P_plain.
Qed.

Lemma preserves_Fetch_send url opts : preserves P (Fetch_send url opts).
Proof.
  pose proof preserves_new_promise. pose proof preserves_resolve.
  pose proof preserves_reject. pose proof preserves_then.
  unfold Fetch_send, external, catch_, observe. pres_tac.
Qed.

Lemma preserves_send_resume url opts sp b : preserves P (send_resume url opts sp b).
Proof.
  pose proof preserves_new_promise. pose proof preserves_resolve.
  pose proof preserves_Fetch_send.
  destruct b; unfold send_resume.
  - apply preserves_bind; [done|]. intros np. cbv zeta.
    intros w a w' Hw Hk%modify_inv. unfold observe in Hk.
    apply modify_inv in Hk. revert Hk.
    apply preserves_resolve. exact (P_enqueue _ w Hw).
  - apply preserves_gets_dep. intros w a w' Hw (? & w1 & Hh & Hk)%bind_inv.
    assert (P w1) as Hw1.
    { destruct (truthy _); [|by injection Hh as <- <-].
      revert Hh. apply preserves_gets_dep; [|exact Hw]. intros y b y' Hy.
      destruct (objects y !! opts) as [o|] eqn:E; [|done].
      intros [= <- <-]. by apply P_write. }
    revert Hk. apply preserves_bind; [done|intros fp; done|done].
Qed.

Lemma preserves_handleErrors e url opts : preserves P (handleErrors e url opts).
Proof.
  pose proof preserves_new_promise. pose proof preserves_resolve.
  pose proof preserves_send. pose proof preserves_reject.
  pose proof preserves_perform_then.
  unfold handleErrors, resetAccess, external, await, observe. pres_tac.
Qed.

Lemma preserves_finally_callback op : preserves P (finally_callback op).
Proof.
  pose proof preserves_runQueue.
  unfold finally_callback, observe. pres_tac.
Qed.

Lemma preserves_run_handler h arg : preserves P (run_handler h arg).
Proof.
  pose proof preserves_new_promise. pose proof preserves_resolve.
  pose proof preserves_reject. pose proof preserves_then.
  pose proof preserves_finally_callback. pose proof preserves_send_resume.
  pose proof preserves_handleErrors.
  destruct h; try (cbn [run_handler]; pres_tac; fail).
  - intros w a w' Hw. rewrite generate_catch. intros [= <- <-]. by apply P_disconnect.
  - intros w a w' Hw. rewrite renew_catch. cbv zeta.
    destruct (refreshValid (clock w) w).
    { intros [= <- <-]. apply P_started; [done|]. by apply P_access. }
    destruct (generateValid w) eqn:Hg; intros [= <- <-].
    + apply P_started; [|by apply P_refresh, P_access].
      intros _. change (generateValid _) with (generateValid w). by rewrite Hg.
    + by apply P_refresh, P_access.
  - intros w a w' Hw. rewrite refresh_catch. cbv zeta.
    destruct (generateValid w) eqn:Hg; intros [= <- <-].
    + apply P_started; [|by apply P_refresh].
      intros _. change (generateValid _) with (generateValid w). by rewrite Hg.
    + by apply P_refresh.
Qed.

Lemma preserves_run_job j : preserves P (run_job j).
Proof.
  pose proof preserves_run_handler. pose proof preserves_resolve.
  pose proof preserves_reject. pose proof preserves_then.
  destruct j; cbn [run_job]; pres_tac.
Qed.

Lemma preserves_drain n : preserves P (drain n).
Proof.
  pose proof preserves_run_job.
  induction n as [|n IH]; cbn [drain].
  - intros w a w' Hw. destruct (microtasks w); [|done]. by intros [= <- <-].
  - pres_tac.
Qed.

Lemma preserves_step e :
  permitted call_generate connect e = true → preserves P (step e).
Proof.
  pose proof preserves_send.
  assert (preserves P renew)
    by (apply (preserves_renew call_generate); auto using P_strategy).
  assert (preserves P refresh)
    by (apply (preserves_refresh call_generate); auto using P_strategy).
  pose proof preserves_fulfil. pose proof preserves_reject.
  intros He. destruct e as [| | |[]| | |[]| |]; cbn [step]; try (pres_tac; fail).
  - apply preserves_bind; [|intros ?; apply preserves_ret].
    intros w a w' Hw. apply (preserves_generate call_generate); auto using P_strategy.
    cbn in He. rewrite He. apply orb_true_r.
  - apply preserves_modify. intros w Hw. apply P_connect; [|done].
    cbn in He. by rewrite orb_false_r in He.
  - apply preserves_modify. intros w Hw. by apply P_disconnect.
Qed.

Lemma preserves_run fuel es :
  forallb (permitted call_generate connect) es = true → preserves P (run fuel es).
Proof.
  pose proof preserves_drain.
  induction es as [|e es IH]; cbn [run forallb]; [intros _; apply preserves_ret|].
  intros [He Hes]%andb_prop. pose proof (preserves_step e He). pres_tac; auto.
Qed.
End program.
End kernel.
End invariant.

(** *** The queue loses nothing *)

Lemma enqueues_app t1 t2 : enqueues (t1 ++ t2) = enqueues t1 ++ enqueues t2.
Proof. unfold enqueues. apply omap_app. Qed.

Lemma strategy_calls_app op t1 t2 :
  strategy_calls op (t1 ++ t2) = strategy_calls op t1 ++ strategy_calls op t2.
Proof. unfold strategy_calls. apply omap_app. Qed.

Lemma permitted_any es : forallb (permitted true true) es = true.
Proof. induction es as [|[] es IH]; cbn; try done. by destruct op. Qed.

Lemma conserved_run fuel es : preserves conserved (run fuel es).
Proof.
  apply preserves_run with (call_generate := true) (connect := true);
    try (intros; assumption); try apply permitted_any.
  - intros o w Ho Hw. unfold conserved in *. cbn.
    rewrite enqueues_app, replays_app, Hw.
    destruct o as [[]| | | | | |]; try done; cbn; by rewrite !app_nil_r.
  - intros p w _ Hw. unfold conserved in *. cbn.
    rewrite enqueues_app, replays_app, Hw. cbn. by rewrite !app_nil_r.
  - intros h w Hw. unfold conserved in *. cbn.
    rewrite enqueues_app, replays_app, Hw. cbn. by rewrite !app_nil_r, app_assoc.
  - intros h q' w Hq Hw. unfold conserved in *. cbn.
    rewrite enqueues_app, replays_app, Hw, Hq. cbn. by rewrite !app_nil_r, <- app_assoc.
Qed.

(** X1.  No call is lost and none is replayed twice: in every state an
    instance can reach, the calls that were put in the queue are, in
    order, the calls that [runQueue] has replayed followed by the calls
    still in the queue. *)
Theorem queue_conservation pf o c w :
  reachable pf o c w →
  enqueues (trace w) = replays (trace w) ++ queue w.
Proof.
  intros (fuel & es & He). unfold exec in He.
  destruct (run fuel es (init pf o c)) as [[[] w1]|] eqn:E; [|done].
  injection He as <-. eapply conserved_run; [|exact E]. done.
Qed.

Lemma queue_conservation_witness :
  reachable page noOptions cfg_gen crowded
  ∧ length (queue crowded) = 3%nat
  ∧ enqueues (trace crowded) = replays (trace crowded) ++ queue crowded.
Proof.
  assert (reachable page noOptions cfg_gen crowded) as H
    by (exists 50%nat, burst_events; vm_compute; reflexivity).
  split; [exact H|]. split; [reflexivity|].
  exact (queue_conservation page noOptions cfg_gen crowded H).
Defined.

(** *** After a failed [generate] *)

(** X2.  Once [config.connected] is false the instance does not call
    [config.generate] again: as long as the embedder neither sets
    [connected] back to true nor calls [generate()] itself, no run calls
    it, whatever fails or expires, and [connected] stays false. *)
Theorem disconnected_never_generates fuel es w w' :
  connected (config w) = false →
  forallb (permitted false false) es = true →
  exec fuel es w = Some w' →
  connected (config w') = false
  ∧ strategy_calls Generate (trace w') = strategy_calls Generate (trace w).
Proof.
  intros Hc Hes He. unfold exec in He.
  destruct (run fuel es w) as [[[] w1]|] eqn:E; [|done]. injection He as <-.
  pose (P := λ x : World, connected (config x) = false
                ∧ strategy_calls Generate (trace x) = strategy_calls Generate (trace w)).
  enough (preserves P (run fuel es)) as H by (eapply (H w); [by split|exact E]).
  apply preserves_run with (call_generate := false) (connect := false);
    try (intros; assumption); try done.
  - by intros x [H1 H2].
  - intros o x Ho [H1 H2]. split; [done|]. cbn [trace set_trace].
    rewrite strategy_calls_app, H2.
    destruct o as [[]| | | | | |]; try done; cbn; by rewrite !app_nil_r.
  - intros p x Hg [H1 H2]. unfold generateValid in Hg. rewrite H1 in Hg.
    rewrite andb_false_r in Hg. done.
  - intros h x [H1 H2]. split; [done|]. cbn [trace set_trace].
    rewrite strategy_calls_app, H2. cbn. by rewrite app_nil_r.
  - intros h q' x _ [H1 H2]. split; [done|]. cbn [trace set_trace].
    rewrite strategy_calls_app, H2. cbn. by rewrite app_nil_r.
Qed.

Lemma disconnected_never_generates_witness :
  connected (config (init page noOptions cfg_off)) = false
  ∧ ∃ w', exec 50 offline_events (init page noOptions cfg_off) = Some w'
          ∧ strategy_calls Refresh (trace w') = [2%nat]
          ∧ strategy_calls Generate (trace w') = [].
Proof.
  split; [reflexivity|].
  destruct (exec 50 offline_events (init page noOptions cfg_off)) as [w'|] eqn:E;
    [|vm_compute in E; discriminate].
  exists w'. split; [reflexivity|]. split.
  - vm_compute in E. injection E as <-. reflexivity.
  - apply (disconnected_never_generates 50 offline_events (init page noOptions cfg_off) w');
      [reflexivity|reflexivity|exact E].
Defined.

(** *** What the instance never writes *)



(** The defaults are written through the caller's reference: a call
    that passes the very object the constructor was given leaves the
    bearer header in it, and so in the defaults of every later call. *)
Lemma defaults_shared_with_caller :
  ∃ w,
    exec 50 [ ESetAccess (mkStore (Some "tok") 3600000 5000000);
              EClock 4000000;
              ESend "/a" 0%nat ] (init page noOptions cfg_none) = Some w
    ∧ options w = 0%nat
    ∧ defaults w = bearer "tok"
    ∧ (sent_headers <$> fetches (trace w))
        = [ {[ "authorization"%string := "Bearer tok"%string ]} ].
Proof. eexists. split_and!; vm_compute; reflexivity. Qed.

(** *** One admission, at most one operation *)

Lemma spent_isQueue m t rq :
  preserves (spent m t) rq → preserves (spent m t) (isQueue_body rq).
Proof.
  intros Hrq w b w' Hw. pose proof Hw as (Ha & Hr & Hg & Hp & Ht).
  destruct (decide (pending w = SYNC)) as [Hs|Hs].
  { rewrite isQueue_body_SYNC by done. by intros [= <- <-]. }
  destruct (exp (accessStore w) >? clock w) eqn:He.
  { rewrite isQueue_body_valid by done. intros [= <- <-].
    unfold renewValid. rewrite Ha in *. cbn [exp delay emptyStore] in *.
    replace (0 - 0 <? clock w - 1000 * 60 * 15) with false; [by rewrite andb_false_r|].
    symmetry. apply Z.ltb_ge. lia. }
  rewrite isQueue_body_degraded; try done.
  - destruct (rq _) as [[[] w1]|] eqn:E; [|done]. intros [= <- <-].
    eapply Hrq; [|exact E]. done.
  - unfold refreshValid. rewrite Hr. cbn. rewrite Ha in He. cbn in He.
    rewrite He. apply andb_false_r.
Qed.

Lemma spent_runQueue m t : preserves (spent m t) runQueue.
Proof.
  apply preserves_runQueue_if; try (intros; assumption).
  - apply spent_isQueue.
  - intros url opts sp w (Ha & Hr & Hg & Hp & Ht). split_and!; try done.
    intros op. cbn [trace set_trace]. rewrite strategy_calls_app, Ht. cbn. by rewrite app_nil_r.
  - intros h q' w _ (Ha & Hr & Hg & Hp & Ht). split_and!; try done.
    intros op. cbn [trace set_trace]. rewrite strategy_calls_app, Ht. cbn. by rewrite app_nil_r.
Qed.

Lemma strategy_calls_started op op' mode h w :
  strategy_calls op (trace (started op' mode h w)) =
    strategy_calls op (trace w)
      ++ (if bool_decide (op' = op) then [length (promises w)] else []).
Proof.
  cbn [trace started set_trace]. rewrite strategy_calls_app. cbn.
  by destruct (bool_decide _).
Qed.

(** X4.  One admission starts at most one operation, and none unless
    [pending] is [NONE]: [isQueue] always returns; either it called no
    callback, or [pending] was [NONE], it called exactly one of
    [config.generate], [config.renew], [config.refresh], once, and left
    [pending] set.  It answers "queue" exactly when it leaves [pending]
    at [SYNC]. *)
Theorem admission_starts_at_most_one w :
  ∃ b w',
    isQueue_body runQueue w = Some (b, w')
    ∧ (b = true ↔ pending w' = SYNC)
    ∧ ((∀ op, strategy_calls op (trace w') = strategy_calls op (trace w))
       ∨ (pending w = NONE ∧ pending w' ≠ NONE
          ∧ ∃ op, strategy_calls op (trace w')
                    = strategy_calls op (trace w) ++ [length (promises w)]
                  ∧ ∀ op', op' ≠ op →
                      strategy_calls op' (trace w') = strategy_calls op' (trace w))).
Proof.
  assert (∀ op mode h x,
            length (promises x) = length (promises w) →
            (∀ o, strategy_calls o (trace x) = strategy_calls o (trace w)) →
            strategy_calls op (trace (started op mode h x))
              = strategy_calls op (trace w) ++ [length (promises w)]
            ∧ ∀ op', op' ≠ op →
                strategy_calls op' (trace (started op mode h x))
                  = strategy_calls op' (trace w)) as Hst.
  { intros op mode h x Hl Hx. split.
    - rewrite strategy_calls_started, bool_decide_eq_true_2 by done. by rewrite Hx, Hl.
    - intros op' Hne. rewrite strategy_calls_started, bool_decide_eq_false_2 by done.
      by rewrite app_nil_r. }
  destruct (decide (pending w = SYNC)) as [Hp|Hp].
  { rewrite isQueue_body_SYNC by done. exists true, w. split; [done|]. split; [by split|by left]. }
  destruct (exp (accessStore w) >? clock w) eqn:He.
  { rewrite isQueue_body_valid by done. do 2 eexists. split; [reflexivity|].
    destruct (renewValid (clock w) w); cbn [andb];
      [|split; [split; [done|intros ?; congruence]|by left]].
    destruct (decide (pending w = NONE)) as [Hn|Hn].
    - rewrite bool_decide_eq_true_2 by done. split; [done|]. right.
      split_and!; [done..|]. exists Renew. by apply Hst.
    - rewrite bool_decide_eq_false_2 by done.
      split; [split; [done|intros ?; congruence]|by left]. }
  destruct (refreshValid (clock w) w) eqn:Hr.
  { rewrite isQueue_body_refresh by done. do 2 eexists. split; [reflexivity|].
    split; [done|].
    destruct (decide (pending w = NONE)) as [Hn|Hn].
    - rewrite bool_decide_eq_true_2 by done. right.
      split_and!; [done..|]. exists Refresh. by apply Hst.
    - rewrite bool_decide_eq_false_2 by done. by left. }
  destruct (generateValid w) eqn:Hg.
  { rewrite isQueue_body_generate by done. do 2 eexists. split; [reflexivity|].
    split; [done|].
    destruct (decide (pending w = NONE)) as [Hn|Hn].
    - rewrite bool_decide_eq_true_2 by done. right.
      split_and!; [done..|]. exists Generate. by apply Hst.
    - rewrite bool_decide_eq_false_2 by done. by left. }
  rewrite isQueue_body_degraded by done.
  set (w0 := set_refreshStore emptyStore (set_accessStore emptyStore w)).
  destruct (runQueue_sync w0) as (w' & Hrq & _ & _). rewrite Hrq.
  exists false, w'. split; [done|].
  assert (spent (pending w) (λ op, strategy_calls op (trace w)) w')
    as (_ & _ & _ & Hp' & Ht').
  { eapply spent_runQueue; [|exact Hrq]. by repeat split. }
  split; [|by left]. split; [done|]. congruence.
Qed.

(** *** [send] returns before anything is sent *)

Lemma hook_calls_app t1 t2 : hook_calls (t1 ++ t2) = hook_calls t1 ++ hook_calls t2.
Proof. unfold hook_calls. apply omap_app. Qed.

Lemma untouched_observe f h os o w :
  match o with ObsFetch _ _ _ _ | ObsHook _ _ => False | _ => True end →
  untouched f h os w → untouched f h os (set_trace (trace w ++ [o]) w).
Proof.
  intros Ho (Hf & Hh & Hos). split_and!; [| |done]; cbn [trace set_trace].
  - rewrite fetches_app, Hf. destruct o; try done; apply app_nil_r.
  - rewrite hook_calls_app, Hh. destruct o; try done; apply app_nil_r.
Qed.

Lemma untouched_send f h os url opts : preserves (untouched f h os) (send url opts).
Proof.
  apply preserves_send_if; try (intros; assumption).
  - intros rq. apply preserves_isQueue_body with (call_generate := true);
      try (intros; assumption).
    intros op p w _ Hw. by apply untouched_observe.
  - intros u o sp w Hw. by apply untouched_observe.
  - intros h' q' w _ Hw. by apply (untouched_observe f h os (ObsReplay h') (set_queue q' w)).
Qed.

(** X5.  [send] always returns, and returns a new promise that is still
    pending.  When it returns no request has been sent and no options
    object has been written: the promises that existed are as they were
    and the rest of [send] is a microtask.  So what the caller writes
    into the options object after the call and before the microtasks run
    is what goes out. *)
Theorem send_is_asynchronous url opts w :
  ∃ b w',
    send url opts w = Some (length (promises w), w')
    ∧ outcome (length (promises w)) w' = Some (Pending [])
    ∧ promises w `prefix_of` promises w'
    ∧ last (microtasks w')
        = Some (JReaction (HSendResume url opts (length (promises w))) None (VBool b))
    ∧ objects w' = objects w
    ∧ fetches (trace w') = fetches (trace w)
    ∧ hook_calls (trace w') = hook_calls (trace w).
Proof.
  assert (untouched (fetches (trace w)) (hook_calls (trace w)) (objects w) w) as Hu by done.
  destruct (send_with_sync runQueue (S (length (queue w))) url opts w (runQueue_drains _))
    as (b & w2 & _ & Hsend & _ & Hs & Hsp & _); [lia|].
  exists b. eexists. split; [exact Hsend|]. split_and!.
  - exact Hsp.
  - apply Hs.
  - cbn. by rewrite last_snoc.
  - apply Hs.
  - eapply untouched_send; [exact Hu|exact Hsend].
  - eapply untouched_send; [exact Hu|exact Hsend].
Qed.

(** ** A call from [send] to its outcome

    The runs below start in any state that fits the hypotheses; they are
    followed microtask by microtask. *)

Section heap_offsets.
Context {A : Type}.
Implicit Types l k : list A.

Lemma lookup_app_add l k i : (l ++ k) !! (length l + i)%nat = k !! i.
Proof. rewrite lookup_app_r by lia. f_equal. lia. Qed.

Lemma lookup_app_0 l k : (l ++ k) !! length l = k !! 0%nat.
Proof. rewrite lookup_app_r by lia. f_equal. lia. Qed.

Lemma insert_app_add l k i x : <[(length l + i)%nat := x]> (l ++ k) = l ++ <[i := x]> k.
Proof. rewrite insert_app_r_alt by lia. do 2 f_equal. lia. Qed.

Lemma insert_app_0 l k x : <[length l := x]> (l ++ k) = l ++ <[0%nat := x]> k.
Proof. rewrite insert_app_r_alt by lia. do 2 f_equal. lia. Qed.

Lemma succ_length l : S (length l) = (length l + 1)%nat.
Proof. lia. Qed.

Lemma succ_length_add l i : S (length l + i) = (length l + S i)%nat.
Proof. lia. Qed.

Lemma length_add_0 l : (length l + 0)%nat = length l.
Proof. lia. Qed.
End heap_offsets.

Lemma drain_cons fuel j js w :
  microtasks w = j :: js →
  drain (S fuel) w = (run_job j ;; drain fuel) (set_microtasks js w).
Proof. intros H. cbn [drain]. mstep. by rewrite H. Qed.

#[local] Arguments Fetch_request : simpl never.
#[local] Arguments built : simpl never.
#[local] Arguments authorised : simpl never.
#[local] Arguments send_resume : simpl never.
#[local] Arguments handleErrors : simpl never.
#[local] Arguments send : simpl never.
#[local] Arguments drain : simpl never.
#[local] Arguments run : simpl never.
#[local] Arguments exec : simpl never.
#[local] Arguments strategy_calls : simpl never.
#[local] Arguments fetches : simpl never.
#[local] Arguments enqueues : simpl never.

(** Heaps are kept as [l ++ k] with [k] explicit, and references into
    [k] as [length l + i]. *)
Ltac heap_norm :=
  repeat first
    [ rewrite <- app_assoc
    | rewrite <- Nat.add_assoc
    | rewrite length_app
    | rewrite succ_length_add
    | rewrite succ_length
    | rewrite length_add_0
    | rewrite lookup_app_add
    | rewrite lookup_app_0
    | rewrite insert_app_add
    | rewrite insert_app_0 ].

Ltac hsimpl := repeat (progress (cbn -[Z.gtb Z.ltb Z.eqb Z.sub Z.mul]; heap_norm)).

Ltac wnorm :=
  cbv beta iota delta
    [set_config set_queue set_pending set_accessStore set_refreshStore set_objects
     set_promises set_microtasks set_clock set_trace
     options config queue pending accessStore refreshStore parser objects promises
     microtasks clock trace resumed entered fetched thrown written started
     enqueued surfaced caught retried disconnected].

Ltac go := repeat (progress (mstep; munfold; wnorm; hsimpl)).

(** One microtask. *)
Ltac job := erewrite drain_cons by (wnorm; hsimpl; reflexivity); go.

(** The microtask checkpoint is over. *)
Ltac rest := rewrite drain_empty by done; reflexivity.

(** The environment settles an external promise. *)
Ltac settle :=
  cbn [step]; go; unfold is_external, is_pending; go;
  rewrite ?existsb_app; go; rewrite ?Nat.eqb_refl, ?orb_true_r; go.

(** The world after a call was let through, when its request can be
    built and when it cannot. *)
Lemma dispatched_built url opts sp o w r :
  built url opts (authorised (accessStore w) o) w = inr r →
  dispatched url opts sp o w =
    (let w1 := fetched url opts r (written opts (authorised (accessStore w) o) w) in
     set_microtasks (microtasks w1 ++ [JThenable sp (length (promises w))]) w1).
Proof. intros H. unfold dispatched. by rewrite H. Qed.

Lemma dispatched_thrown url opts sp o w e :
  built url opts (authorised (accessStore w) o) w = inl e →
  dispatched url opts sp o w =
    (let w1 := thrown e (written opts (authorised (accessStore w) o) w) in
     set_microtasks (microtasks w1 ++ [JThenable sp (length (promises w))]) w1).
Proof. intros H. unfold dispatched. by rewrite H. Qed.

(** What is built depends on the parser, on the defaults and on the
    object of the call only. *)
Lemma built_eq url opts o w w' :
  parser w' = parser w → options w' = options w →
  <[opts := o]> (objects w') = <[opts := o]> (objects w) →
  built url opts o w' = built url opts o w.
Proof.
  intros Hp Hd Ho. unfold built, written, defaults. cbn. by rewrite Hp, Hd, Ho.
Qed.

(** Admission lets the call through and starts nothing. *)
Lemma isQueue_body_proceeds rq url opts w :
  pending w ≠ SYNC →
  exp (accessStore w) > clock w →
  renewValid (clock w) w && bool_decide (pending w = NONE) = false →
  isQueue_body rq (entered url opts w) = Some (false, entered url opts w).
Proof.
  intros Hp He Hrv. rewrite isQueue_body_valid; [|done|cbn; lia].
  change (renewValid _ (entered url opts w)) with (renewValid (clock w) w).
  change (pending (entered url opts w)) with (pending w). by rewrite Hrv.
Qed.

(** The continuation of a [send] that is let through, with the request
    [Hb] that is built. *)
Ltac resume Ho Hb :=
  job; erewrite send_resume_false by (cbn; exact Ho);
  erewrite dispatched_built by exact Hb; go.

(** The first macrotask of a call that is let through. *)
Ltac dispatch Hsend Ho Hb :=
  cbn [step]; mstep; rewrite Hsend; resume Ho Hb; do 2 job; rest.

(** X6.  A call that is let through and whose request can be built gets
    the answer of its request: the request goes out once, built from
    the object that holds the bearer header of the current token, and
    when [fetch] resolves with a response the promise that [send]
    returned is fulfilled with that response.  Nothing is queued and no
    callback is called. *)
Theorem send_delivers_response fuel url opts o w r s b :
  pending w ≠ SYNC →
  exp (accessStore w) > clock w →
  renewValid (clock w) w && bool_decide (pending w = NONE) = false →
  microtasks w = [] →
  objects w !! opts = Some o →
  built url opts (authorised (accessStore w) o) w = inr r →
  let sp := length (promises w) in
  ∃ w',
    exec (4 + fuel) [ESend url opts; EResolve (sp + 3) (VResp s b)] w = Some w'
    ∧ outcome sp w' = Some (Fulfilled (VResp s b))
    ∧ fetches (trace w') = fetches (trace w) ++ [(url, opts, r)]
    ∧ objects w' = <[opts := authorised (accessStore w) o]> (objects w)
    ∧ queue w' = queue w
    ∧ pending w' = pending w
    ∧ (∀ op, strategy_calls op (trace w') = strategy_calls op (trace w))
    ∧ microtasks w' = [].
Proof.
  intros Hp He Hrv Hm Ho Hb sp.
  pose proof (send_let_through _ _ _ (isQueue_body_proceeds runQueue url opts w Hp He Hrv))
    as Hsend.
  clear Hp He Hrv. subst sp.
  destruct w as [dflt c q pm a r0 pf os ps ms cl tr]. cbn in Hm, Ho. subst ms.
  unfold exec, outcome. cbn [Nat.add].
  erewrite run_cons; [|dispatch Hsend Ho Hb].
  erewrite run_cons; cycle 1.
  { settle. do 3 job. rest. }
  eexists. split; [reflexivity|]. go. split_and!; try done.
  - by rewrite fetches_app.
  - intros op. rewrite strategy_calls_app. apply app_nil_r.
Qed.

Lemma send_delivers_response_witness :
  ∃ r w', built "/a" 1 (authorised (accessStore bare) noOptions) bare = inr r
        ∧ exec 4 [ESend "/a" 1%nat; EResolve 3%nat (VResp 200 "ok")] bare = Some w'
        ∧ outcome 0 w' = Some (Fulfilled (VResp 200 "ok")).
Proof.
  destruct (built "/a" 1 (authorised (accessStore bare) noOptions) bare) as [e|r] eqn:Hb;
    [vm_compute in Hb; discriminate|].
  destruct (send_delivers_response 0 "/a" 1%nat noOptions bare r 200 "ok")
    as (w' & H1 & H2 & _);
    [discriminate|reflexivity|reflexivity|reflexivity|reflexivity|exact Hb|].
  exists r, w'. split; [reflexivity|]. split; [exact H1|exact H2].
Defined.

(** Time passes. *)
Ltac tick := erewrite run_cons; [|cbn [step]; go; rest].

(** X7.  A call that is let through, whose request can be built and
    fails, with no hook configured: unless the error is a 401 that can
    be recovered from at the time [t] of the failure, the promise that
    [send] returned is rejected with the error of the request.  The
    request went out once and is not sent again; a 401 costs the access
    token, any other error leaves both stores as they are. *)
Theorem send_surfaces_error fuel url opts o w r t e :
  pending w ≠ SYNC →
  exp (accessStore w) > clock w →
  renewValid (clock w) w && bool_decide (pending w = NONE) = false →
  microtasks w = [] →
  objects w !! opts = Some o →
  built url opts (authorised (accessStore w) o) w = inr r →
  is401 e && (refreshValid t w || generateValid w) = false →
  has_handleErrors (config w) = false →
  let sp := length (promises w) in
  ∃ w',
    exec (6 + fuel) [ESend url opts; EClock t; EReject (sp + 3) e] w = Some w'
    ∧ outcome sp w' = Some (Rejected e)
    ∧ fetches (trace w') = fetches (trace w) ++ [(url, opts, r)]
    ∧ accessStore w' = (if is401 e then emptyStore else accessStore w)
    ∧ refreshStore w' = refreshStore w
    ∧ queue w' = queue w
    ∧ pending w' = pending w
    ∧ (∀ op, strategy_calls op (trace w') = strategy_calls op (trace w)).
Proof.
  intros Hp He Hrv Hm Ho Hb Hrec Hh sp.
  pose proof (send_let_through _ _ _ (isQueue_body_proceeds runQueue url opts w Hp He Hrv))
    as Hsend.
  clear Hp He Hrv. subst sp.
  destruct w as [dflt c q pm a r0 pf os ps ms cl tr]. cbn in Hm, Ho, Hh. subst ms.
  unfold refreshValid, generateValid in Hrec. cbn in Hrec.
  unfold exec, outcome. cbn [Nat.add].
  erewrite run_cons; [|dispatch Hsend Ho Hb].
  tick.
  pose proof (handleErrors_surface e url opts) as Hsurf.
  unfold surfaced, caught in Hsurf.
  destruct (is401 e).
  all: erewrite run_cons;
    [|settle; job; rewrite Hsurf by exact Hrec; wnorm; rewrite Hh; go; do 4 job; rest].
  all: eexists; (split; [reflexivity|]); go; split_and!; try done;
    [by rewrite fetches_app|intros op; rewrite strategy_calls_app; apply app_nil_r].
Qed.

Lemma send_surfaces_error_witness :
  ∃ r w', built "/a" 1 (authorised (accessStore bare) noOptions) bare = inr r
        ∧ exec 6 [ESend "/a" 1%nat; EClock 4100000; EReject 3%nat (VErr 404 "gone")] bare
            = Some w'
        ∧ outcome 0 w' = Some (Rejected (VErr 404 "gone")).
Proof.
  destruct (built "/a" 1 (authorised (accessStore bare) noOptions) bare) as [e|r] eqn:Hb;
    [vm_compute in Hb; discriminate|].
  destruct (send_surfaces_error 0 "/a" 1%nat noOptions bare r 4100000 (VErr 404 "gone"))
    as (w' & H1 & H2 & _);
    [discriminate|reflexivity|reflexivity|reflexivity|reflexivity|exact Hb
    |reflexivity|reflexivity|].
  exists r, w'. split; [reflexivity|]. split; [exact H1|exact H2].
Defined.

(** X8.  The hook cannot turn a failure into a success.  When the
    request of a call that is let through was built and fails, and the
    error is not a 401 that can be recovered from at the time [t] of the
    failure, the error is given to [config.handleErrors] and the call
    stays pending until the promise of the hook settles; if that promise
    is fulfilled, with whatever value, the call is rejected with the
    error of the request; if it is rejected, the call is rejected with
    the error of the hook. *)
Theorem hook_cannot_recover fuel url opts o w r t e :
  pending w ≠ SYNC →
  exp (accessStore w) > clock w →
  renewValid (clock w) w && bool_decide (pending w = NONE) = false →
  microtasks w = [] →
  objects w !! opts = Some o →
  built url opts (authorised (accessStore w) o) w = inr r →
  is401 e && (refreshValid t w || generateValid w) = false →
  has_handleErrors (config w) = true →
  let sp := length (promises w) in
  ∃ w1,
    exec (6 + fuel) [ESend url opts; EClock t; EReject (sp + 3) e] w = Some w1
    ∧ trace w1 =
        trace w
          ++ [ObsSend url opts sp; ObsFetch url opts r (sp + 3); ObsHook e (sp + 8)]
    ∧ outcome sp w1 = Some (Pending [])
    ∧ (∀ t' v, ∃ w2,
         exec (6 + fuel) [EClock t'; EResolve (sp + 8) v] w1 = Some w2
         ∧ outcome sp w2 = Some (Rejected e))
    ∧ (∀ t' e', ∃ w2,
         exec (6 + fuel) [EClock t'; EReject (sp + 8) e'] w1 = Some w2
         ∧ outcome sp w2 = Some (Rejected e')).
Proof.
  intros Hp He Hrv Hm Ho Hb Hrec Hh sp.
  pose proof (send_let_through _ _ _ (isQueue_body_proceeds runQueue url opts w Hp He Hrv))
    as Hsend.
  clear Hp He Hrv. subst sp.
  destruct w as [dflt c q pm a r0 pf os ps ms cl tr]. cbn in Hm, Ho, Hh. subst ms.
  unfold refreshValid, generateValid in Hrec. cbn in Hrec.
  unfold exec, outcome. cbn [Nat.add].
  erewrite run_cons; [|dispatch Hsend Ho Hb].
  tick.
  pose proof (handleErrors_surface e url opts) as Hsurf.
  unfold surfaced, caught in Hsurf.
  destruct (is401 e).
  all: erewrite run_cons;
    [|settle; job; rewrite Hsurf by exact Hrec; wnorm; rewrite Hh; go; job; rest].
  all: eexists; (split; [reflexivity|]); go; (split_and!; [done|done|..]).
  all: intros t' v; unfold exec; cbn [Nat.add]; tick;
    (erewrite run_cons; [|settle; do 4 job; rest]).
  all: eexists; (split; [reflexivity|]); go; done.
Qed.

Lemma hook_cannot_recover_witness :
  ∃ r w1, built "/a" 1 (authorised (accessStore hooked) noOptions) hooked = inr r
        ∧ exec 6 [ESend "/a" 1%nat; EClock 4100000; EReject 3%nat (VErr 404 "gone")] hooked
            = Some w1
        ∧ outcome 0 w1 = Some (Pending [])
        ∧ ∃ w2, exec 6 [EClock 4200000; EResolve 8%nat VUndef] w1 = Some w2
                ∧ outcome 0 w2 = Some (Rejected (VErr 404 "gone")).
Proof.
  destruct (built "/a" 1 (authorised (accessStore hooked) noOptions) hooked)
    as [e|r] eqn:Hb; [vm_compute in Hb; discriminate|].
  destruct (hook_cannot_recover 0 "/a" 1%nat noOptions hooked r 4100000 (VErr 404 "gone"))
    as (w1 & H1 & _ & H2 & H3 & _);
    [discriminate|reflexivity|reflexivity|reflexivity|reflexivity|exact Hb
    |reflexivity|reflexivity|].
  exists r, w1. split; [reflexivity|]. split; [exact H1|]. split; [exact H2|].
  exact (H3 4200000 VUndef).
Defined.

(** X25.  A call whose request cannot be built never reaches [fetch].
    When the url does not parse, a header is not valid or the [json]
    payload cannot be serialised, [Fetch.send] throws before it calls
    [fetch]: the promise that [send] returned is rejected with what was
    thrown, in the turn of the call.  No request goes out, neither
    [handleErrors] nor the hook [config.handleErrors] sees the error,
    the tokens are kept and nothing is retried; the bearer header was
    written into the caller's object all the same. *)
Theorem unbuildable_call_is_rejected fuel url opts o w e :
  pending w ≠ SYNC →
  exp (accessStore w) > clock w →
  renewValid (clock w) w && bool_decide (pending w = NONE) = false →
  microtasks w = [] →
  objects w !! opts = Some o →
  built url opts (authorised (accessStore w) o) w = inl e →
  let sp := length (promises w) in
  ∃ w',
    exec (4 + fuel) [ESend url opts] w = Some w'
    ∧ outcome sp w' = Some (Rejected (VThrown e))
    ∧ trace w' = trace w ++ [ObsSend url opts sp]
    ∧ fetches (trace w') = fetches (trace w)
    ∧ hook_calls (trace w') = hook_calls (trace w)
    ∧ objects w' = <[opts := authorised (accessStore w) o]> (objects w)
    ∧ accessStore w' = accessStore w
    ∧ refreshStore w' = refreshStore w
    ∧ queue w' = queue w
    ∧ pending w' = pending w
    ∧ microtasks w' = [].
Proof.
  intros Hp He Hrv Hm Ho Hb sp.
  pose proof (send_let_through _ _ _ (isQueue_body_proceeds runQueue url opts w Hp He Hrv))
    as Hsend.
  clear Hp He Hrv. subst sp.
  destruct w as [dflt c q pm a r0 pf os ps ms cl tr]. cbn in Hm, Ho. subst ms.
  unfold exec, outcome. cbn [Nat.add].
  erewrite run_cons; cycle 1.
  { cbn [step]. mstep. rewrite Hsend. job.
    erewrite send_resume_false by (cbn; exact Ho).
    erewrite dispatched_thrown by exact Hb. go. do 2 job. rest. }
  eexists. split; [reflexivity|]. go. split_and!; try done.
  - rewrite fetches_app. apply app_nil_r.
  - rewrite hook_calls_app. apply app_nil_r.
Qed.

Lemma unbuildable_call_is_rejected_witness :
  ∃ w',
    built "nope" 1 (authorised (accessStore bare) noOptions) bare = inl BadURL
    ∧ exec 4 [ESend "nope" 1%nat] bare = Some w'
    ∧ outcome 0 w' = Some (Rejected (VThrown BadURL)).
Proof.
  destruct (unbuildable_call_is_rejected 0 "nope" 1%nat noOptions bare BadURL)
    as (w' & H1 & H2 & _);
    [discriminate|reflexivity|reflexivity|reflexivity|reflexivity|reflexivity|].
  exists w'. split; [reflexivity|]. split; [exact H1|exact H2].
Defined.

#[local] Arguments renewValid : simpl never.
#[local] Arguments refreshValid : simpl never.
#[local] Arguments generateValid : simpl never.
#[local] Arguments runQueue : simpl never.

(** [runQueue] on a queue of one entry. *)
Lemma runQueue_one h w b w2 :
  queue w = [h] →
  let sp := length (promises w) in
  isQueue_body (runQueue_fuel 1)
    (entered (q_url h) (q_options h)
       (set_trace (trace w ++ [ObsReplay h]) (set_queue [] w))) = Some (b, w2) →
  promises w2 !! sp = Some (Pending []) →
  promises w2 !! S sp = Some (Pending []) →
  queue w2 = [] →
  runQueue w =
    Some (tt, chained h sp (resumed (q_url h) (q_options h) sp b w2)).
Proof.
  intros Hq sp Hb Hsp Hiq Hq2. subst sp. unfold runQueue. rewrite Hq.
  cbn [length runQueue_fuel]. mstep. rewrite Hq. cbn -[send_with runQueue_fuel].
  erewrite send_with_eq; [|exact Hb|exact Hiq].
  cbn -[send_with runQueue_fuel then_ catch_].
  pose proof (chain_pending h (length (promises w))
                (resumed (q_url h) (q_options h) (length (promises w)) b w2)) as Hc.
  unfold catch_ in *. mstep. rewrite Hc; cycle 1.
  { cbn. rewrite list_lookup_insert_ne by lia. exact Hsp. }
  cbn. by rewrite Hq2.
Qed.

(** The replay of a single entry is let through. *)
Lemma runQueue_one_proceeds h w :
  queue w = [h] →
  pending w ≠ SYNC →
  exp (accessStore w) > clock w →
  renewValid (clock w) w && bool_decide (pending w = NONE) = false →
  let sp := length (promises w) in
  runQueue w =
    Some (tt, chained h sp
                (resumed (q_url h) (q_options h) sp false
                   (entered (q_url h) (q_options h)
                      (set_trace (trace w ++ [ObsReplay h]) (set_queue [] w))))).
Proof.
  intros Hq Hp He Hrv sp. apply runQueue_one; try done.
  - by apply isQueue_body_proceeds.
  - cbn. apply lookup_at0.
  - cbn. apply lookup_at1.
Qed.

(** The replay of a single entry when nothing is left to try: both
    stores are reset and the call is let through. *)
Lemma runQueue_one_degraded h w :
  queue w = [h] →
  pending w ≠ SYNC →
  exp (accessStore w) ≤ clock w →
  refreshValid (clock w) w = false →
  generateValid w = false →
  let sp := length (promises w) in
  runQueue w =
    Some (tt, chained h sp
                (resumed (q_url h) (q_options h) sp false
                   (set_refreshStore emptyStore
                      (set_accessStore emptyStore
                         (entered (q_url h) (q_options h)
                            (set_trace (trace w ++ [ObsReplay h]) (set_queue [] w))))))).
Proof.
  intros Hq Hp He Hr Hg sp. apply runQueue_one; try done.
  - rewrite isQueue_body_degraded; try done. cbn. lia.
  - cbn. apply lookup_at0.
  - cbn. apply lookup_at1.
Qed.

(** X9.  A call that has to wait for [generate] is sent when it
    succeeds.  The first call on an idle instance without valid tokens
    starts [config.generate] and is queued.  When the callback has
    stored a token [s] and resolves at a time [t] at which [s] is valid
    and no renew is due, the call is replayed once; when its request
    can be built from the object that now holds the bearer header of
    [s], it goes out, and the promise that [send] returned at the start
    is fulfilled with the response of the replay. *)
Theorem queued_call_is_replayed fuel url opts o w s t r st b :
  pending w = NONE → microtasks w = [] → queue w = [] →
  exp (accessStore w) ≤ clock w →
  refreshValid (clock w) w = false →
  generateValid w = true →
  objects w !! opts = Some o →
  exp s > t →
  has_renew (config w) && (exp s - delay s <? t - 1000 * 60 * 15) = false →
  built url opts (authorised s o) w = inr r →
  let sp := length (promises w) in
  ∃ w',
    exec (20 + fuel)
      [ESend url opts; ESetAccess s; EClock t; EResolve (sp + 2) VUndef;
       EResolve (sp + 14) (VResp st b)] w = Some w'
    ∧ outcome sp w' = Some (Fulfilled (VResp st b))
    ∧ fetches (trace w') = fetches (trace w) ++ [(url, opts, r)]
    ∧ objects w' = <[opts := authorised s o]> (objects w)
    ∧ strategy_calls Generate (trace w') = strategy_calls Generate (trace w) ++ [(sp + 2)%nat]
    ∧ enqueues (trace w') = enqueues (trace w) ++ [mkQueued url opts (sp + 5)]
    ∧ replays (trace w') = replays (trace w) ++ [mkQueued url opts (sp + 5)]
    ∧ queue w' = []
    ∧ pending w' = NONE.
Proof.
  intros Hp Hm Hq He Hr Hg Ho Hs Hrn Hb sp.
  pose proof (send_starts_generate (18 + fuel) url opts w Hp Hm He Hr Hg) as H1.
  unfold exec, outcome. cbn [Nat.add] in *.
  erewrite run_cons; [|exact H1]. clear H1.
  subst sp.
  destruct w as [dflt c q pm a r0 pf os ps ms cl tr].
  cbn in Hp, Hm, Hq, Ho, Hs, Hrn, He. subst ms pm q.
  unfold parked. wnorm.
  tick. tick.
  erewrite run_cons; cycle 1.
  { settle. do 2 job.
    unfold finally_callback. go.
    erewrite runQueue_one_proceeds; cycle 1.
    { reflexivity. } { done. } { exact Hs. } { unfold renewValid. cbn. rewrite Hrn. done. }
    unfold chained. go.
    resume Ho Hb. repeat job. rest. }
  erewrite run_cons; cycle 1.
  { settle. repeat job. rest. }
  eexists. split; [reflexivity|]. go. split_and!; try done.
  - by rewrite fetches_app.
  - by rewrite strategy_calls_app.
  - by rewrite enqueues_app.
  - by rewrite replays_app.
Qed.

Lemma queued_call_is_replayed_witness :
  ∃ r w',
    built "/a" 1 (authorised fresh_token noOptions) unsigned = inr r
    ∧ exec 20 [ESend "/a" 1%nat; ESetAccess fresh_token; EClock 4100000;
               EResolve 2%nat VUndef; EResolve 14%nat (VResp 200 "ok")] unsigned = Some w'
    ∧ outcome 0 w' = Some (Fulfilled (VResp 200 "ok")).
Proof.
  destruct (built "/a" 1 (authorised fresh_token noOptions) unsigned) as [e|r] eqn:Hb;
    [vm_compute in Hb; discriminate|].
  destruct (queued_call_is_replayed 0 "/a" 1%nat noOptions unsigned fresh_token 4100000 r
              200 "ok")
    as (w' & H1 & H2 & _);
    [reflexivity|reflexivity|reflexivity|discriminate|reflexivity|reflexivity
    |reflexivity|reflexivity|reflexivity|exact Hb|].
  exists r, w'. split; [reflexivity|]. split; [exact H1|exact H2].
Defined.

(** A call that admission sends to the queue is parked. *)
Lemma send_parks fuel url opts w w2 :
  isQueue_body runQueue (entered url opts w) = Some (true, w2) →
  promises w2 !! S (length (promises w)) = Some (Pending []) →
  microtasks w2 = [] →
  (length (promises w) < length (promises w2))%nat →
  (step (ESend url opts) ;; drain (S (S fuel))) w =
    Some (tt, parked url opts w2 (length (promises w))).
Proof.
  intros Hb Hiq Hm Hl. cbn [step]. mstep.
  rewrite (send_with_eq runQueue url opts w true w2 Hb Hiq : send url opts w = _).
  by apply drain_parked.
Qed.

(** The first call on an idle instance whose access token is invalid
    and whose refresh token is valid: [refresh] starts, the call is
    parked. *)
Lemma send_starts_refresh fuel url opts w :
  pending w = NONE → microtasks w = [] →
  exp (accessStore w) ≤ clock w →
  refreshValid (clock w) w = true →
  (step (ESend url opts) ;; drain (S (S fuel))) w =
    Some (tt,
          parked url opts
            (set_pending SYNC
               (started Refresh SYNC HRefreshCatch
                  (set_accessStore emptyStore (entered url opts w))))
            (length (promises w))).
Proof.
  intros Hp Hm He Hr. apply send_parks.
  - rewrite isQueue_body_refresh; try done.
    + change (pending (entered url opts w)) with (pending w). by rewrite Hp.
    + change (pending (entered url opts w)) with (pending w). congruence.
    + cbn. lia.
  - cbn. rewrite <- app_assoc. apply lookup_at1.
  - done.
  - cbn. rewrite !length_app. cbn. lia.
Qed.

(** X10.  The same after a refresh: a call on an idle instance that
    finds the access token expired and the refresh token valid starts
    [config.refresh] and waits.  When the callback has stored a token
    [s] and resolves at a time [t] at which [s] is valid and no renew is
    due, the call is replayed once; when its request can be built from
    the object that now holds the bearer header of [s], it goes out,
    and the promise of the call is fulfilled with the response. *)
Theorem refreshed_call_is_replayed fuel url opts o w s t r st b :
  pending w = NONE → microtasks w = [] → queue w = [] →
  exp (accessStore w) ≤ clock w →
  refreshValid (clock w) w = true →
  objects w !! opts = Some o →
  exp s > t →
  has_renew (config w) && (exp s - delay s <? t - 1000 * 60 * 15) = false →
  built url opts (authorised s o) w = inr r →
  let sp := length (promises w) in
  ∃ w',
    exec (20 + fuel)
      [ESend url opts; ESetAccess s; EClock t; EResolve (sp + 2) VUndef;
       EResolve (sp + 14) (VResp st b)] w = Some w'
    ∧ outcome sp w' = Some (Fulfilled (VResp st b))
    ∧ fetches (trace w') = fetches (trace w) ++ [(url, opts, r)]
    ∧ objects w' = <[opts := authorised s o]> (objects w)
    ∧ strategy_calls Refresh (trace w') = strategy_calls Refresh (trace w) ++ [(sp + 2)%nat]
    ∧ strategy_calls Generate (trace w') = strategy_calls Generate (trace w)
    ∧ refreshStore w' = refreshStore w
    ∧ queue w' = []
    ∧ pending w' = NONE.
Proof.
  intros Hp Hm Hq He Hr Ho Hs Hrn Hb sp.
  pose proof (send_starts_refresh (18 + fuel) url opts w Hp Hm He Hr) as H1.
  unfold exec, outcome. cbn [Nat.add] in *.
  erewrite run_cons; [|exact H1]. clear H1.
  subst sp.
  destruct w as [dflt c q pm a r0 pf os ps ms cl tr].
  cbn in Hp, Hm, Hq, Ho, Hs, Hrn, He. subst ms pm q.
  unfold parked. wnorm.
  tick. tick.
  erewrite run_cons; cycle 1.
  { settle. do 2 job.
    unfold finally_callback. go.
    erewrite runQueue_one_proceeds; cycle 1.
    { reflexivity. } { done. } { exact Hs. } { unfold renewValid. cbn. rewrite Hrn. done. }
    unfold chained. go.
    resume Ho Hb. repeat job. rest. }
  erewrite run_cons; cycle 1.
  { settle. repeat job. rest. }
  eexists. split; [reflexivity|]. go. split_and!; try done.
  - by rewrite fetches_app.
  - by rewrite strategy_calls_app.
  - rewrite strategy_calls_app. apply app_nil_r.
Qed.

Lemma refreshed_call_is_replayed_witness :
  ∃ r w',
    built "/a" 1 (authorised fresh_token noOptions) expired = inr r
    ∧ exec 20 [ESend "/a" 1%nat; ESetAccess fresh_token; EClock 4100000;
               EResolve 2%nat VUndef; EResolve 14%nat (VResp 200 "ok")] expired = Some w'
    ∧ outcome 0 w' = Some (Fulfilled (VResp 200 "ok")).
Proof.
  destruct (built "/a" 1 (authorised fresh_token noOptions) expired) as [e|r] eqn:Hb;
    [vm_compute in Hb; discriminate|].
  destruct (refreshed_call_is_replayed 0 "/a" 1%nat noOptions expired fresh_token 4100000 r
              200 "ok")
    as (w' & H1 & H2 & _);
    [reflexivity|reflexivity|reflexivity|discriminate|reflexivity
    |reflexivity|reflexivity|reflexivity|exact Hb|].
  exists r, w'. split; [reflexivity|]. split; [exact H1|exact H2].
Defined.

(** X11.  A failed [generate] releases the queue.  When the call of an
    idle instance waits for [generate] and the callback fails at a time
    [t], not before the epoch, [connected] becomes false and the call is
    replayed all the same: both stores are empty, so no header is added
    and the request is built from the caller's object as it is, with
    whatever an earlier call left in it.  When that request can be
    built it goes out, and the promise of the call is fulfilled with the
    response.  The failure of [generate] does not reach the caller of
    [send]: the promise that [generate()] returned to [isQueue], which
    dropped it, is rejected with the error and has no handler. *)
Theorem failed_generate_releases_queue fuel url opts o w t r e st b :
  pending w = NONE → microtasks w = [] → queue w = [] →
  0 ≤ t →
  exp (accessStore w) ≤ clock w →
  refreshValid (clock w) w = false →
  generateValid w = true →
  objects w !! opts = Some o →
  built url opts o w = inr r →
  let sp := length (promises w) in
  ∃ w',
    exec (20 + fuel)
      [ESend url opts; EClock t; EReject (sp + 2) e; EResolve (sp + 14) (VResp st b)] w
      = Some w'
    ∧ outcome sp w' = Some (Fulfilled (VResp st b))
    ∧ outcome (sp + 4) w' = Some (Rejected e)
    ∧ fetches (trace w') = fetches (trace w) ++ [(url, opts, r)]
    ∧ objects w' = objects w
    ∧ accessStore w' = emptyStore
    ∧ refreshStore w' = emptyStore
    ∧ connected (config w') = false
    ∧ strategy_calls Generate (trace w') = strategy_calls Generate (trace w) ++ [(sp + 2)%nat]
    ∧ queue w' = []
    ∧ pending w' = NONE.
Proof.
  intros Hp Hm Hq Hc He Hr Hg Ho Hb sp.
  pose proof (send_starts_generate (18 + fuel) url opts w Hp Hm He Hr Hg) as H1.
  unfold exec, outcome. cbn [Nat.add] in *.
  erewrite run_cons; [|exact H1]. clear H1.
  subst sp.
  destruct w as [dflt c q pm a r0 pf os ps ms cl tr].
  cbn in Hp, Hm, Hq, Ho, He. subst ms pm q.
  unfold parked. wnorm.
  tick.
  erewrite run_cons; cycle 1.
  { settle. do 2 job.
    unfold finally_callback. go.
    erewrite runQueue_one_degraded; cycle 1.
    { reflexivity. } { done. } { cbn. lia. }
    { unfold refreshValid. cbn. replace (0 >? t) with false by lia. apply andb_false_r. }
    { unfold generateValid. cbn. apply andb_false_r. }
    unfold chained. go.
    resume Ho Hb. repeat job. rest. }
  erewrite run_cons; cycle 1.
  { settle. repeat job. rest. }
  eexists. split; [reflexivity|]. go. split_and!; try done.
  - by rewrite fetches_app.
  - by apply list_insert_id.
  - by rewrite strategy_calls_app.
Qed.

Lemma failed_generate_releases_queue_witness :
  ∃ r w',
    built "/a" 1 noOptions unsigned = inr r
    ∧ exec 20 [ESend "/a" 1%nat; EClock 4100000; EReject 2%nat (VErr 500 "down");
               EResolve 14%nat (VResp 200 "ok")] unsigned = Some w'
    ∧ outcome 0 w' = Some (Fulfilled (VResp 200 "ok"))
    ∧ outcome 4 w' = Some (Rejected (VErr 500 "down")).
Proof.
  destruct (built "/a" 1 noOptions unsigned) as [e|r] eqn:Hb;
    [vm_compute in Hb; discriminate|].
  destruct (failed_generate_releases_queue 0 "/a" 1%nat noOptions unsigned 4100000 r
              (VErr 500 "down") 200 "ok")
    as (w' & H1 & H2 & H3 & _);
    [reflexivity|reflexivity|reflexivity|discriminate|discriminate|reflexivity|reflexivity
    |reflexivity|exact Hb|].
  exists r, w'. split; [reflexivity|]. split; [exact H1|]. split; [exact H2|exact H3].
Defined.

Lemma send_refreshing url opts w :
  pending w = NONE →
  exp (accessStore w) ≤ clock w →
  refreshValid (clock w) w = true →
  send url opts w =
    Some (length (promises w),
          resumed url opts (length (promises w)) true
            (set_pending SYNC
               (started Refresh SYNC HRefreshCatch
                  (set_accessStore emptyStore (entered url opts w))))).
Proof.
  intros Hp He Hr. apply send_with_eq.
  - rewrite isQueue_body_refresh; try done.
    + change (pending (entered url opts w)) with (pending w). by rewrite Hp.
    + change (pending (entered url opts w)) with (pending w). congruence.
    + cbn. lia.
  - cbn. rewrite <- app_assoc. apply lookup_at1.
Qed.

(** X12.  A 401 with a valid refresh token, from the request to the
    answer.  The call of an idle instance was let through with the
    current token, with no renew due, and its request, built from the
    object with the bearer header, went out.  The server answers 401 at
    a time [t1], not before the epoch, at which the refresh token is
    valid: the access store is reset, the call is made again, finds no
    access token, starts [config.refresh] and waits.  When the callback
    has stored a token [s] and resolves at a time [t2] at which [s] is
    valid and no renew is due, the call is replayed; when its request
    can be built it goes out a second time, with the header of [s]
    written over the first, and the promise that [send] returned at the
    start is fulfilled with the response of that second request.  The
    caller never sees the 401. *)
Theorem unauthorized_call_is_retried fuel url opts o w d s t1 t2 r1 r2 st b :
  pending w = NONE → microtasks w = [] → queue w = [] →
  exp (accessStore w) > clock w →
  renewValid (clock w) w = false →
  objects w !! opts = Some o →
  0 ≤ t1 →
  refreshValid t1 w = true →
  exp s > t2 →
  has_renew (config w) && (exp s - delay s <? t2 - 1000 * 60 * 15) = false →
  let sp := length (promises w) in
  let o1 := authorised (accessStore w) o in
  built url opts o1 w = inr r1 →
  built url opts (authorised s o1) w = inr r2 →
  ∃ w',
    exec (20 + fuel)
      [ESend url opts; EClock t1; EReject (sp + 3) (VErr 401 d); ESetAccess s;
       EClock t2; EResolve (sp + 10) VUndef; EResolve (sp + 24) (VResp st b)] w = Some w'
    ∧ outcome sp w' = Some (Fulfilled (VResp st b))
    ∧ fetches (trace w') = fetches (trace w) ++ [(url, opts, r1); (url, opts, r2)]
    ∧ objects w' = <[opts := authorised s o1]> (objects w)
    ∧ strategy_calls Refresh (trace w') = strategy_calls Refresh (trace w) ++ [(sp + 10)%nat]
    ∧ queue w' = []
    ∧ pending w' = NONE.
Proof.
  intros Hp Hm Hq He Hrv Ho Hc Hr Hs Hrn sp o1 Hb1 Hb2.
  assert (renewValid (clock w) w && bool_decide (pending w = NONE) = false) as Hrv'
    by (by rewrite Hrv).
  pose proof (send_let_through _ _ _
    (isQueue_body_proceeds runQueue url opts w ltac:(congruence) He Hrv')) as Hsend.
  clear Hrv Hrv'. subst sp o1.
  destruct w as [dflt c q pm a r0 pf os ps ms cl tr].
  cbn in Hp, Hm, Hq, Ho, Hs, Hrn, He, Hc. subst ms pm q.
  unfold refreshValid in Hr. cbn in Hr.
  unfold exec, outcome. cbn [Nat.add].
  erewrite run_cons; [|dispatch Hsend Ho Hb1].
  tick.
  erewrite run_cons; cycle 1.
  { settle. job. unfold handleErrors. go.
    change (401 =? 401) with true. go.
    unfold refreshValid at 1. go. rewrite Hr. go.
    erewrite send_refreshing; cycle 1.
    { reflexivity. } { cbn. lia. } { unfold refreshValid. cbn. exact Hr. }
    go. repeat job. rewrite send_resume_true. go. repeat job. rest. }
  tick. tick.
  erewrite run_cons; cycle 1.
  { settle. do 2 job.
    unfold finally_callback. go.
    erewrite runQueue_one_proceeds; cycle 1.
    { reflexivity. } { done. } { exact Hs. } { unfold renewValid. cbn. rewrite Hrn. done. }
    unfold chained. go.
    job. erewrite send_resume_false; cycle 1.
    { cbn. apply list_lookup_insert_eq. eauto using lookup_lt_Some. }
    erewrite dispatched_built; cycle 1.
    { erewrite built_eq; [exact Hb2|reflexivity|reflexivity|].
      cbn. apply list_insert_insert_eq. }
    go. repeat job. rest. }
  erewrite run_cons; cycle 1.
  { settle. repeat job. rest. }
  eexists. split; [reflexivity|]. go. split_and!; try done.
  - by rewrite fetches_app.
  - apply list_insert_insert_eq.
  - by rewrite strategy_calls_app.
Qed.

Lemma unauthorized_call_is_retried_witness :
  ∃ r1 r2 w',
    built "/a" 1 (authorised (accessStore signed) noOptions) signed = inr r1
    ∧ built "/a" 1 (authorised fresh_token (authorised (accessStore signed) noOptions)) signed
        = inr r2
    ∧ exec 20 [ESend "/a" 1%nat; EClock 4100000; EReject 3%nat (VErr 401 "no");
               ESetAccess fresh_token; EClock 4200000; EResolve 10%nat VUndef;
               EResolve 24%nat (VResp 200 "ok")] signed = Some w'
    ∧ outcome 0 w' = Some (Fulfilled (VResp 200 "ok")).
Proof.
  destruct (built "/a" 1 (authorised (accessStore signed) noOptions) signed)
    as [e|r1] eqn:Hb1; [vm_compute in Hb1; discriminate|].
  destruct (built "/a" 1 (authorised fresh_token (authorised (accessStore signed) noOptions))
              signed) as [e|r2] eqn:Hb2; [vm_compute in Hb2; discriminate|].
  destruct (unauthorized_call_is_retried 0 "/a" 1%nat noOptions signed "no" fresh_token
              4100000 4200000 r1 r2 200 "ok")
    as (w' & H1 & H2 & _);
    [reflexivity|reflexivity|reflexivity|reflexivity|reflexivity|reflexivity|discriminate
    |reflexivity|reflexivity|reflexivity|exact Hb1|exact Hb2|].
  exists r1, r2, w'. split; [reflexivity|]. split; [reflexivity|]. split; [exact H1|exact H2].
Defined.

Lemma runQueue_nil w : queue w = [] → runQueue w = Some (tt, w).
Proof.
  intros H. unfold runQueue. rewrite H. cbn [length runQueue_fuel]. mstep.
  rewrite H. cbn. by rewrite H.
Qed.

(** X13.  A renew runs in the background.  The call that finds the
    access token valid but older than 15 minutes starts [config.renew]
    and is not delayed by it: its request, when it can be built, goes
    out in the same turn, with the token in use, while the renew is in
    flight.  When the callback has stored the new token and resolved,
    [pending] is back to [NONE]; the answer of the request reaches the
    caller as usual. *)
Theorem renew_runs_in_background fuel url opts o w r s t st b :
  pending w = NONE → microtasks w = [] → queue w = [] →
  exp (accessStore w) > clock w →
  renewValid (clock w) w = true →
  objects w !! opts = Some o →
  built url opts (authorised (accessStore w) o) w = inr r →
  let sp := length (promises w) in
  ∃ w1 w',
    exec (6 + fuel) [ESend url opts] w = Some w1
    ∧ fetches (trace w1) = fetches (trace w) ++ [(url, opts, r)]
    ∧ pending w1 = ASYNC
    ∧ strategy_calls Renew (trace w1) = strategy_calls Renew (trace w) ++ [(sp + 2)%nat]
    ∧ is_pending (sp + 2) w1 = true
    ∧ exec (6 + fuel)
        [ESetAccess s; EClock t; EResolve (sp + 2) VUndef; EResolve (sp + 6) (VResp st b)] w1
        = Some w'
    ∧ outcome sp w' = Some (Fulfilled (VResp st b))
    ∧ fetches (trace w') = fetches (trace w) ++ [(url, opts, r)]
    ∧ strategy_calls Renew (trace w') = strategy_calls Renew (trace w) ++ [(sp + 2)%nat]
    ∧ accessStore w' = s
    ∧ pending w' = NONE.
Proof.
  intros Hp Hm Hq He Hrv Ho Hb sp. subst sp.
  assert (send url opts w =
            Some (length (promises w),
                  resumed url opts (length (promises w)) false
                    (started Renew ASYNC HRenewCatch (entered url opts w)))) as Hsend.
  { apply send_with_eq.
    - rewrite isQueue_body_valid; [|cbn; congruence|cbn; lia].
      change (renewValid _ (entered url opts w)) with (renewValid (clock w) w).
      change (pending (entered url opts w)) with (pending w).
      by rewrite Hrv, Hp.
    - cbn. rewrite <- app_assoc. apply lookup_at1. }
  clear Hrv.
  destruct w as [dflt c q pm a r0 pf os ps ms cl tr]. cbn in Hp, Hm, Hq, Ho, He. subst ms pm q.
  unfold exec, outcome. cbn [Nat.add].
  erewrite run_cons; cycle 1.
  { cbn [step]. mstep. rewrite Hsend. go. resume Ho Hb. repeat job. rest. }
  do 2 eexists. split; [reflexivity|]. unfold is_pending. go.
  split; [by rewrite fetches_app|]. split; [done|].
  split; [by rewrite strategy_calls_app|].
  split; [done|].
  unfold exec. cbn [Nat.add].
  tick. tick.
  erewrite run_cons; cycle 1.
  { settle. do 2 job. unfold finally_callback. go.
    rewrite runQueue_nil by done. go. repeat job. rest. }
  erewrite run_cons; cycle 1.
  { settle. repeat job. rest. }
  split; [reflexivity|]. go. split_and!; try done.
  - by rewrite fetches_app.
  - by rewrite strategy_calls_app.
Qed.

Lemma renew_runs_in_background_witness :
  ∃ r w1,
    built "/a" 1 (authorised (accessStore renewable) noOptions) renewable = inr r
    ∧ exec 6 [ESend "/a" 1%nat] renewable = Some w1
    ∧ length (fetches (trace w1)) = 1%nat
    ∧ pending w1 = ASYNC.
Proof.
  destruct (built "/a" 1 (authorised (accessStore renewable) noOptions) renewable)
    as [e|r] eqn:Hb; [vm_compute in Hb; discriminate|].
  destruct (renew_runs_in_background 0 "/a" 1%nat noOptions renewable r fresh_token 4100000
              200 "ok")
    as (w1 & w' & H1 & H2 & H3 & _);
    [reflexivity|reflexivity|reflexivity|reflexivity|reflexivity|reflexivity|exact Hb|].
  exists r, w1. split; [reflexivity|]. split; [exact H1|].
  split; [rewrite H2; reflexivity|exact H3].
Defined.

(** ** The helpers share the caller's object *)

#[local] Arguments with_method : simpl never.
#[local] Arguments with_query : simpl never.
#[local] Arguments with_json : simpl never.
#[local] Arguments with_form : simpl never.

Lemma authorised_payload a o :
  method (authorised a o) = method o
  ∧ query (authorised a o) = query o
  ∧ json (authorised a o) = json o
  ∧ form (authorised a o) = form o
  ∧ body (authorised a o) = body o.
Proof. unfold authorised. by destruct (truthy (token a)). Qed.

Lemma Fetch_request_payload pf dflt url a o m q text r :
  method o = Given m → query o = Given q → json o = Given (JsonText text) →
  Fetch_request pf dflt url (authorised a o) = inr r →
  init_method (call_init r) = m
  ∧ init_body (call_init r) = PJson text
  ∧ call_params r = searchParams (Given q)
  ∧ Headers_get (init_headers (call_init r)) "Content-Type" = Some "application/json"%string.
Proof.
  intros Hm Hq Hj Hr. destruct (authorised_payload a o) as (Em & Eq & Ej & _).
  pose proof (Fetch_request_get _ _ _ _ _ "Content-Type" Hr) as Hget.
  apply Fetch_request_inr in Hr as (_ & _ & _ & _ & Hp & Hme & _ & _ & Hbo & _).
  cbv zeta in *. unfold Fetch_config in *. cbn [method query json] in *.
  rewrite Em, Hm in Hme. rewrite Eq, Hq in Hp. rewrite Ej, Hj in Hbo, Hget.
  cbn [spread_field nullish] in *. done.
Qed.

(** X14.  Two helpers called in a row with the same options object.
    Each helper writes the method and the data into the object before
    it returns, and the request of a call is built from the object when
    the call resumes, after both helpers have returned.  So both
    requests, when they can be built, go out as the second helper left
    the object: a [get] followed by a [post] sends two POST requests,
    each with the JSON body of the [post] and the query of the [get]. *)
Theorem helpers_share_options fuel u1 u2 q text opts o w r1 r2 :
  pending w ≠ SYNC →
  exp (accessStore w) > clock w →
  renewValid (clock w) w && bool_decide (pending w = NONE) = false →
  microtasks w = [] →
  objects w !! opts = Some o →
  let o2 := with_json (Given (JsonText text))
              (with_method "POST" (with_query (Given q) (with_method "GET" o))) in
  built u1 opts (authorised (accessStore w) o2) w = inr r1 →
  built u2 opts (authorised (accessStore w) (authorised (accessStore w) o2)) w = inr r2 →
  ∃ w',
    (_ ← Fetch_get u1 (Some q) opts;
     _ ← Fetch_post u2 (Some (JsonText text)) opts;
     drain (6 + fuel)) w = Some (tt, w')
    ∧ fetches (trace w') = fetches (trace w) ++ [(u1, opts, r1); (u2, opts, r2)]
    ∧ Forall (λ r, init_method (call_init r) = "POST"%string
                   ∧ init_body (call_init r) = PJson text
                   ∧ call_params r = searchParams (Given q)
                   ∧ Headers_get (init_headers (call_init r)) "Content-Type"
                       = Some "application/json"%string)
        [r1; r2].
Proof.
  intros Hp He Hrv Hm Ho o2 Hb1 Hb2.
  assert (Forall (λ r, init_method (call_init r) = "POST"%string
                   ∧ init_body (call_init r) = PJson text
                   ∧ call_params r = searchParams (Given q)
                   ∧ Headers_get (init_headers (call_init r)) "Content-Type"
                       = Some "application/json"%string) [r1; r2]) as Hall.
  { destruct (authorised_payload (accessStore w) o2) as (Em & Eq & Ej & _).
    repeat apply Forall_cons_2; [| |done].
    - by apply (Fetch_request_payload _ _ _ _ o2 "POST" q text r1 eq_refl eq_refl eq_refl Hb1).
    - by apply (Fetch_request_payload _ _ _ _ (authorised (accessStore w) o2) "POST" q text r2
                  Em Eq Ej Hb2). }
  enough (∃ w',
            (_ ← Fetch_get u1 (Some q) opts;
             _ ← Fetch_post u2 (Some (JsonText text)) opts;
             drain (6 + fuel)) w = Some (tt, w')
            ∧ fetches (trace w') = fetches (trace w) ++ [(u1, opts, r1); (u2, opts, r2)])
    as (w' & H1 & H2) by (by exists w').
  clear Hall. subst o2.
  destruct w as [dflt c qu pm a r pf os ps ms cl tr].
  unfold renewValid in Hrv. cbn in Hp, He, Hrv, Hm, Ho. subst ms.
  assert (∀ u os' ps' ms' tr',
            let w1 := mkWorld dflt c qu pm a r pf os' ps' ms' cl tr' in
            send u opts w1
              = Some (length ps', resumed u opts (length ps') false (entered u opts w1)))
    as Hsend.
  { intros u os' ps' ms' tr' w1.
    apply (send_let_through _ _ w1), isQueue_body_proceeds; done. }
  clear Hp He Hrv.
  assert (opts < length os)%nat as Hlt by eauto using lookup_lt_Some.
  eexists. split.
  { unfold Fetch_get, Fetch_post, assign, nullable. cbn [Nat.add]. go.
    rewrite Ho. go. rewrite list_lookup_insert_eq by done. go.
    rewrite Hsend. go.
    rewrite list_lookup_insert_eq by (by rewrite !length_insert). go.
    rewrite list_lookup_insert_eq by (by rewrite !length_insert). go.
    rewrite !list_insert_insert_eq.
    rewrite Hsend. clear Hsend. go.
    job. erewrite send_resume_false by (cbn [objects]; by apply list_lookup_insert_eq).
    erewrite dispatched_built; cycle 1.
    { erewrite built_eq; [exact Hb1|reflexivity|reflexivity|].
      cbn. apply list_insert_insert_eq. }
    go.
    job. erewrite send_resume_false by (cbn [objects]; apply list_lookup_insert_eq;
                                         by rewrite length_insert).
    erewrite dispatched_built; cycle 1.
    { erewrite built_eq; [exact Hb2|reflexivity|reflexivity|].
      cbn. rewrite !list_insert_insert_eq. reflexivity. }
    go.
    repeat job. rest. }
  go. by rewrite fetches_app.
Qed.

Lemma helpers_share_options_witness :
  ∃ r1 r2 w',
    (_ ← Fetch_get "/a" (Some [("p"%string, QScalar "1")]) 1%nat;
     _ ← Fetch_post "/b" (Some (JsonText "{x:2}")) 1%nat; drain 6) bare
      = Some (tt, w')
    ∧ fetches (trace w') = [("/a"%string, 1%nat, r1); ("/b"%string, 1%nat, r2)]
    ∧ init_method (call_init r1) = "POST"%string.
Proof.
  pose (o2 := with_json (Given (JsonText "{x:2}"))
                (with_method "POST"
                   (with_query (Given [("p"%string, QScalar "1")])
                      (with_method "GET" noOptions)))).
  destruct (built "/a" 1 (authorised (accessStore bare) o2) bare) as [e|r1] eqn:Hb1;
    [vm_compute in Hb1; discriminate|].
  destruct (built "/b" 1 (authorised (accessStore bare) (authorised (accessStore bare) o2))
              bare) as [e|r2] eqn:Hb2; [vm_compute in Hb2; discriminate|].
  destruct (helpers_share_options 0 "/a" "/b" [("p"%string, QScalar "1")] "{x:2}" 1%nat
              noOptions bare r1 r2)
    as (w' & H1 & H2 & H3);
    [discriminate|reflexivity|reflexivity|reflexivity|reflexivity|exact Hb1|exact Hb2|].
  exists r1, r2, w'. split; [exact H1|]. split; [exact H2|].
  by apply Forall_cons_1 in H3 as [(H3 & _) _].
Defined.

(** ** The fallback chain, step by step *)

#[local] Arguments settlements : simpl never.

Lemma settlements_app t1 t2 : settlements (t1 ++ t2) = settlements t1 ++ settlements t2.
Proof. unfold settlements. apply omap_app. Qed.

(** An operation that the embedder starts. *)
Ltac call Hst := erewrite run_cons; [|cbn [step]; mstep; rewrite Hst; unfold started; go; rest].

(** The [finally] of an operation, on an empty queue. *)
Ltac unwind :=
  repeat first
    [ progress (unfold finally_callback; go; rewrite runQueue_nil by done; go)
    | job ].

Lemma generate_fails fuel w e t :
  microtasks w = [] → queue w = [] → has_generate (config w) = true →
  let n := length (promises w) in
  ∃ w', exec (20 + fuel) [ECall Generate; EClock t; EReject n e] w = Some w'
    ∧ outcome (n + 2) w' = Some (Rejected e)
    ∧ connected (config w') = false
    ∧ accessStore w' = accessStore w
    ∧ refreshStore w' = refreshStore w
    ∧ trace w' = trace w ++ [ObsStrategy Generate n; ObsSettled Generate].
Proof.
  intros Hm Hq Hg n. subst n.
  pose proof (generate_started w Hg) as Hst.
  destruct w as [dflt c q pm a r0 pf os ps ms cl tr]. cbn in Hm, Hq, Hg. subst ms q.
  unfold exec, outcome. cbn [Nat.add].
  call Hst. tick.
  erewrite run_cons; [|settle; unwind; rest].
  eexists. split; [reflexivity|]. go. done.
Qed.

Lemma refresh_fails fuel w e t :
  microtasks w = [] → queue w = [] → has_refresh (config w) = true →
  generateValid w = false →
  let n := length (promises w) in
  ∃ w', exec (20 + fuel) [ECall Refresh; EClock t; EReject n e] w = Some w'
    ∧ outcome (n + 2) w' = Some (Rejected e)
    ∧ connected (config w') = connected (config w)
    ∧ accessStore w' = accessStore w
    ∧ refreshStore w' = emptyStore
    ∧ trace w' = trace w ++ [ObsStrategy Refresh n; ObsSettled Refresh].
Proof.
  intros Hm Hq Hf Hg n. subst n.
  pose proof (refresh_started w Hf) as Hst.
  destruct w as [dflt c q pm a r0 pf os ps ms cl tr]. cbn in Hm, Hq, Hf. subst ms q.
  unfold generateValid in Hg. cbn in Hg.
  unfold exec, outcome. cbn [Nat.add].
  call Hst. tick.
  erewrite run_cons; cycle 1.
  { settle. job. unfold generateValid at 1. go. rewrite Hg. go. unwind. rest. }
  eexists. split; [reflexivity|]. go. done.
Qed.

Lemma refresh_generate_fail fuel w e2 e3 t2 t3 :
  microtasks w = [] → queue w = [] → has_refresh (config w) = true →
  generateValid w = true →
  let n := length (promises w) in
  ∃ w', exec (20 + fuel)
          [ECall Refresh; EClock t2; EReject n e2; EClock t3; EReject (n + 3) e3] w = Some w'
    ∧ outcome (n + 2) w' = Some (Rejected e3)
    ∧ connected (config w') = false
    ∧ accessStore w' = accessStore w
    ∧ refreshStore w' = emptyStore
    ∧ trace w' = trace w ++ [ObsStrategy Refresh n; ObsStrategy Generate (n + 3);
                             ObsSettled Generate; ObsSettled Refresh].
Proof.
  intros Hm Hq Hf Hg n. subst n.
  pose proof (refresh_started w Hf) as Hst.
  destruct w as [dflt c q pm a r0 pf os ps ms cl tr]. cbn in Hm, Hq, Hf. subst ms q.
  unfold generateValid in Hg. cbn in Hg. apply andb_prop in Hg as [Hg Hc].
  unfold exec, outcome. cbn [Nat.add].
  call Hst. tick.
  erewrite run_cons; cycle 1.
  { settle. job. unfold generateValid at 1. go. rewrite Hg, Hc. go.
    unfold generate. go. rewrite Hg. go. unwind. rest. }
  tick.
  erewrite run_cons; [|settle; unwind; rest].
  eexists. split; [reflexivity|]. go. done.
Qed.

Lemma renew_fails fuel w e t :
  microtasks w = [] → queue w = [] → has_renew (config w) = true →
  refreshValid t w = false → generateValid w = false →
  let n := length (promises w) in
  ∃ w', exec (20 + fuel) [ECall Renew; EClock t; EReject n e] w = Some w'
    ∧ outcome (n + 2) w' = Some (Rejected e)
    ∧ connected (config w') = connected (config w)
    ∧ accessStore w' = emptyStore
    ∧ refreshStore w' = emptyStore
    ∧ trace w' = trace w ++ [ObsStrategy Renew n; ObsSettled Renew].
Proof.
  intros Hm Hq Hn Hr Hg n. subst n.
  pose proof (renew_started w Hn) as Hst.
  destruct w as [dflt c q pm a r0 pf os ps ms cl tr]. cbn in Hm, Hq, Hn. subst ms q.
  unfold generateValid in Hg. unfold refreshValid in Hr. cbn in Hg, Hr.
  unfold exec, outcome. cbn [Nat.add].
  call Hst. tick.
  erewrite run_cons; cycle 1.
  { settle. job. unfold refreshValid at 1. go. rewrite Hr. go.
    unfold generateValid at 1. go. rewrite Hg. go. unwind. rest. }
  eexists. split; [reflexivity|]. go. done.
Qed.

Lemma renew_refresh_fail fuel w e1 e2 t1 t2 :
  microtasks w = [] → queue w = [] → has_renew (config w) = true →
  refreshValid t1 w = true → generateValid w = false →
  let n := length (promises w) in
  ∃ w', exec (20 + fuel)
          [ECall Renew; EClock t1; EReject n e1; EClock t2; EReject (n + 3) e2] w = Some w'
    ∧ outcome (n + 2) w' = Some (Rejected e2)
    ∧ connected (config w') = connected (config w)
    ∧ accessStore w' = emptyStore
    ∧ refreshStore w' = emptyStore
    ∧ trace w' = trace w ++ [ObsStrategy Renew n; ObsStrategy Refresh (n + 3);
                             ObsSettled Refresh; ObsSettled Renew].
Proof.
  intros Hm Hq Hn Hr Hg n. subst n.
  pose proof (renew_started w Hn) as Hst.
  destruct w as [dflt c q pm a r0 pf os ps ms cl tr]. cbn in Hm, Hq, Hn. subst ms q.
  unfold generateValid in Hg. unfold refreshValid in Hr. cbn in Hg, Hr.
  pose proof Hr as [Hf _]%andb_prop.
  unfold exec, outcome. cbn [Nat.add].
  call Hst. tick.
  erewrite run_cons; cycle 1.
  { settle. job. unfold refreshValid at 1. go. rewrite Hr. go.
    unfold refresh. go. rewrite Hf. go. unwind. rest. }
  tick.
  erewrite run_cons; cycle 1.
  { settle. job. unfold generateValid at 1. go. rewrite Hg. go. unwind. rest. }
  eexists. split; [reflexivity|]. go. done.
Qed.

Lemma renew_generate_fail fuel w e1 e3 t1 t3 :
  microtasks w = [] → queue w = [] → has_renew (config w) = true →
  refreshValid t1 w = false → generateValid w = true →
  let n := length (promises w) in
  ∃ w', exec (20 + fuel)
          [ECall Renew; EClock t1; EReject n e1; EClock t3; EReject (n + 3) e3] w = Some w'
    ∧ outcome (n + 2) w' = Some (Rejected e3)
    ∧ connected (config w') = false
    ∧ accessStore w' = emptyStore
    ∧ refreshStore w' = emptyStore
    ∧ trace w' = trace w ++ [ObsStrategy Renew n; ObsStrategy Generate (n + 3);
                             ObsSettled Generate; ObsSettled Renew].
Proof.
  intros Hm Hq Hn Hr Hg n. subst n.
  pose proof (renew_started w Hn) as Hst.
  destruct w as [dflt c q pm a r0 pf os ps ms cl tr]. cbn in Hm, Hq, Hn. subst ms q.
  unfold generateValid in Hg. unfold refreshValid in Hr. cbn in Hg, Hr.
  apply andb_prop in Hg as [Hg Hc].
  unfold exec, outcome. cbn [Nat.add].
  call Hst. tick.
  erewrite run_cons; cycle 1.
  { settle. job. unfold refreshValid at 1. go. rewrite Hr. go.
    unfold generateValid at 1. go. rewrite Hg, Hc. go.
    unfold generate. go. rewrite Hg. go. unwind. rest. }
  tick.
  erewrite run_cons; [|settle; unwind; rest].
  eexists. split; [reflexivity|]. go. done.
Qed.

Lemma renew_refresh_generate_fail fuel w e1 e2 e3 t1 t2 t3 :
  microtasks w = [] → queue w = [] → has_renew (config w) = true →
  refreshValid t1 w = true → generateValid w = true →
  let n := length (promises w) in
  ∃ w', exec (20 + fuel)
          [ECall Renew; EClock t1; EReject n e1; EClock t2; EReject (n + 3) e2;
           EClock t3; EReject (n + 7) e3] w = Some w'
    ∧ outcome (n + 2) w' = Some (Rejected e3)
    ∧ connected (config w') = false
    ∧ accessStore w' = emptyStore
    ∧ refreshStore w' = emptyStore
    ∧ trace w' = trace w ++ [ObsStrategy Renew n; ObsStrategy Refresh (n + 3);
                             ObsStrategy Generate (n + 7);
                             ObsSettled Generate; ObsSettled Refresh; ObsSettled Renew].
Proof.
  intros Hm Hq Hn Hr Hg n. subst n.
  pose proof (renew_started w Hn) as Hst.
  destruct w as [dflt c q pm a r0 pf os ps ms cl tr]. cbn in Hm, Hq, Hn. subst ms q.
  unfold generateValid in Hg. unfold refreshValid in Hr. cbn in Hg, Hr.
  pose proof Hr as [Hf _]%andb_prop.
  apply andb_prop in Hg as [Hg Hc].
  unfold exec, outcome. cbn [Nat.add].
  call Hst. tick.
  erewrite run_cons; cycle 1.
  { settle. job. unfold refreshValid at 1. go. rewrite Hr. go.
    unfold refresh. go. rewrite Hf. go. unwind. rest. }
  tick.
  erewrite run_cons; cycle 1.
  { settle. job. unfold generateValid at 1. go. rewrite Hg, Hc. go.
    unfold generate. go. rewrite Hg. go. unwind. rest. }
  tick.
  erewrite run_cons; [|settle; unwind; rest].
  eexists. split; [reflexivity|]. go. done.
Qed.

(** C2, amended.  When [renew] fails the access store is reset; then
    [refresh] is tried if [refreshValid(now)], else the refresh store is
    reset and [generate] is tried if [generateValid()], else the error of
    [renew] is rethrown.  When [refresh] fails the refresh store is reset
    and [generate] is tried if [generateValid()], else the error is
    rethrown.  When [generate] fails [connected] becomes false and the
    error is rethrown.  When every step that was tried fails, the promise
    of the operation is rejected with the error of the last step tried:
    it is the error of the operation that was called only when nothing
    was tried after it.  This holds for an operation that is called in
    any state in which no microtask is waiting and the queue is empty,
    whichever of [generate()], [refresh()] and [renew()] starts the
    chain and whenever the callbacks fail; [now] is the time at which
    [renew] fails. *)
Theorem fallback_chain fuel w e1 e2 e3 t1 t2 t3 :
  microtasks w = [] →
  queue w = [] →
  let n := length (promises w) in
  (∀ e x,
     run_handler HRenewCatch e x =
       (let p := S (S (length (promises x))) in
        let x1 := set_accessStore emptyStore x in
        let x2 := set_refreshStore emptyStore x1 in
        if refreshValid (clock x) x
        then Some (Normal (VProm p), started Refresh SYNC HRefreshCatch x1)
        else if generateValid x
             then Some (Normal (VProm p), started Generate SYNC HGenerateCatch x2)
             else Some (Abrupt e, x2)))
  ∧ (∀ e x,
       run_handler HRefreshCatch e x =
         (let p := S (S (length (promises x))) in
          let x3 := set_refreshStore emptyStore x in
          if generateValid x
          then Some (Normal (VProm p), started Generate SYNC HGenerateCatch x3)
          else Some (Abrupt e, x3)))
  ∧ (∀ e x, run_handler HGenerateCatch e x = Some (Abrupt e, disconnected x))
  ∧ (has_generate (config w) = true →
       ∃ w',
         exec (20 + fuel) [ECall Generate; EClock t3; EReject n e3] w = Some w'
         ∧ outcome (n + 2) w' = Some (Rejected e3)
         ∧ connected (config w') = false
         ∧ accessStore w' = accessStore w
         ∧ refreshStore w' = refreshStore w
         ∧ trace w' = trace w ++ [ObsStrategy Generate n; ObsSettled Generate])
  ∧ (has_refresh (config w) = true → generateValid w = false →
       ∃ w',
         exec (20 + fuel) [ECall Refresh; EClock t2; EReject n e2] w = Some w'
         ∧ outcome (n + 2) w' = Some (Rejected e2)
         ∧ connected (config w') = connected (config w)
         ∧ accessStore w' = accessStore w
         ∧ refreshStore w' = emptyStore
         ∧ trace w' = trace w ++ [ObsStrategy Refresh n; ObsSettled Refresh])
  ∧ (has_refresh (config w) = true → generateValid w = true →
       ∃ w',
         exec (20 + fuel)
           [ECall Refresh; EClock t2; EReject n e2; EClock t3; EReject (n + 3) e3] w = Some w'
         ∧ outcome (n + 2) w' = Some (Rejected e3)
         ∧ connected (config w') = false
         ∧ accessStore w' = accessStore w
         ∧ refreshStore w' = emptyStore
         ∧ trace w' = trace w ++ [ObsStrategy Refresh n; ObsStrategy Generate (n + 3);
                                  ObsSettled Generate; ObsSettled Refresh])
  ∧ (has_renew (config w) = true → refreshValid t1 w = false → generateValid w = false →
       ∃ w',
         exec (20 + fuel) [ECall Renew; EClock t1; EReject n e1] w = Some w'
         ∧ outcome (n + 2) w' = Some (Rejected e1)
         ∧ connected (config w') = connected (config w)
         ∧ accessStore w' = emptyStore
         ∧ refreshStore w' = emptyStore
         ∧ trace w' = trace w ++ [ObsStrategy Renew n; ObsSettled Renew])
  ∧ (has_renew (config w) = true → refreshValid t1 w = true → generateValid w = false →
       ∃ w',
         exec (20 + fuel)
           [ECall Renew; EClock t1; EReject n e1; EClock t2; EReject (n + 3) e2] w = Some w'
         ∧ outcome (n + 2) w' = Some (Rejected e2)
         ∧ connected (config w') = connected (config w)
         ∧ accessStore w' = emptyStore
         ∧ refreshStore w' = emptyStore
         ∧ trace w' = trace w ++ [ObsStrategy Renew n; ObsStrategy Refresh (n + 3);
                                  ObsSettled Refresh; ObsSettled Renew])
  ∧ (has_renew (config w) = true → refreshValid t1 w = false → generateValid w = true →
       ∃ w',
         exec (20 + fuel)
           [ECall Renew; EClock t1; EReject n e1; EClock t3; EReject (n + 3) e3] w = Some w'
         ∧ outcome (n + 2) w' = Some (Rejected e3)
         ∧ connected (config w') = false
         ∧ accessStore w' = emptyStore
         ∧ refreshStore w' = emptyStore
         ∧ trace w' = trace w ++ [ObsStrategy Renew n; ObsStrategy Generate (n + 3);
                                  ObsSettled Generate; ObsSettled Renew])
  ∧ (has_renew (config w) = true → refreshValid t1 w = true → generateValid w = true →
       ∃ w',
         exec (20 + fuel)
           [ECall Renew; EClock t1; EReject n e1; EClock t2; EReject (n + 3) e2;
            EClock t3; EReject (n + 7) e3] w = Some w'
         ∧ outcome (n + 2) w' = Some (Rejected e3)
         ∧ connected (config w') = false
         ∧ accessStore w' = emptyStore
         ∧ refreshStore w' = emptyStore
         ∧ trace w' = trace w ++ [ObsStrategy Renew n; ObsStrategy Refresh (n + 3);
                                  ObsStrategy Generate (n + 7);
                                  ObsSettled Generate; ObsSettled Refresh;
                                  ObsSettled Renew]).
Proof.
  intros Hm Hq n. split_and!.
  - intros e x. apply renew_catch.
  - intros e x. apply refresh_catch.
  - intros e x. apply generate_catch.
  - intros. by apply generate_fails.
  - intros. by apply refresh_fails.
  - intros. by apply refresh_generate_fail.
  - intros. by apply renew_fails.
  - intros. by apply renew_refresh_fail.
  - intros. by apply renew_generate_fail.
  - intros. by apply renew_refresh_generate_fail.
Qed.

Lemma fallback_chain_witness :
  microtasks equipped = []
  ∧ queue equipped = []
  ∧ ∃ w',
      exec 20 [ECall Renew; EClock 4100000; EReject 0%nat (VErr 500 "renew");
               EClock 4200000; EReject 3%nat (VErr 502 "refresh");
               EClock 4300000; EReject 7%nat (VErr 503 "generate")] equipped = Some w'
      ∧ outcome 2 w' = Some (Rejected (VErr 503 "generate")).
Proof.
  split; [reflexivity|]. split; [reflexivity|].
  destruct (fallback_chain 0 equipped (VErr 500 "renew") (VErr 502 "refresh")
              (VErr 503 "generate") 4100000 4200000 4300000 eq_refl eq_refl)
    as (_ & _ & _ & _ & _ & _ & _ & _ & _ & H).
  destruct (H eq_refl eq_refl eq_refl) as (w' & H1 & H2 & _).
  exists w'. split; [exact H1|exact H2].
Defined.
(** ** [handleErrors] and the method it overrides *)

(** X15.  [handleErrors] of [FetchQueue] is the [handleErrors] of
    [Fetch] for every error but a 401: the hook, if there is one, is
    called and awaited, and the error is thrown.  For a 401 that cannot
    be recovered from it does the same after it has reset the access
    store.  For a 401 that can be recovered from it resets the access
    store, calls [send] with the same url and the same options object,
    resolves its own promise with the promise of that call and does not
    call the hook. *)
Theorem handleErrors_extends_Fetch e url opts w :
  (is401 e = false → handleErrors e url opts w = Fetch_handleErrors e w)
  ∧ (is401 e = true → refreshValid (clock w) w || generateValid w = false →
       handleErrors e url opts w = Fetch_handleErrors e (set_accessStore emptyStore w))
  ∧ (is401 e = true → refreshValid (clock w) w || generateValid w = true →
       handleErrors e url opts w =
         (hp ← new_promise (Pending []);
          resetAccess ;;
          sp ← send url opts;
          resolve hp (VProm sp) ;;
          mret hp) w
       ∧ ∃ hp w' t, handleErrors e url opts w = Some (hp, w')
           ∧ hp = length (promises w)
           ∧ trace w' = trace w ++ ObsSend url opts (S hp) :: t
           ∧ hook_calls (trace w') = hook_calls (trace w)
           ∧ fetches (trace w') = fetches (trace w)
           ∧ outcome hp w' = Some (Pending [])
           ∧ last (microtasks w') = Some (JThenable hp (S hp))).
Proof.
  split_and!.
  - intros H4. unfold handleErrors, Fetch_handleErrors. mstep. by rewrite H4.
  - intros H4 Hv. unfold handleErrors, Fetch_handleErrors, resetAccess. mstep.
    rewrite H4. cbn -[refreshValid generateValid].
    change (refreshValid (clock w) _) with (refreshValid (clock w) w).
    change (generateValid _) with (generateValid w). by rewrite Hv.
  - intros H4 Hv. split.
    { unfold handleErrors, resetAccess. mstep.
      rewrite H4. cbn -[refreshValid generateValid send resolve].
      change (refreshValid (clock w) _) with (refreshValid (clock w) w).
      change (generateValid _) with (generateValid w). rewrite Hv.
      cbn -[send resolve].
      destruct (send url opts _) as [[sp x]|]; [|done].
      cbn -[resolve]. by destruct (resolve _ _ _) as [[[] y]|]. }
    destruct (handleErrors_retry e url opts w H4 Hv) as (b & w2 & Hb & Hs & Hh).
    destruct (send_with_sync runQueue (S (length (queue (caught e w)))) url opts
                (caught e w) (runQueue_drains _)) as (b' & w2' & Hb' & Hsend & _); [lia|].
    rewrite Hb in Hb'. injection Hb' as <- <-.
    assert (untouched (fetches (trace w)) (hook_calls (trace w)) (objects w)
              (resumed url opts (length (promises (caught e w))) b w2)) as (Hf & Hk & _).
    { eapply untouched_send; [|exact Hsend]. unfold caught. by destruct (is401 e). }
    pose proof (sync_trace _ _ Hs) as [t Ht].
    do 3 eexists. split; [exact Hh|]. split_and!.
    + done.
    + cbn. rewrite Ht. cbn. unfold caught. rewrite H4. cbn.
      rewrite length_snoc. by rewrite <- app_assoc.
    + exact Hk.
    + exact Hf.
    + unfold outcome, retried. cbn.
      assert (length (promises w) < length (promises w2))%nat as Hl.
      { destruct (sync_promises _ _ Hs) as [k Hk']. rewrite Hk'. unfold caught.
        destruct (is401 e); cbn; rewrite !length_app; cbn; lia. }
      rewrite list_lookup_insert_ne by lia.
      eapply prefix_lookup_Some; [|apply Hs].
      unfold caught. destruct (is401 e); cbn; rewrite <- app_assoc; apply lookup_at0.
    + unfold retried. cbn. by rewrite last_snoc.
Qed.

(** ** [Fetch.send], key by key *)

Lemma helper_config dflt h o :
  let cfg := Fetch_config dflt (helper_assigns h o) in
  let cfg0 := Fetch_config dflt o in
  method cfg = Given (helper_method h)
  ∧ baseUrl cfg = baseUrl cfg0
  ∧ credentials cfg = credentials cfg0
  ∧ signal cfg = signal cfg0
  ∧ headers cfg = headers cfg0
  ∧ body cfg = body cfg0.
Proof. by destruct h. Qed.

(** X16.  The helper decides the method, whatever the options and the
    instance defaults say; the keys it does not write reach [fetch] as
    [send] alone would have sent them: the url, the base, the
    credentials, the signal and every header but [Content-Type], which
    the JSON helpers set. *)
Theorem helper_sets_method pf dflt url h o r :
  helper_request pf dflt url h o = inr r →
  init_method (call_init r) = helper_method h
  ∧ call_url r = url
  ∧ (∀ k, lower k ≠ "content-type"%string →
       Headers_get (init_headers (call_init r)) k
         = joined (same_name k (nullish (headers (Fetch_config dflt o)) [])))
  ∧ ∀ r0, Fetch_request pf dflt url o = inr r0 →
      call_url r = call_url r0
      ∧ call_base r = call_base r0
      ∧ init_credentials (call_init r) = init_credentials (call_init r0)
      ∧ init_signal (call_init r) = init_signal (call_init r0)
      ∧ ∀ k, lower k ≠ "content-type"%string →
          Headers_get (init_headers (call_init r)) k
            = Headers_get (init_headers (call_init r0)) k.
Proof.
  intros Hr. unfold helper_request in Hr.
  destruct (helper_config dflt h o) as (Hm & Hb & Hc & Hs & Hh & _).
  assert (∀ k, lower k ≠ "content-type"%string →
            Headers_get (init_headers (call_init r)) k
              = joined (same_name k (nullish (headers (Fetch_config dflt o)) []))) as Hget.
  { intros k Hk. rewrite (Fetch_request_get _ _ _ _ _ k Hr), Hh.
    destruct (json _); [done..|]. by rewrite decide_False. }
  pose proof (Fetch_request_inr _ _ _ _ _ Hr) as (_ & _ & Hu & Hba & _ & Hme & Hcr & Hsi & _).
  cbv zeta in *. rewrite Hm in Hme. rewrite Hb in Hba. rewrite Hc in Hcr. rewrite Hs in Hsi.
  split_and!; try done.
  intros r0 Hr0.
  pose proof (Fetch_request_inr _ _ _ _ _ Hr0)
    as (_ & _ & Hu0 & Hba0 & _ & _ & Hcr0 & Hsi0 & _).
  cbv zeta in *. split_and!; try congruence.
  intros k Hk. rewrite (Hget k Hk), (Fetch_request_get _ _ _ _ _ k Hr0).
  destruct (json _); [done..|]. by rewrite decide_False.
Qed.

Lemma helper_sets_method_witness :
  ∃ r, helper_request page noOptions "/a" (CallPut None) (bearer "tok") = inr r
       ∧ init_method (call_init r) = "PUT"%string
       ∧ Headers_get (init_headers (call_init r)) "authorization" = Some "Bearer tok"%string.
Proof.
  destruct (helper_request page noOptions "/a" (CallPut None) (bearer "tok"))
    as [e|r] eqn:Hr; [vm_compute in Hr; discriminate|].
  destruct (helper_sets_method page noOptions "/a" (CallPut None) (bearer "tok") r Hr)
    as (H1 & _ & H3 & _).
  exists r. split; [reflexivity|]. split; [exact H1|].
  rewrite H3 by (vm_compute; discriminate). vm_compute. reflexivity.
Defined.

(** X17.  A helper called with data: [get] and [delete] send the parameters
    of the data and no others; [post], [put] and [patch] send the data
    as JSON, with the JSON content type, whatever form or body the
    options hold, and send nothing when the data cannot be serialised;
    [form] sends the form only when no [json] is left in the options or
    in the instance defaults, otherwise that JSON goes out instead. *)
Theorem helper_with_data pf dflt url o :
  (∀ q r, helper_request pf dflt url (CallGet (Some q)) o = inr r →
     call_params r = mjoin (query_entry <$> q))
  ∧ (∀ q r, helper_request pf dflt url (CallDelete (Some q)) o = inr r →
       call_params r = mjoin (query_entry <$> q))
  ∧ (∀ text h r,
       h = CallPost (Some (JsonText text)) ∨ h = CallPut (Some (JsonText text))
       ∨ h = CallPatch (Some (JsonText text)) →
       helper_request pf dflt url h o = inr r →
       init_body (call_init r) = PJson text
       ∧ Headers_get (init_headers (call_init r)) "Content-Type"
           = Some "application/json"%string)
  ∧ (∀ h, h = CallPost (Some JsonThrows) ∨ h = CallPut (Some JsonThrows)
          ∨ h = CallPatch (Some JsonThrows) →
       ∀ r, helper_request pf dflt url h o ≠ inr r)
  ∧ (∀ f r, helper_request pf dflt url (CallForm (Some f)) o = inr r →
       init_body (call_init r) =
         match spread_field (json dflt) (json o) with
         | Given (JsonText text) => PJson text
         | _ => PForm f
         end).
Proof.
  unfold helper_request. split_and!.
  - intros q r Hr. by apply Fetch_request_inr in Hr as (_ & _ & _ & _ & -> & _).
  - intros q r Hr. by apply Fetch_request_inr in Hr as (_ & _ & _ & _ & -> & _).
  - intros text h r Hh Hr.
    pose proof (Fetch_request_get _ _ _ _ _ "Content-Type" Hr) as Hget.
    apply Fetch_request_inr in Hr as (_ & _ & _ & _ & _ & _ & _ & _ & Hbo & _).
    cbv zeta in *. unfold Fetch_config in *. cbn [json form body] in *.
    by destruct Hh as [-> | [-> | ->]].
  - intros h Hh r Hr.
    apply Fetch_request_inr in Hr as (_ & Hj & _).
    cbv zeta in *. unfold Fetch_config in *. cbn [json] in *.
    by destruct Hh as [-> | [-> | ->]].
  - intros f r Hr.
    apply Fetch_request_inr in Hr as (_ & Hj & _ & _ & _ & _ & _ & _ & -> & _).
    cbv zeta in Hj |- *. unfold helper_assigns, with_form, with_method in *.
    cbn in Hj |- *.
    destruct (spread_field (json dflt) (json o)) as [| |[|]]; cbn; done.
Qed.

(** X18.  A helper called without data writes [null], and [null] hides the
    instance default: [get] and [delete] send no parameter; [post],
    [put] and [patch] send no JSON and do not set the content type, the
    body is the form or the raw body of the options; [form] sends no
    form. *)
Theorem helper_without_data pf dflt url o :
  (∀ r, helper_request pf dflt url (CallGet None) o = inr r → call_params r = [])
  ∧ (∀ r, helper_request pf dflt url (CallDelete None) o = inr r → call_params r = [])
  ∧ (∀ h r, h = CallPost None ∨ h = CallPut None ∨ h = CallPatch None →
       helper_request pf dflt url h o = inr r →
       init_body (call_init r) =
         match spread_field (form dflt) (form o) with
         | Given f => PForm f
         | _ => PRaw (spread_field (body dflt) (body o))
         end
       ∧ new_Headers (nullish (spread_field (headers dflt) (headers o)) [])
           = Some (init_headers (call_init r)))
  ∧ (∀ r, helper_request pf dflt url (CallForm None) o = inr r →
       init_body (call_init r) =
         match spread_field (json dflt) (json o) with
         | Given (JsonText text) => PJson text
         | _ => PRaw (spread_field (body dflt) (body o))
         end).
Proof.
  unfold helper_request. split_and!.
  - intros r Hr. by apply Fetch_request_inr in Hr as (_ & _ & _ & _ & -> & _).
  - intros r Hr. by apply Fetch_request_inr in Hr as (_ & _ & _ & _ & -> & _).
  - intros h r Hh Hr.
    apply Fetch_request_inr in Hr
      as (_ & _ & _ & _ & _ & _ & _ & _ & Hbo & hs & Hhs & Hi).
    destruct Hh as [-> | [-> | ->]]; cbv zeta in *;
      unfold helper_assigns, with_json, with_method in *; cbn in *;
      rewrite Hbo, Hi; (split; [by destruct (spread_field (form dflt) (form o))|done]).
  - intros r Hr.
    apply Fetch_request_inr in Hr as (_ & Hj & _ & _ & _ & _ & _ & _ & -> & _).
    cbv zeta in Hj |- *. unfold helper_assigns, with_form, with_method in *.
    cbn in Hj |- *.
    destruct (spread_field (json dflt) (json o)) as [| |[|]]; cbn; done.
Qed.

Lemma query_entry_length kv : length (query_entry kv) = query_arity kv.2.
Proof. unfold query_entry. destruct kv.2; cbn; [by rewrite length_imap|done..]. Qed.

(** X19.  The parameters appended to the url: every key of [query] gives its
    parameters in the order of the keys; a [null] gives none, an array
    one per element, named [key[index]], any other value one.  A
    [query] that is missing or [null] gives none. *)
Theorem searchParams_spec kvs :
  searchParams Absent = [] ∧ searchParams Null = []
  ∧ length (searchParams (Given kvs)) = sum_list (query_arity ∘ snd <$> kvs)
  ∧ (∀ k v, (k, v) ∈ searchParams (Given kvs) ↔
       ∃ key data, (key, data) ∈ kvs
         ∧ (data = QScalar v ∧ k = key
            ∨ ∃ vs i, data = QArray vs ∧ vs !! i = Some v
                      ∧ k = (key +:+ "[" +:+ pretty i +:+ "]")%string))
  ∧ (∀ kvs1 kvs2, searchParams (Given (kvs1 ++ kvs2))
       = searchParams (Given kvs1) ++ searchParams (Given kvs2))
  ∧ (∀ key vs, searchParams (Given [(key, QArray vs)])
       = imap (λ i v, ((key +:+ "[" +:+ pretty i +:+ "]")%string, v)) vs).
Proof.
  split_and!; try done.
  - unfold searchParams. rewrite length_join, <- list_fmap_compose.
    f_equal. apply list_fmap_ext. intros i kv _. apply query_entry_length.
  - intros k v. cbn. rewrite list_elem_of_join. split.
    + intros (l & Hl & (kv & -> & Hkv)%list_elem_of_fmap).
      destruct kv as [key data]. exists key, data. split; [done|].
      unfold query_entry in Hl. cbn in Hl. destruct data as [vs| |d].
      * right. apply elem_of_lookup_imap in Hl as (i & y & [= -> ->] & Hi). eauto.
      * by apply elem_of_nil in Hl.
      * left. apply list_elem_of_singleton in Hl as [= -> ->]. done.
    + intros (key & data & Hin & Hd).
      exists (query_entry (key, data)). split; [|apply list_elem_of_fmap; eauto].
      unfold query_entry. cbn. destruct Hd as [[-> ->] | (vs & i & -> & Hi & ->)].
      * by apply list_elem_of_singleton.
      * apply elem_of_lookup_imap. eauto.
  - intros kvs1 kvs2. cbn. by rewrite fmap_app, join_app.
  - intros key vs. cbn. by rewrite app_nil_r.
Qed.

(** ** From the response to the outcome *)

Lemma starts_with_spec p s : starts_with p s = true ↔ ∃ suf, s = (p +:+ suf)%string.
Proof.
  revert s. induction p as [|a p IH]; intros s; cbn.
  - split; [eauto|done].
  - destruct s as [|b s]; cbn.
    + split; [done|]. by intros (suf & [=]).
    + rewrite andb_true_iff, IH. split.
      * intros [->%Ascii.eqb_eq (suf & ->)]. eauto.
      * intros (suf & [= -> ->]). split; [apply Ascii.eqb_refl|eauto].
Qed.

Lemma matches_spec lit s : matches lit s = true ↔ occurs lit s.
Proof.
  unfold occurs. induction s as [|b s IH]; cbn.
  - rewrite orb_false_r, starts_with_spec. split.
    + intros (suf & ->). by exists ""%string, suf.
    + intros ([|c pre] & suf & H); [eauto|done].
  - rewrite orb_true_iff, starts_with_spec, IH. split.
    + intros [(suf & ->) | (pre & suf & ->)].
      * by exists ""%string, suf.
      * by exists (String b pre), suf.
    + intros ([|c pre] & suf & H).
      * left. eauto.
      * right. cbn in H. injection H as -> ->. eauto.
Qed.

(** X21.  [parseBody] never reads a response without a body; otherwise it
    reads JSON exactly when [application/json] occurs somewhere in the
    content type, a blob exactly when it does not and [application/pdf]
    or [image/] occurs, and text in every other case, also when the
    header is missing or empty. *)
Theorem parseBody_reader r :
  (resp_body r = false → parseBody r = Some NoBody)
  ∧ (resp_body r = true →
       ∃ k, parseBody r = Parsed k <$> resp_read r k
         ∧ (k = ReadJson ↔ ∃ t, resp_type r = Some t ∧ occurs "application/json" t)
         ∧ (k = ReadBlob ↔ ∃ t, resp_type r = Some t
                              ∧ ¬ occurs "application/json" t
                              ∧ (occurs "application/pdf" t ∨ occurs "image/" t))).
Proof.
  split; intros Hb; unfold parseBody; rewrite Hb; [done|]. cbn.
  exists (reader_of (resp_type r)). split; [done|].
  unfold reader_of, truthy.
  destruct (resp_type r) as [t|]; cbn.
  2:{ split; (split; [done|]); by intros (? & [=] & _). }
  assert (t = ""%string → ∀ lit, lit ≠ ""%string → ¬ occurs lit t) as Hempty.
  { intros -> lit Hl ([|] & suf & H); [|done]. cbn in H. destruct lit; done. }
  destruct (String.eqb_spec t "") as [He|He]; cbn.
  { split; (split; [done|]); intros (? & [= <-] & H).
    - by eapply Hempty in H.
    - destruct H as [_ [H|H]]; by eapply Hempty in H. }
  destruct (matches "application/json" t) eqn:Hj.
  { apply matches_spec in Hj. split.
    - split; [eauto|done].
    - split; [done|]. by intros (? & [= <-] & ? & _). }
  assert (¬ occurs "application/json" t) as Hnj.
  { rewrite <- matches_spec. by rewrite Hj. }
  destruct (matches "application/pdf" t) eqn:Hp.
  { apply matches_spec in Hp. split.
    - split; [done|]. by intros (? & [= <-] & ?).
    - split; [eauto 6|done]. }
  destruct (matches "image/" t) eqn:Hi.
  { apply matches_spec in Hi. split.
    - split; [done|]. by intros (? & [= <-] & ?).
    - split; [eauto 6|done]. }
  split.
  - split; [done|]. by intros (? & [= <-] & ?).
  - split; [done|]. intros (? & [= <-] & _ & [H|H]); apply matches_spec in H; congruence.
Qed.

(** X22.  What reaches the caller of [Fetch.send] or [handleErrors]: a
    response that is [ok] and whose body could be read is returned with
    its status; everything else is thrown as an [HttpException], never
    as an error of the platform.  Its status is the status of the
    response when the body could be read, and 500 when [fetch] failed or
    the body could not be read, whatever the status of the response. *)
Theorem transport_outcome onLine arrived :
  (∀ s b, transport onLine arrived = Returned s b ↔
     ∃ r, arrived = Some r ∧ resp_ok r = true ∧ resp_status r = s ∧ parseBody r = Some b)
  ∧ transport onLine arrived ≠ Threw PlatformError
  ∧ (∀ s d, transport onLine arrived = Threw (HttpException s d) ↔
       (∃ r b, arrived = Some r ∧ resp_ok r = false ∧ resp_status r = s
               ∧ parseBody r = Some b ∧ d = DataBody b)
       ∨ (s = 500 ∧ d = DataTransport 500 (if onLine then "fetch" else "offline")
          ∧ (arrived = None ∨ ∃ r, arrived = Some r ∧ parseBody r = None))).
Proof.
  unfold transport, handleResponse.
  destruct arrived as [r|]; cbn.
  2:{ split_and!; [|done|].
      - intros s b. split; [done|]. by intros (? & [=] & _).
      - intros s d. split.
        + intros [= <- <-]. right. eauto.
        + intros [(? & ? & [=] & _) | (-> & -> & _)]; done. }
  destruct (parseBody r) as [b|] eqn:Hb; cbn.
  2:{ split_and!; [|done|].
      - intros s b. split; [done|]. intros (? & [= <-] & _ & _ & ?). congruence.
      - intros s d. split.
        + intros [= <- <-]. right. eauto 6.
        + intros [(? & ? & [= <-] & _ & _ & ? & _) | (-> & -> & _)]; [congruence|done]. }
  destruct (resp_ok r) eqn:Hok; cbn.
  - split_and!; [|done|].
    + intros s b'. split.
      * intros [= <- <-]. eauto.
      * intros (? & [= <-] & _ & <- & ?). congruence.
    + intros s d. split; [done|].
      intros [(? & ? & [= <-] & ? & _) | (_ & _ & [?|(? & [= <-] & ?)])]; congruence.
  - split_and!; [|done|].
    + intros s b'. split; [done|]. intros (? & [= <-] & ? & _). congruence.
    + intros s d. split.
      * intros [= <- <-]. left. eauto 8.
      * intros [(? & ? & [= <-] & _ & <- & ? & ->) | (_ & _ & [?|(? & [= <-] & ?)])];
          congruence.
Qed.

(** X23.  A failure of the network, or a body that cannot be read, is
    never retried: it reaches [handleErrors] with status 500, which is
    not 401, so [FetchQueue] handles it as [Fetch] does and leaves the
    stores alone.  [data] stands for the data of the exception in the
    world of the instance. *)
Theorem transport_failure_is_not_retried onLine arrived s d data url opts w :
  transport onLine arrived = Threw (HttpException s d) →
  arrived = None ∨ (∃ r, arrived = Some r ∧ parseBody r = None) →
  s = 500
  ∧ is401 (VErr s data) = false
  ∧ handleErrors (VErr s data) url opts w = Fetch_handleErrors (VErr s data) w.
Proof.
  intros Ht Ha.
  assert (s = 500) as ->.
  { unfold transport, handleResponse in Ht.
    destruct Ha as [-> | (r & -> & Hr)]; [|rewrite Hr in Ht]; by injection Ht as <- <-. }
  split; [done|]. split; [done|].
  unfold handleErrors, Fetch_handleErrors. by mstep.
Qed.

Lemma transport_failure_is_not_retried_witness :
  transport true None = Threw (HttpException 500 (DataTransport 500 "fetch"))
  ∧ handleErrors (VErr 500 "fetch") "/a" 1%nat bare = Fetch_handleErrors (VErr 500 "fetch") bare.
Proof.
  split; [reflexivity|].
  apply (transport_failure_is_not_retried true None 500 (DataTransport 500 "fetch")
           "fetch" "/a" 1%nat bare); [reflexivity|left; reflexivity].
Defined.

(** ** Calls that arrive together *)

(** Two calls on an instance without tokens: [config.generate] is called
    once and both calls wait ([concurrent_sends_generate_once]). *)
Lemma concurrent_sends_generate_once_witness :
  ∃ w', exec 2 (send_all [("/a"%string, 1%nat); ("/b"%string, 1%nat)]) unsigned = Some w'
        ∧ calls Generate w' = 1%nat
        ∧ length (queue w') = 2%nat.
Proof.
  destruct (concurrent_sends_generate_once 0 [("/a"%string, 1%nat); ("/b"%string, 1%nat)] unsigned)
    as (w' & H1 & H2 & _ & _ & H3 & _);
    [discriminate|reflexivity|reflexivity|discriminate|reflexivity|reflexivity|].
  exists w'. split; [exact H1|]. split; [exact H2|].
  apply (f_equal length) in H3. unfold waiting in H3. rewrite length_fmap in H3. exact H3.
Defined.
